(** * The Miller-Rabin prime checker of truncatable_primes.py

    A shallow embedding of [MillerRabinPrimeChecker]: the witness test on
    Python integers ([Z]), the error budget on binary64 floats (Rocq's
    primitive floats, the same IEEE 754 arithmetic as Python's [float]), and
    the bookkeeping of [_GetBasesGenAndReporter] as a state-and-exception
    monad over the checker object, the heap of [Reporter] objects and the
    random source; and the search of [Doit] and [Main] over that checker,
    with the strings, sets and dictionary it uses and the lines it prints. *)

From Stdlib Require Import ZArith List Lia Bool Znumtheory Floats Permutation Sorted.
From Stdlib Require String Ascii.
Import ListNotations String.StringSyntax Ascii.AsciiSyntax.
Local Open Scope Z_scope.
Delimit Scope char_scope with char.
Delimit Scope string_scope with string.

(** ** Python integers: [pow(base, d, n)] and the halving loop *)

(** Three-argument [pow] by square and multiply, for a non-negative exponent
    and a modulus that is not 0, which is all [IsPrime] passes ([d >= 1] and
    [n >= 3]). Outside that Python differs from this function: it raises
    [ValueError] on the modulus 0 and takes a negative exponent to a power of
    the modular inverse. *)
Fixpoint pow_pos (base : Z) (e : positive) (n : Z) : Z :=
  match e with
  | xH => base mod n
  | xO e' => let h := pow_pos base e' n in (h * h) mod n
  | xI e' => let h := pow_pos base e' n in (((h * h) mod n) * base) mod n
  end.

Definition pow (base d n : Z) : Z :=
  match d with
  | Z0 => 1 mod n
  | Zpos e => pow_pos base e n
  | Zneg _ => 0
  end.

(** [while d % 2 == 0: r += 1; d //= 2], by recursion on the binary digits of
    [d]: an even positive number is [xO d'] and [d // 2] is [d']. *)
Fixpoint halve_pos (d : positive) (r : Z) : Z * Z :=
  match d with
  | xO d' => halve_pos d' (r + 1)
  | _ => (Zpos d, r)
  end.

(** The loop on a Python integer. On [d = 0] the source loop never ends;
    [IsPrime] only enters it with [d = n - 1 >= 2] (see [IsPrime_enters_loop_positive]). *)
Definition halve_while_even (d r : Z) : Z * Z :=
  match d with
  | Zpos p => halve_pos p r
  | Zneg p => let (d', r') := halve_pos p r in (- d', r')
  | Z0 => (0, r)
  end.

(** ** [_IsDefinitelyComposite] *)

(** [for _ in range(r): if x == n - 1: return False; x = (x * x) % n] followed
    by [return True], for [n] other than 0 (where [%] raises). *)
Fixpoint squarings (r : nat) (x n : Z) : bool :=
  match r with
  | O => true
  | S r' => if x =? n - 1 then false else squarings r' ((x * x) mod n) n
  end.

Definition _IsDefinitelyComposite (base n d r : Z) : bool :=
  let x := pow base d n in
  if x =? 1 then false else squarings (Z.to_nat r) x n.

(** ** The checker object, the heap and the monad *)

Inductive exn : Set := ValueError | OverflowError | ZeroDivisionError.

Inductive outcome (A : Type) : Type :=
| Return (a : A)
| Raise (e : exn).
Arguments Return {A} a.
Arguments Raise {A} e.

Record MillerRabinPrimeChecker : Set := mkChecker {
  _max_cumulative_error : float;
  _cumulative_error_sofar : float;
  _error_opportunity_count : Z
}.

(** [__init__]: the running sum starts as the integer [0], which float
    arithmetic reads as [0.0]. *)
Definition init (max_cumulative_error_probability : float) : MillerRabinPrimeChecker :=
  mkChecker max_cumulative_error_probability 0%float 0.

(** The default argument [1e-12], as the binary64 value Python parses it to. *)
Definition default_max_cumulative_error_probability : float := 0x1.19799812dea11p-40%float.

(** What a call can read and change: the checker [self]; the [_reported]
    field of every [Reporter] object created so far, in creation order; the
    random source ([entropy] and the number of draws made from it); and a
    ghost trace [calls] of the arguments the reporter callables were applied
    to, most recent first. *)
Record world : Type := mkWorld {
  self : MillerRabinPrimeChecker;
  reporters : list bool;
  entropy : nat -> Z;
  drawn : nat;
  calls : list bool
}.

(** A computation reads and changes the world and returns a value or raises;
    the world survives an exception. *)
Definition M (A : Type) : Type := world -> outcome A * world.

Definition ret {A} (a : A) : M A := fun w => (Return a, w).

Definition bind {A B} (c : M A) (k : A -> M B) : M B :=
  fun w => match c w with
           | (Return a, w') => k a w'
           | (Raise e, w') => (Raise e, w')
           end.

Definition lift {A} (o : outcome A) : M A := fun w => (o, w).

Notation "x <- c ;; k" := (bind c (fun x => k))
  (at level 61, c at next level, right associativity).

Definition get_self : M MillerRabinPrimeChecker := fun w => (Return (self w), w).

(** [random.randint(lo, hi)]: some integer of [lo..hi], chosen by the random
    source. *)
Definition randint (lo hi : Z) : M Z :=
  fun w => (Return (lo + (entropy w (drawn w)) mod (hi - lo + 1)),
            mkWorld (self w) (reporters w) (entropy w) (S (drawn w)) (calls w)).

(** ** Python floats *)

(** The binary64 value nearest to an integer (ties to even). *)
Definition float_of_Z (z : Z) : float := SF2Prim (binary_normalize prec emax z 0 false).

(** [float(i)] for an [int]: [OverflowError] when [i] is too large. *)
Definition float_of_int (i : Z) : outcome float :=
  let f := float_of_Z i in
  if is_infinity f then Raise OverflowError else Return f.

(** [math.ceil(x)]: the least integer not below [x]. *)
Definition math_ceil (x : float) : outcome Z :=
  match Prim2SF x with
  | S754_nan => Raise ValueError
  | S754_infinity _ => Raise OverflowError
  | S754_zero _ => Return 0
  | S754_finite s m e =>
      let v := cond_Zopp s (Zpos m) in
      Return (if 0 <=? e then v * 2 ^ e else - ((- v) / 2 ^ (- e)))
  end.

(** 0.0 < x, false on NaN. *)
Definition positive_float (x : float) : bool := (0 <? x)%float.

Definition threshold : Z := 3215031751.

Section Checker.

(** The C library's [log] on a finite positive double, the only arguments
    CPython passes to it. *)
Variable libm_log : float -> float.

(** CPython's wrapper around [log]: a domain error ([ValueError]) on zero and
    negative arguments, NaN and +infinity passed through. *)
Definition m_log (x : float) : outcome float :=
  if is_finite x then
    if positive_float x then Return (libm_log x) else Raise ValueError
  else if is_nan x then Return x
  else if positive_float x then Return x
  else Raise ValueError.

(** [math.log(x, base)]: the quotient of the two logarithms. *)
Definition math_log (x base : float) : outcome float :=
  match m_log x with
  | Raise e => Raise e
  | Return num =>
      match m_log base with
      | Raise e => Raise e
      | Return den =>
          if (den =? 0)%float then Raise ZeroDivisionError else Return (num / den)%float
      end
  end.

(** Lines 55-57: [acceptable_error_probability_for_this_n]. *)
Definition acceptable_error_probability (s : MillerRabinPrimeChecker) : outcome float :=
  match float_of_int (Z.max 100 (_error_opportunity_count s)) with
  | Raise e => Raise e
  | Return denom =>
      Return ((_max_cumulative_error s - _cumulative_error_sofar s) / denom)%float
  end.

(** Line 59: [k = int(math.ceil(-math.log(acceptable, 4)))]. *)
Definition witness_count (acceptable : float) : outcome Z :=
  match math_log acceptable 4%float with
  | Raise e => Raise e
  | Return l => math_ceil (- l)%float
  end.

(** A generator: the computations that produce its successive values, run
    one at a time as the [for] loop asks for them. *)
Definition generator : Type := list (M Z).

Definition reporter : Type := bool -> M unit.

(** [lambda x: None]. *)
Definition noop_reporter : reporter := fun _ => ret tt.

(** [Reporter(self)]: a new object with [_reported = False]; its address is
    its position in the heap. *)
Definition new_Reporter : M nat :=
  fun w => (Return (length (reporters w)),
            mkWorld (self w) (reporters w ++ [false]) (entropy w) (drawn w) (calls w)).

Fixpoint set_flag (l : list bool) (i : nat) : list bool :=
  match l, i with
  | [], _ => []
  | _ :: t, O => true :: t
  | h :: t, S i' => h :: set_flag t i'
  end.

(** [Reporter.Report], closed over the allowance computed for this call. *)
Definition Report (addr : nat) (acceptable : float) : reporter :=
  fun is_prime w =>
    let s := self w in
    let s' := if is_prime
              then mkChecker (_max_cumulative_error s)
                             (_cumulative_error_sofar s + acceptable)%float
                             (_error_opportunity_count s + 1)
              else s in
    (Return tt, mkWorld s' (set_flag (reporters w) addr) (entropy w) (drawn w) (calls w)).

(** [_bases_gen()]: [k] draws of [random.randint(1, n - 1)], none for [k <= 0]. *)
Definition _bases_gen (k n : Z) : generator := repeat (randint 1 (n - 1)) (Z.to_nat k).

Definition _GetBasesGenAndReporter (n : Z) : M (generator * reporter) :=
  if n <? threshold then
    ret (map ret (filter (fun x => x <? n) [2; 3; 5; 7]), noop_reporter)
  else
    s <- get_self ;;
    acceptable <- lift (acceptable_error_probability s) ;;
    k <- lift (witness_count acceptable) ;;
    addr <- new_Reporter ;;
    ret (_bases_gen k n, Report addr acceptable).

(** [for base in bases_gen: if self._IsDefinitelyComposite(...): result = False; break]. *)
Fixpoint for_bases (bases_gen : generator) (n d r : Z) : M bool :=
  match bases_gen with
  | [] => ret true
  | next :: rest =>
      base <- next ;;
      if _IsDefinitelyComposite base n d r then ret false else for_bases rest n d r
  end.

(** [reporter(result)], recorded in the ghost trace. *)
Definition invoke (rep : reporter) (result : bool) : M unit :=
  fun w => rep result (mkWorld (self w) (reporters w) (entropy w) (drawn w) (result :: calls w)).

Definition IsPrime (n : Z) : M bool :=
  if n =? 2 then ret true
  else if n <=? 1 then ret false
  else if n mod 2 =? 0 then ret false
  else
    let (d, r) := halve_while_even (n - 1) 0 in
    gr <- _GetBasesGenAndReporter n ;;
    result <- for_bases (fst gr) n d r ;;
    _ <- invoke (snd gr) result ;;
    ret result.

End Checker.

(** ** A reference [log] to run the model with

    [log x = e * log 2 + 2 * atanh ((m - 1) / (m + 1))] for [x = m * 2^e],
    [m] in [[1/sqrt 2, sqrt 2)], the series cut after the power 27. *)
Definition ln2 : float := 0x1.62e42fefa39efp-1%float.

Definition atanh_series (s : float) : float :=
  let s2 := (s * s)%float in
  let c (k : float) := (1 / k)%float in
  (s * (1 + s2 * (c 3 + s2 * (c 5 + s2 * (c 7 + s2 * (c 9 + s2 * (c 11 + s2 * (c 13
     + s2 * (c 15 + s2 * (c 17 + s2 * (c 19 + s2 * (c 21 + s2 * (c 23 + s2 * (c 25
     + s2 * c 27))))))))))))))%float.

Definition ref_log (x : float) : float :=
  let (m, e) := Z.frexp x in
  let (m, e) := if (m <? 0x1.6a09e667f3bcdp-1)%float then ((2 * m)%float, e - 1) else (m, e) in
  let fe := float_of_Z e in
  (fe * ln2 + 2 * atanh_series ((m - 1) / (m + 1)))%float.

(** ** Definitions used in the proofs *)

(** The product of a list, and the non-zero residues [1 .. p-1]. *)
Definition prodZ (l : list Z) : Z := fold_right Z.mul 1 l.
Definition residues (p : Z) : list Z := map Z.of_nat (seq 1 (Z.to_nat (p - 1))).

(** Whether [IsPrime n] gets past its three early returns. *)
Definition reaches_selection (n : Z) : bool :=
  negb (n =? 2) && negb (n <=? 1) && negb (n mod 2 =? 0).

(** The value the [i]-th draw of [random.randint(1, n - 1)] made from world [w] gives. *)
Definition base_at (w : world) (n : Z) (i : nat) : Z :=
  1 + entropy w (drawn w + i)%nat mod (n - 1 - 1 + 1).

(** The bases a generator of [k] draws can give, in order. *)
Definition drawn_bases (w : world) (n k : Z) : list Z :=
  map (base_at w n) (seq 0 (Z.to_nat k)).

(** No base of the list proves [n] composite. *)
Definition passes (bases : list Z) (n d r : Z) : bool :=
  forallb (fun base => negb (_IsDefinitelyComposite base n d r)) bases.

(** How many values the [for] loop takes from the generator before it ends. *)
Fixpoint consumed (bases : list Z) (n d r : Z) : nat :=
  match bases with
  | [] => O
  | base :: rest => if _IsDefinitelyComposite base n d r then 1%nat else S (consumed rest n d r)
  end.

(** The checker after [Report(True)] with allowance [a]. *)
Definition charged (s : MillerRabinPrimeChecker) (a : float) : MillerRabinPrimeChecker :=
  mkChecker (_max_cumulative_error s) (_cumulative_error_sofar s + a)%float
            (_error_opportunity_count s + 1).

(** Trial division, the ground truth for primality: no divisor among [2 .. sqrt n]. *)
Definition trial_division (n : Z) : bool :=
  (1 <? n) && forallb (fun k => negb (n mod k =? 0))
                      (map Z.of_nat (seq 2 (Z.to_nat (Z.sqrt n) - 1))).

(** The witness count of a call: what lines 55-59 compute for checker [s]. *)
Definition allocation (libm_log : float -> float) (s : MillerRabinPrimeChecker) : outcome Z :=
  match acceptable_error_probability s with
  | Raise e => Raise e
  | Return a => witness_count libm_log a
  end.

(** Binary64 rounding, on integers: a real is a fraction [N / D]. *)

(** Round [N / D] to the nearest integer, ties to even ([D > 0]). *)
Definition RNE (N D : Z) : Z :=
  match 2 * (N mod D) ?= D with
  | Lt => N / D
  | Gt => N / D + 1
  | Eq => if Z.even (N / D) then N / D else N / D + 1
  end.

(** Round the non-negative rational [N / D] to 53 significant bits. *)
Definition rnd (N D : Z) : Z :=
  let sh := Z.max (Zdigits2 (N / D) - 53) 0 in
  RNE N (D * 2 ^ sh) * 2 ^ sh.

(** The record [shr] keeps for [N / D]: the quotient, the round bit and the
    sticky bit. *)
Definition rec_of (N D : Z) : shr_record :=
  {| shr_m := N / D;
     shr_r := D <=? 2 * (N mod D);
     shr_s := negb (N mod D =? 0) && negb (2 * (N mod D) =? D) |}.

Definition loc_of (N D : Z) : location := loc_of_shr_record (rec_of N D).

(** The classification [binary_round_aux] ends with. *)
Definition pack (q E : Z) : spec_float :=
  let '(mrs, e) := shr_fexp prec emax q E loc_Exact in
  match shr_m mrs with
  | Z0 => S754_zero false
  | Zpos m => if e <=? emax - prec then S754_finite false m e else S754_infinity false
  | Zneg _ => S754_nan
  end.

(** The value of a float in units of [2^-1074], the smallest positive double. *)
Definition SFscaled (x : spec_float) : Z :=
  match x with
  | S754_finite s m e => cond_Zopp s (Z.pos m * 2 ^ (e + 1074))
  | _ => 0
  end.

(** The first scaled value too large for a double: [2^1024]. *)
Definition OVF : Z := 2 ^ 2098.

(** [rounds_to v x]: the float [x] stands for the non-negative scaled value
    [v], or is [+infinity] when [v] is too large. *)
Inductive rounds_to (v : Z) : spec_float -> Prop :=
| rt_zero s : v = 0 -> rounds_to v (S754_zero s)
| rt_finite m e :
    0 < v < OVF -> valid_binary (S754_finite false m e) = true ->
    v = Z.pos m * 2 ^ (e + 1074) -> rounds_to v (S754_finite false m e)
| rt_infinity : OVF <= v -> rounds_to v (S754_infinity false).

Definition nonneg_finite (x : spec_float) : bool :=
  match x with
  | S754_zero _ => true
  | S754_finite false _ _ => true
  | _ => false
  end.

(** The scaled value of a primitive float, and the floats that are finite and
    not negative. *)
Definition B2Z (x : float) : Z := SFscaled (Prim2SF x).

Definition finite_nonneg (x : float) : bool := nonneg_finite (Prim2SF x).

(** The scaled value of lines 55-57 for a checker with finite fields. *)
Definition allowance_value (BM Bc count : Z) : Z :=
  rnd (rnd (BM - Bc) 1 * 2 ^ 1074) (rnd (Z.max 100 count * 2 ^ 1074) 1).

(** The invariant of the budget: the sum so far is a finite non-negative
    double and does not exceed the ceiling (which may be [+infinity]). *)
Definition budget_respected (s : MillerRabinPrimeChecker) : Prop :=
  finite_nonneg (_cumulative_error_sofar s) = true
  /\ ((finite_nonneg (_max_cumulative_error s) = true
       /\ B2Z (_cumulative_error_sofar s) <= B2Z (_max_cumulative_error s))
      \/ Prim2SF (_max_cumulative_error s) = S754_infinity false).

(** Successive calls on one checker: each call of the list runs in the world
    the previous one left, whether it returned or raised. *)
Fixpoint run_calls (libm_log : float -> float) (ns : list Z) (w : world) : world :=
  match ns with
  | [] => w
  | n :: rest => run_calls libm_log rest (snd (IsPrime libm_log n w))
  end.

(** The world of a freshly constructed checker. *)
Definition fresh (max_cumulative_error_probability : float) (e : nat -> Z) : world :=
  mkWorld (init max_cumulative_error_probability) [] e 0 [].

(** The verdict of a call in the deterministic regime, which reads nothing
    of the world. *)
Definition deterministic_verdict (n : Z) : bool :=
  if reaches_selection n then
    let (d, r) := halve_while_even (n - 1) 0 in
    passes (filter (fun x => x <? n) [2; 3; 5; 7]) n d r
  else n =? 2.

(** [IsPrime] agrees with trial division on [1 .. bound - 1]. *)
Definition agrees_below (bound : nat) : bool :=
  forallb (fun i => Bool.eqb (deterministic_verdict (Z.of_nat i)) (trial_division (Z.of_nat i)))
          (seq 1 (bound - 1)).

(** The number of [True] verdicts of randomized calls in a history of calls. *)
Fixpoint true_randomized_verdicts (libm_log : float -> float) (ns : list Z) (w : world) : Z :=
  match ns with
  | [] => 0
  | n :: rest =>
      (match fst (IsPrime libm_log n w) with
       | Return true => if n <? threshold then 0 else 1
       | _ => 0
       end) + true_randomized_verdicts libm_log rest (snd (IsPrime libm_log n w))
  end.

(** A budget that is not used up: a finite ceiling of at least [2^-900] and a
    sum strictly below it. *)
Definition budget_open (s : MillerRabinPrimeChecker) : Prop :=
  finite_nonneg (_max_cumulative_error s) = true
  /\ 2 ^ 174 <= B2Z (_max_cumulative_error s)
  /\ finite_nonneg (_cumulative_error_sofar s) = true
  /\ B2Z (_cumulative_error_sofar s) < B2Z (_max_cumulative_error s).

(** Zero or a finite number, of either sign. *)
Definition SF_finite (x : spec_float) : bool :=
  match x with
  | S754_zero _ | S754_finite _ _ _ => true
  | _ => false
  end.

(** What the C library's [log] is taken to satisfy: a finite result on every
    finite positive double, and [log(4.0) >= 1]. *)
Definition finite_log (libm_log : float -> float) : Prop :=
  (forall x, (0 <? x)%float = true -> (x <? infinity)%float = true ->
             is_finite (libm_log x) = true)
  /\ (1 <=? libm_log 4)%float = true.

(** [ref_log] where it is finite, 1.0 elsewhere. *)
Definition finite_ref_log (x : float) : float :=
  let l := ref_log x in if is_finite l then l else 1%float.

(** ** Python strings, sets and dictionaries, as [Doit] uses them *)

(** [str(i)] for an [int]: the decimal digits, after a minus sign when
    negative. (CPython 3.11 and later refuse integers of more than 4300
    digits; the theorems stay below that.) *)
Definition digit_chr (d : Z) : Ascii.ascii := Ascii.ascii_of_N (Z.to_N (48 + d)).

Fixpoint decimal (fuel : nat) (n : Z) (acc : String.string) : String.string :=
  match fuel with
  | O => acc
  | S f => let acc' := String.String (digit_chr (n mod 10)) acc in
           if n <? 10 then acc' else decimal f (n / 10) acc'
  end.

Definition str (i : Z) : String.string :=
  if i <? 0 then String.String "-"%char (decimal (S (Z.to_nat (Z.log2 (- i)))) (- i) String.EmptyString)
  else decimal (S (Z.to_nat (Z.log2 i))) i String.EmptyString.

(** [int(s)] for a string of code points below 256: white space around an
    optional sign and decimal digits, single underscores allowed between
    digits; [ValueError] otherwise. *)
Definition is_space (c : Ascii.ascii) : bool :=
  let n := Z.of_N (Ascii.N_of_ascii c) in
  ((9 <=? n) && (n <=? 13)) || (n =? 32) || (n =? 133) || (n =? 160).

Definition digit_val (c : Ascii.ascii) : option Z :=
  let n := Z.of_N (Ascii.N_of_ascii c) in
  if (48 <=? n) && (n <=? 57) then Some (n - 48) else None.

Fixpoint lstrip (s : String.string) : String.string :=
  match s with
  | String.EmptyString => s
  | String.String c t => if is_space c then lstrip t else s
  end.

Fixpoint rstrip (s : String.string) : String.string :=
  match s with
  | String.EmptyString => s
  | String.String c t =>
      match rstrip t with
      | String.EmptyString => if is_space c then String.EmptyString else String.String c String.EmptyString
      | t' => String.String c t'
      end
  end.

Fixpoint parse_digits (s : String.string) (acc : Z) (after_digit : bool) : option Z :=
  match s with
  | String.EmptyString => if after_digit then Some acc else None
  | String.String c t =>
      match digit_val c with
      | Some d => parse_digits t (10 * acc + d) true
      | None => if Ascii.eqb c "_"%char && after_digit then parse_digits t acc false else None
      end
  end.

Definition int_of_str (s : String.string) : outcome Z :=
  let body := rstrip (lstrip s) in
  let (negative, digits) :=
    match body with
    | String.String c t =>
        if Ascii.eqb c "-"%char then (true, t) else if Ascii.eqb c "+"%char then (false, t) else (false, body)
    | String.EmptyString => (false, body)
    end in
  match parse_digits digits 0 false with
  | Some v => Return (if negative then - v else v)
  | None => Raise ValueError
  end.

(** [sep.join(l)]. *)
Fixpoint join (sep : String.string) (l : list String.string) : String.string :=
  match l with
  | [] => String.EmptyString
  | [x] => x
  | x :: rest => String.append x (String.append sep (join sep rest))
  end.

(** [sorted] on integers: the ascending list. *)
Fixpoint insert_sorted (x : Z) (l : list Z) : list Z :=
  match l with
  | [] => [x]
  | y :: t => if x <=? y then x :: l else y :: insert_sorted x t
  end.

Definition sorted (l : list Z) : list Z := fold_right insert_sorted [] l.

(** A [set] of integers: its elements, each once, in the order they were
    added. The order in which Python iterates over it is a function of that
    history, which the model leaves open ([iteration_order] below). *)
Definition set_add (x : Z) (s : list Z) : list Z :=
  if existsb (Z.eqb x) s then s else s ++ [x].

Definition set_of_list (l : list Z) : list Z := fold_left (fun s x => set_add x s) l [].

(** The dictionary [w2ps]: width to set. *)
Fixpoint dict_get (d : list (Z * list Z)) (k : Z) : option (list Z) :=
  match d with
  | [] => None
  | (k', v) :: t => if k' =? k then Some v else dict_get t k
  end.

Fixpoint dict_set (d : list (Z * list Z)) (k : Z) (v : list Z) : list (Z * list Z) :=
  match d with
  | [] => [(k, v)]
  | (k', v') :: t => if k' =? k then (k, v) :: t else (k', v') :: dict_set t k v
  end.

(** ** [Doit] and [Main] *)

(** What [Doit] can raise: what [IsPrime] and [int] raise, and the [KeyError]
    of a dictionary lookup. *)
Inductive exception : Set := Builtin (e : exn) | KeyError.

(** A run ends by returning, by raising, or not within the iterations the
    model was given ([while True]). *)
Inductive result (A : Type) : Type :=
| Returned (a : A)
| Raised (e : exception)
| OutOfFuel.
Arguments Returned {A} a.
Arguments Raised {A} e.
Arguments OutOfFuel {A}.

(** The state of the program: the world of the checker and the lines printed. *)
Record process : Type := mkProcess {
  heap : world;
  stdout : list String.string
}.

Definition D (A : Type) : Type := process -> result A * process.

Definition retD {A} (a : A) : D A := fun p => (Returned a, p).

Definition bindD {A B} (c : D A) (k : A -> D B) : D B :=
  fun p => match c p with
           | (Returned a, p') => k a p'
           | (Raised e, p') => (Raised e, p')
           | (OutOfFuel, p') => (OutOfFuel, p')
           end.

Notation "x <~ c ;; k" := (bindD c (fun x => k))
  (at level 61, c at next level, right associativity).

Definition liftD {A} (o : outcome A) : D A :=
  fun p => match o with
           | Return a => (Returned a, p)
           | Raise e => (Raised (Builtin e), p)
           end.

(** [print(s)]. *)
Definition print (s : String.string) : D unit :=
  fun p => (Returned tt, mkProcess (heap p) (stdout p ++ [s])).

Section Program.

Variable libm_log : float -> float.

(** The order in which a [for] loop visits a set with the given history. *)
Variable iteration_order : list Z -> list Z.

(** A call of the bound method [IsPrime]. *)
Definition call_IsPrime (n : Z) : D bool :=
  fun p => match IsPrime libm_log n (heap p) with
           | (Return v, w') => (Returned v, mkProcess w' (stdout p))
           | (Raise e, w') => (Raised (Builtin e), mkProcess w' (stdout p))
           end.

(** [[x for x in xs if IsPrime(x)]]. *)
Fixpoint primes_among (xs : list Z) : D (list Z) :=
  match xs with
  | [] => retD []
  | x :: rest =>
      b <~ call_IsPrime x ;;
      l <~ primes_among rest ;;
      retD (if b then x :: l else l)
  end.

(** Lines 95-103, for one [p] and one [nd]. *)
Definition try_digit (eight_becomes_three : bool) (p nd : Z) (next_prime_set : list Z)
  : D (list Z) :=
  cand <~ liftD (int_of_str (String.append (str nd) (str p))) ;;
  okay <~ (if negb eight_becomes_three then call_IsPrime cand
           else
             b <~ call_IsPrime cand ;;
             if b then
               if negb (nd =? 8) then retD true
               else
                 three <~ liftD (int_of_str (String.append (str 3) (str p))) ;;
                 call_IsPrime three
             else retD false) ;;
  retD (if okay then set_add cand next_prime_set else next_prime_set).

(** [for nd in range(1, 10): ...]. *)
Fixpoint for_nd (eight_becomes_three : bool) (p : Z) (nds : list Z) (next_prime_set : list Z)
  : D (list Z) :=
  match nds with
  | [] => retD next_prime_set
  | nd :: rest =>
      s <~ try_digit eight_becomes_three p nd next_prime_set ;;
      for_nd eight_becomes_three p rest s
  end.

(** [for p in current_prime_set: ...]. *)
Fixpoint for_p (eight_becomes_three : bool) (ps : list Z) (next_prime_set : list Z)
  : D (list Z) :=
  match ps with
  | [] => retD next_prime_set
  | p :: rest =>
      s <~ for_nd eight_becomes_three p [1; 2; 3; 4; 5; 6; 7; 8; 9] next_prime_set ;;
      for_p eight_becomes_three rest s
  end.

(** The line printed for a width. *)
Definition report_line (current_prime_set : list Z) (width : Z) : String.string :=
  let n := Z.of_nat (length current_prime_set) in
  String.append (str n)
    (String.append " truncatable primes with "%string
       (String.append (str width)
          (String.append " digits: "%string
             (if n <? 10 then join ", "%string (map str (sorted current_prime_set))
              else String.append (join ", "%string (map str (firstn 10 (sorted current_prime_set))))
                                 ", ..."%string)))).

(** One pass through the body of the [while True] loop, from the width and
    dictionary it starts with: [None] when it ends in [break]. *)
Definition loop_body (eight_becomes_three : bool) (width : Z) (w2ps : list (Z * list Z))
  : D (option (Z * list (Z * list Z))) :=
  let width := width + 1 in
  match dict_get w2ps width with
  | None => fun p => (Raised KeyError, p)
  | Some current_prime_set =>
      if Z.of_nat (length current_prime_set) =? 0 then retD None
      else
        _ <~ print (report_line current_prime_set width) ;;
        next_prime_set <~ for_p eight_becomes_three (iteration_order current_prime_set) [] ;;
        retD (Some (width, dict_set w2ps (width + 1) next_prime_set))
  end.

(** The loop, given [fuel] passes; it returns [w2ps] as the [break] leaves it. *)
Fixpoint while_loop (fuel : nat) (eight_becomes_three : bool) (width : Z)
    (w2ps : list (Z * list Z)) : D (list (Z * list Z)) :=
  match fuel with
  | O => fun p => (OutOfFuel, p)
  | S fuel' =>
      st <~ loop_body eight_becomes_three width w2ps ;;
      match st with
      | None => retD w2ps
      | Some (width', w2ps') => while_loop fuel' eight_becomes_three width' w2ps'
      end
  end.

(** [Doit], with [w2ps] as it is when the function returns. The checker is
    a new one, with the default ceiling. *)
Definition Doit_w2ps (fuel : nat) (eight_becomes_three : bool) : D (list (Z * list Z)) :=
  fun p =>
    let w := heap p in
    let p0 := mkProcess (mkWorld (init default_max_cumulative_error_probability)
                                 (reporters w) (entropy w) (drawn w) (calls w))
                        (stdout p) in
    (first <~ primes_among [2; 3; 4; 5; 6; 7; 8; 9] ;;
     while_loop fuel eight_becomes_three 0 [(1, set_of_list first)]) p0.

Definition Doit (fuel : nat) (eight_becomes_three : bool) : D unit :=
  _ <~ Doit_w2ps fuel eight_becomes_three ;; retD tt.

(** The variables [width] and [w2ps] of [Doit] where the loop stands after
    [k] passes: at the head of the loop ([false]) after [k] whole passes, or
    at the [break] ([true]) when that comes sooner, where line 82 has
    incremented [width] once more. *)
Fixpoint passes_of_loop (k : nat) (eight_becomes_three : bool) (width : Z)
    (w2ps : list (Z * list Z)) : D (bool * Z * list (Z * list Z)) :=
  match k with
  | O => retD (false, width, w2ps)
  | S k' =>
      st <~ loop_body eight_becomes_three width w2ps ;;
      match st with
      | None => retD (true, width + 1, w2ps)
      | Some (width', w2ps') => passes_of_loop k' eight_becomes_three width' w2ps'
      end
  end.

Definition Doit_after (k : nat) (eight_becomes_three : bool)
  : D (bool * Z * list (Z * list Z)) :=
  fun p =>
    let w := heap p in
    let p0 := mkProcess (mkWorld (init default_max_cumulative_error_probability)
                                 (reporters w) (entropy w) (drawn w) (calls w))
                        (stdout p) in
    (first <~ primes_among [2; 3; 4; 5; 6; 7; 8; 9] ;;
     passes_of_loop k eight_becomes_three 0 [(1, set_of_list first)]) p0.

Definition newline : String.string := String.String (Ascii.ascii_of_N 10) String.EmptyString.

Definition Main (fuel : nat) : D unit :=
  _ <~ print (String.append
                "Truncatbale primes (https://community.wolfram.com/groups/-/m/t/1569707)"%string
                newline) ;;
  _ <~ Doit fuel false ;;
  _ <~ print (String.append newline
                (String.append "What if 8 truncates to 3? (cf. https://bit.ly/2LJF4Lk)"%string newline)) ;;
  Doit fuel true.

End Program.


(** The program started with a random source. *)
Definition start (e : nat -> Z) : process :=
  mkProcess (fresh default_max_cumulative_error_probability e) [].

(** A left-truncatable prime with [w + 1] digits, as [Doit] understands it:
    a prime whose first digit is not 0 and which is still one without that
    digit; when 8 becomes 3, a first digit 8 also asks for the number with a
    3 in its place to be prime. *)
Fixpoint truncatable (eight_becomes_three : bool) (w : nat) (c : Z) : Prop :=
  match w with
  | O => 2 <= c <= 9 /\ Z.prime c
  | S w' =>
      let p := c mod 10 ^ Z.of_nat w in
      let nd := c / 10 ^ Z.of_nat w in
      1 <= nd <= 9 /\ truncatable eight_becomes_three w' p /\ Z.prime c
      /\ (eight_becomes_three = true -> nd = 8 -> Z.prime (3 * 10 ^ Z.of_nat w + p))
  end.

(** The set [w2ps] holds for a width, empty when it holds none. *)
Definition level (w2ps : list (Z * list Z)) (j : Z) : list Z :=
  match dict_get w2ps j with
  | Some s => s
  | None => []
  end.

(** The lines [Doit] has printed after [width] passes. *)
Definition printed (w2ps : list (Z * list Z)) (width : Z) : list String.string :=
  map (fun i => report_line (level w2ps (Z.of_nat i)) (Z.of_nat i)) (seq 1 (Z.to_nat width)).

(** What holds of [w2ps] after [width] passes through the loop: it has the
    widths [1 .. width + 1]; the numbers of a width have that many digits,
    none of them 0, and without their first digit belong to the width
    before; and every left-truncatable prime of a width is there. *)
Definition levels_ok (eight_becomes_three : bool) (width : Z) (w2ps : list (Z * list Z)) : Prop :=
  (forall j, (exists s, dict_get w2ps j = Some s) <-> 1 <= j <= width + 1)
  /\ forall j s, dict_get w2ps j = Some s ->
       NoDup s
       /\ (forall c, In c s ->
             10 ^ (j - 1) <= c < 10 ^ j
             /\ (j = 1 -> 2 <= c <= 9)
             /\ (1 < j -> 1 <= c / 10 ^ (j - 1) <= 9
                          /\ In (c mod 10 ^ (j - 1)) (level w2ps (j - 1))))
       /\ (forall c, truncatable eight_becomes_three (Z.to_nat (j - 1)) c -> In c s).

(** No white space in a string of digits, so nothing to strip. *)
Fixpoint no_space (s : String.string) : bool :=
  match s with
  | String.EmptyString => true
  | String.String c t => negb (is_space c) && no_space t
  end.

(** An open budget with at most [c] opportunities counted. *)
Definition calm (c : Z) (pr : process) : Prop :=
  budget_open (self (heap pr)) /\ _error_opportunity_count (self (heap pr)) <= c.

(** * Modular exponentiation and Fermat's little theorem *)

Lemma pow_pos_spec base e n : pow_pos base e n = (base ^ Zpos e) mod n.
Proof.
  induction e as [e IH | e IH |]; cbn [pow_pos].
  - rewrite IH, Pos2Z.inj_xI, Z.pow_add_r, Z.pow_1_r by lia.
    replace (2 * Z.pos e) with (Z.pos e + Z.pos e) by lia.
    rewrite Z.pow_add_r by lia.
    rewrite <- Zmult_mod. rewrite Zmult_mod_idemp_l. reflexivity.
  - rewrite IH, Pos2Z.inj_xO.
    replace (2 * Z.pos e) with (Z.pos e + Z.pos e) by lia.
    rewrite Z.pow_add_r by lia. rewrite <- Zmult_mod. reflexivity.
  - now rewrite Z.pow_1_r.
Qed.

Lemma pow_spec base d n : 0 <= d -> pow base d n = (base ^ d) mod n.
Proof.
  destruct d as [| e | e]; intros Hd; cbn [pow].
  - reflexivity.
  - apply pow_pos_spec.
  - lia.
Qed.

Lemma prodZ_perm l l' : Permutation l l' -> prodZ l = prodZ l'.
Proof.
  unfold prodZ. induction 1; cbn [fold_right]; try congruence. ring.
Qed.

Lemma prodZ_map_scale a p l :
  prodZ (map (fun i => (a * i) mod p) l) mod p = (a ^ Z.of_nat (length l) * prodZ l) mod p.
Proof.
  induction l as [| x l IH]; cbn [map prodZ fold_right length].
  - now rewrite Z.mul_1_r.
  - fold (prodZ (map (fun i => (a * i) mod p) l)). fold (prodZ l).
    rewrite Nat2Z.inj_succ, Z.pow_succ_r by lia.
    rewrite Zmult_mod, IH, <- Zmult_mod, Zmult_mod_idemp_l.
    f_equal. ring.
Qed.

Lemma in_residues p x : In x (residues p) <-> 1 <= x < p.
Proof.
  unfold residues. rewrite in_map_iff. split.
  - intros (k & <- & Hk). apply in_seq in Hk. lia.
  - intros H. exists (Z.to_nat x). split; [lia|]. apply in_seq. lia.
Qed.

Lemma NoDup_residues p : NoDup (residues p).
Proof.
  unfold residues. apply NoDup_map_NoDup_ForallPairs.
  - intros x y _ _. apply Nat2Z.inj.
  - apply seq_NoDup.
Qed.

Lemma rel_prime_prodZ p l : (forall x, In x l -> Z.coprime p x) -> Z.coprime p (prodZ l).
Proof.
  induction l as [| x l IH]; intros H; cbn.
  - apply Z.coprime_1_r.
  - apply Z.coprime_mul_r; [apply H; now left | apply IH; intros; apply H; now right].
Qed.

Lemma prime_not_divide_small p x : Z.prime p -> 1 <= x < p -> ~ (p | x).
Proof.
  intros Hp Hx Hd. apply Z.divide_pos_le in Hd; lia.
Qed.

Theorem fermat_little p a : Z.prime p -> ~ (p | a) -> a ^ (p - 1) mod p = 1.
Proof.
  intros Hp Ha.
  assert (Hp1 : 1 < p) by (destruct Hp; lia).
  set (f := fun i => (a * i) mod p).
  assert (Hin : forall x, In x (residues p) -> In (f x) (residues p)).
  { intros x Hx. apply in_residues in Hx. apply in_residues. unfold f.
    pose proof (Z.mod_pos_bound (a * x) p ltac:(lia)) as Hb.
    assert ((a * x) mod p <> 0); [| lia].
    intros H0. apply Z.mod_divide in H0; [| lia].
    apply (Z.divide_prime_mul _ _ _ Hp) in H0. destruct H0 as [H0 | H0]; [tauto |].
    now apply (prime_not_divide_small p x). }
  assert (Hinj : forall x y, In x (residues p) -> In y (residues p) -> f x = f y -> x = y).
  { intros x y Hx Hy Hxy. apply in_residues in Hx, Hy. unfold f in Hxy.
    assert (Hd : (p | a * (x - y))).
    { apply Z.mod_divide; [lia|]. rewrite Z.mul_sub_distr_l, Zminus_mod, Hxy, Z.sub_diag.
      now rewrite Z.mod_0_l by lia. }
    apply (Z.divide_prime_mul _ _ _ Hp) in Hd. destruct Hd as [Hd | Hd]; [tauto |].
    destruct Hd as [k Hk]. assert (k = 0) by nia. lia. }
  assert (Hperm : Permutation (map f (residues p)) (residues p)).
  { apply NoDup_Permutation_bis.
    - apply NoDup_map_NoDup_ForallPairs; [| apply NoDup_residues].
      intros x y Hx Hy. now apply Hinj.
    - now rewrite length_map.
    - intros y Hy. apply in_map_iff in Hy. destruct Hy as (x & <- & Hx). now apply Hin. }
  pose proof (prodZ_map_scale a p (residues p)) as Hs.
  fold f in Hs. rewrite (prodZ_perm _ _ Hperm) in Hs.
  assert (Hlen : Z.of_nat (length (residues p)) = p - 1).
  { unfold residues. rewrite length_map, length_seq. lia. }
  rewrite Hlen in Hs.
  assert (Hd : (p | prodZ (residues p) * (a ^ (p - 1) - 1))).
  { apply Z.mod_divide; [lia|].
    rewrite Z.mul_sub_distr_l, Z.mul_1_r, Zminus_mod, (Z.mul_comm (prodZ _)), <- Hs, Z.sub_diag.
    now rewrite Z.mod_0_l by lia. }
  apply Z.gauss in Hd.
  - destruct Hd as [k Hk].
    replace (a ^ (p - 1)) with (1 + k * p) by lia.
    rewrite Z_mod_plus_full. apply Z.mod_1_l; lia.
  - apply rel_prime_prodZ. intros x Hx. apply in_residues in Hx.
    now apply Z.coprime_prime_small.
Qed.

Lemma halve_pos_spec p r :
  Z.pos p = fst (halve_pos p r) * 2 ^ (snd (halve_pos p r) - r)
  /\ r <= snd (halve_pos p r) /\ Z.odd (fst (halve_pos p r)) = true.
Proof.
  revert r. induction p as [p IH | p IH |]; intros r; cbn [halve_pos fst snd].
  - rewrite Z.sub_diag. cbn. split; [lia | split; [lia | reflexivity]].
  - destruct (IH (r + 1)) as (H1 & H2 & H3). split; [| split; [lia | exact H3]].
    rewrite Pos2Z.inj_xO, H1 at 1.
    replace (snd (halve_pos p (r + 1)) - r) with (Z.succ (snd (halve_pos p (r + 1)) - (r + 1))) by lia.
    rewrite Z.pow_succ_r by lia. ring.
  - rewrite Z.sub_diag. cbn. split; [lia | split; [lia | reflexivity]].
Qed.

Lemma sqrt_one_prime n x :
  Z.prime n -> 0 <= x < n -> (x * x) mod n = 1 -> x = 1 \/ x = n - 1.
Proof.
  intros Hn Hx H. assert (Hn1 : 1 < n) by (destruct Hn; lia).
  assert (Hd : (n | (x - 1) * (x + 1))).
  { apply Z.mod_divide; [lia|].
    replace ((x - 1) * (x + 1)) with (x * x - 1) by ring.
    rewrite Zminus_mod, H. rewrite (Z.mod_1_l n) by lia.
    now rewrite Z.sub_diag, Z.mod_0_l by lia. }
  apply (Z.divide_prime_mul _ _ _ Hn) in Hd. destruct Hd as [[k Hk] | [k Hk]].
  - left. assert (k = 0) by nia. lia.
  - right. assert (k = 1) by nia. lia.
Qed.

Lemma squarings_prime n : Z.prime n ->
  forall r x, 0 <= x < n -> (x ^ 2 ^ Z.of_nat r) mod n = 1 ->
  x = 1 \/ squarings r x n = false.
Proof.
  intros Hn. assert (Hn1 : 1 < n) by (destruct Hn; lia).
  induction r as [| r IH]; intros x Hx H.
  - left. change (2 ^ Z.of_nat 0) with 1 in H. rewrite Z.pow_1_r, Z.mod_small in H; lia.
  - cbn [squarings]. destruct (Z.eqb_spec x (n - 1)) as [E | E]; [now right |].
    destruct (IH ((x * x) mod n)) as [H1 | H1].
    + apply Z.mod_pos_bound; lia.
    + rewrite Z.mod_pow_l.
      rewrite Nat2Z.inj_succ, Z.pow_succ_r in H by lia.
      rewrite Z.pow_mul_r in H by lia. now rewrite Z.pow_2_r in H.
    + destruct (sqrt_one_prime n x Hn Hx H1); [now left | contradiction].
    + now right.
Qed.

Theorem IsDefinitelyComposite_prime n base d r :
  Z.prime n -> 1 <= base <= n - 1 -> 0 <= d -> 0 <= r -> n - 1 = 2 ^ r * d ->
  _IsDefinitelyComposite base n d r = false.
Proof.
  intros Hn Hb Hd Hr Hdec. assert (Hn1 : 1 < n) by (destruct Hn; lia).
  unfold _IsDefinitelyComposite. cbv zeta.
  destruct (Z.eqb_spec (pow base d n) 1) as [E | E]; [reflexivity |].
  destruct (squarings_prime n Hn (Z.to_nat r) (pow base d n)) as [H | H].
  - rewrite pow_spec by lia. apply Z.mod_pos_bound; lia.
  - rewrite pow_spec by lia. rewrite Z.mod_pow_l.
    rewrite Z2Nat.id by lia. rewrite <- Z.pow_mul_r by lia.
    rewrite (Z.mul_comm d), <- Hdec. apply fermat_little; [exact Hn |].
    intros Hdiv. apply Z.divide_pos_le in Hdiv; lia.
  - contradiction.
  - exact H.
Qed.

(** * The control flow of [IsPrime] *)

Section Flow.

Variable libm_log : float -> float.

Lemma reaches_selection_spec n :
  reaches_selection n = true <-> 3 <= n /\ n mod 2 = 1.
Proof.
  unfold reaches_selection. rewrite !andb_true_iff, !negb_true_iff.
  rewrite Z.eqb_neq, Z.leb_gt, Z.eqb_neq.
  pose proof (Z.mod_pos_bound n 2 ltac:(lia)). split.
  - intros [[H1 H2] H3]. assert (n <> 3 -> 3 <= n) by lia.
    split; [|lia]. destruct (Z.eq_dec n 3); lia.
  - intros [H1 H2]. repeat split; lia.
Qed.

Lemma IsPrime_early n w :
  reaches_selection n = false -> IsPrime libm_log n w = (Return (n =? 2), w).
Proof.
  unfold reaches_selection, IsPrime. intros H.
  destruct (n =? 2) eqn:E2; [reflexivity |].
  destruct (n <=? 1) eqn:E1; [reflexivity |].
  destruct (n mod 2 =? 0) eqn:E0; [reflexivity | discriminate].
Qed.

Lemma for_bases_fixed l n d r w :
  for_bases (map ret l) n d r w = (Return (passes l n d r), w).
Proof.
  induction l as [| b l IH]; cbn [map for_bases passes forallb]; [reflexivity |].
  unfold bind at 1. cbn [ret].
  destruct (_IsDefinitelyComposite b n d r); cbn [negb andb]; [reflexivity | exact IH].
Qed.

Lemma for_bases_random n d r j : forall w,
  let bases := map (base_at w n) (seq 0 j) in
  for_bases (repeat (randint 1 (n - 1)) j) n d r w =
  (Return (passes bases n d r),
   mkWorld (self w) (reporters w) (entropy w) (drawn w + consumed bases n d r) (calls w)).
Proof.
  induction j as [| j IH]; intros w; cbn zeta.
  - cbn. rewrite Nat.add_0_r. now destruct w.
  - cbn [repeat for_bases seq map passes forallb consumed].
    unfold bind at 1, randint at 1. cbn [fst snd].
    unfold base_at at 1 3. rewrite Nat.add_0_r.
    destruct (_IsDefinitelyComposite _ n d r) eqn:E; cbn [negb andb].
    + unfold ret. f_equal. f_equal. lia.
    + rewrite IH. cbn [self reporters entropy drawn calls].
      rewrite <- seq_shift, map_map.
      assert (Hext : map (fun x => base_at w n (S x)) (seq 0 j) =
                     map (base_at (mkWorld (self w) (reporters w) (entropy w) (S (drawn w)) (calls w)) n) (seq 0 j)).
      { apply map_ext. intros i. unfold base_at. cbn [entropy drawn].
        now replace (drawn w + S i)%nat with (S (drawn w) + i)%nat by lia. }
      rewrite Hext. fold (passes (map (base_at (mkWorld (self w) (reporters w) (entropy w) (S (drawn w)) (calls w)) n) (seq 0 j)) n d r).
      f_equal. f_equal. lia.
Qed.

Lemma set_flag_fresh l : set_flag (l ++ [false]) (length l) = l ++ [true].
Proof. induction l as [| b l IH]; cbn; [reflexivity | now rewrite IH]. Qed.

(** A call in the deterministic regime. *)
Lemma IsPrime_deterministic n w :
  reaches_selection n = true -> n < threshold ->
  IsPrime libm_log n w =
  let (d, r) := halve_while_even (n - 1) 0 in
  let v := passes (filter (fun x => x <? n) [2; 3; 5; 7]) n d r in
  (Return v, mkWorld (self w) (reporters w) (entropy w) (drawn w) (v :: calls w)).
Proof.
  intros Hsel Hlt. unfold IsPrime.
  unfold reaches_selection in Hsel. rewrite !andb_true_iff, !negb_true_iff in Hsel.
  destruct Hsel as [[-> ->] ->].
  destruct (halve_while_even (n - 1) 0) as [d r].
  unfold _GetBasesGenAndReporter. apply Z.ltb_lt in Hlt. rewrite Hlt.
  unfold bind at 1. cbn [ret fst snd].
  unfold bind at 1. rewrite for_bases_fixed.
  reflexivity.
Qed.

(** A call in the randomized regime. *)
Lemma IsPrime_randomized n w :
  reaches_selection n = true -> threshold <= n ->
  IsPrime libm_log n w =
  match acceptable_error_probability (self w) with
  | Raise e => (Raise e, w)
  | Return a =>
      match witness_count libm_log a with
      | Raise e => (Raise e, w)
      | Return k =>
          let (d, r) := halve_while_even (n - 1) 0 in
          let bases := drawn_bases w n k in
          let v := passes bases n d r in
          (Return v,
           mkWorld (if v then charged (self w) a else self w)
                   (reporters w ++ [true]) (entropy w)
                   (drawn w + consumed bases n d r) (v :: calls w))
      end
  end.
Proof.
  intros Hsel Hge. unfold IsPrime.
  unfold reaches_selection in Hsel. rewrite !andb_true_iff, !negb_true_iff in Hsel.
  destruct Hsel as [[-> ->] ->].
  destruct (halve_while_even (n - 1) 0) as [d r].
  unfold _GetBasesGenAndReporter. apply Z.ltb_ge in Hge. rewrite Hge.
  unfold bind at 1. unfold bind at 1. unfold get_self at 1.
  unfold bind at 1. unfold lift at 1.
  destruct (acceptable_error_probability (self w)) as [a | e]; [| reflexivity].
  unfold bind at 1. unfold lift at 1.
  destruct (witness_count libm_log a) as [k | e]; [| reflexivity].
  unfold bind at 1. unfold new_Reporter at 1. cbn [ret fst snd].
  unfold bind at 1. unfold _bases_gen. rewrite for_bases_random.
  cbn [self reporters entropy drawn calls].
  unfold bind at 1. unfold invoke, Report.
  cbn [self reporters entropy drawn calls ret].
  rewrite set_flag_fresh. unfold drawn_bases, charged.
  reflexivity.
Qed.

End Flow.

(** * Trial division decides primality *)

Lemma trial_division_spec n : trial_division n = true <-> Z.prime n.
Proof.
  unfold trial_division. rewrite andb_true_iff, Z.ltb_lt, forallb_forall. split.
  - intros [H1 Hall]. split; [exact H1 |]. intros k Hk [q Hq].
    assert (Hq1 : 1 < q < n) by nia.
    pose proof (Z.sqrt_spec n ltac:(lia)) as Hs. cbv zeta in Hs.
    assert (Hsmall : forall a b, 1 < a -> n = b * a -> a <= Z.sqrt n -> False).
    { intros a b Ha Hab Hle.
      specialize (Hall a). rewrite negb_true_iff, Z.eqb_neq in Hall. apply Hall.
      - apply in_map_iff. exists (Z.to_nat a). split; [lia |]. apply in_seq. lia.
      - rewrite Hab. apply Z.mod_mul. lia. }
    destruct (Z_le_gt_dec k (Z.sqrt n)) as [Hle | Hgt].
    + exact (Hsmall k q ltac:(lia) Hq Hle).
    + apply (Hsmall q k ltac:(lia)); [rewrite Hq; ring |].
      destruct (Z_le_gt_dec q (Z.sqrt n)) as [Hle | Hgt']; [exact Hle | exfalso].
      pose proof (Z.sqrt_nonneg n).
      assert (Z.succ (Z.sqrt n) * Z.succ (Z.sqrt n) <= q * k) by (apply Z.mul_le_mono_nonneg; lia).
      lia.
  - intros [H1 Hp]. split; [exact H1 |]. intros k Hk.
    apply in_map_iff in Hk. destruct Hk as (i & <- & Hi). apply in_seq in Hi.
    rewrite negb_true_iff, Z.eqb_neq. intros H0.
    pose proof (Z.sqrt_spec n ltac:(lia)) as Hs. cbv zeta in Hs.
    apply (Hp (Z.of_nat i)); [nia |]. apply Z.mod_divide; lia.
Qed.

(** * No false negatives *)

Lemma halve_while_even_spec m :
  1 <= m ->
  m = 2 ^ snd (halve_while_even m 0) * fst (halve_while_even m 0)
  /\ 0 <= snd (halve_while_even m 0) /\ 0 < fst (halve_while_even m 0)
  /\ Z.odd (fst (halve_while_even m 0)) = true.
Proof.
  intros Hm. destruct m as [| p | p]; try lia. cbn [halve_while_even].
  destruct (halve_pos_spec p 0) as (H1 & H2 & H3).
  rewrite Z.sub_0_r in H1.
  assert (0 < 2 ^ snd (halve_pos p 0)) by (apply Z.pow_pos_nonneg; lia).
  repeat split; try assumption; try lia; nia.
Qed.

(** The loop of [IsPrime] is entered with [d = n - 1 >= 2], where it terminates. *)
Lemma IsPrime_enters_loop_positive n :
  reaches_selection n = true -> exists p, n - 1 = Z.pos p.
Proof.
  intros H. apply reaches_selection_spec in H. destruct (n - 1) as [| p | p] eqn:E; try lia.
  now exists p.
Qed.

Lemma passes_prime n d r bases :
  Z.prime n -> 0 <= d -> 0 <= r -> n - 1 = 2 ^ r * d ->
  (forall b, In b bases -> 1 <= b <= n - 1) ->
  passes bases n d r = true.
Proof.
  intros Hn Hd Hr Hdec Hb. unfold passes. apply forallb_forall. intros b Hin.
  rewrite (IsDefinitelyComposite_prime n b d r); auto.
Qed.

Lemma drawn_bases_range w n k b :
  3 <= n -> In b (drawn_bases w n k) -> 1 <= b <= n - 1.
Proof.
  intros Hn Hin. unfold drawn_bases in Hin. apply in_map_iff in Hin.
  destruct Hin as (i & <- & _). unfold base_at.
  pose proof (Z.mod_pos_bound (entropy w (drawn w + i)) (n - 1 - 1 + 1) ltac:(lia)). lia.
Qed.

Lemma prime_reaches_selection n :
  Z.prime n -> n <> 2 -> reaches_selection n = true.
Proof.
  intros Hn H2. apply reaches_selection_spec. destruct Hn as [H1 Hp].
  split; [lia |].
  pose proof (Z.mod_pos_bound n 2 ltac:(lia)).
  assert (n mod 2 <> 0); [| lia].
  intros H0. apply (Hp 2); [lia |]. apply Z.mod_divide; lia.
Qed.

(** A prime is never answered [False]: the call returns [True], unless lines
    55-59 raise before any base is drawn. *)
Lemma IsPrime_of_prime (libm_log : float -> float) (n : Z) (w : world) :
  Z.prime n ->
  fst (IsPrime libm_log n w) = Return true
  \/ (threshold <= n /\ exists e, allocation libm_log (self w) = Raise e
                                /\ IsPrime libm_log n w = (Raise e, w)).
Proof.
  intros Hn. destruct (Z.eq_dec n 2) as [-> | H2].
  { left. reflexivity. }
  pose proof (prime_reaches_selection n Hn H2) as Hsel.
  pose proof (proj1 (reaches_selection_spec n) Hsel) as [H3 Hodd].
  destruct (halve_while_even_spec (n - 1) ltac:(lia)) as (Hdec & Hr & Hd & _).
  destruct (Z_lt_ge_dec n threshold) as [Hlt | Hge].
  - left. rewrite IsPrime_deterministic by assumption.
    destruct (halve_while_even (n - 1) 0) as [d r]. cbn [fst snd] in *. cbn zeta. cbn [fst].
    f_equal. apply passes_prime; auto; try lia.
    intros b Hin. apply filter_In in Hin. destruct Hin as [Hin Hlt'].
    apply Z.ltb_lt in Hlt'. cbn in Hin. lia.
  - rewrite IsPrime_randomized by (assumption || lia). unfold allocation.
    destruct (acceptable_error_probability (self w)) as [a | e].
    2:{ right. split; [lia |]. now exists e. }
    destruct (witness_count libm_log a) as [k | e].
    2:{ right. split; [lia |]. now exists e. }
    left. destruct (halve_while_even (n - 1) 0) as [d r]. cbn [fst snd] in *. cbn zeta. cbn [fst].
    f_equal. apply passes_prime; auto; try lia.
    intros b Hin. now apply (drawn_bases_range w n k).
Qed.

(** C3, as the code has it. For a prime [n] the single-witness test answers
    "not proven composite" for every base of [1 .. n-1] (with
    [n - 1 = 2^r * d]); hence [IsPrime n] never returns [False]: it returns
    [True] whatever the random source draws, unless [n >= 3215031751] and
    lines 55-59 raise, before any base is drawn. *)
Theorem prime_never_reported_composite (libm_log : float -> float) (n : Z) :
  Z.prime n ->
  (forall base d r, 1 <= base <= n - 1 -> 0 <= d -> 0 <= r -> n - 1 = 2 ^ r * d ->
     _IsDefinitelyComposite base n d r = false)
  /\ (forall w, fst (IsPrime libm_log n w) = Return true
              \/ (threshold <= n /\ exists e, allocation libm_log (self w) = Raise e
                                           /\ IsPrime libm_log n w = (Raise e, w))).
Proof.
  intros Hn. split.
  - intros base d r Hb Hd Hr Hdec. now apply IsDefinitelyComposite_prime.
  - intros w. now apply IsPrime_of_prime.
Qed.

Lemma prime_never_reported_composite_witness :
  (forall base d r, 1 <= base <= 17 - 1 -> 0 <= d -> 0 <= r ->
     17 - 1 = 2 ^ r * d -> _IsDefinitelyComposite base 17 d r = false)
  /\ (forall w, fst (IsPrime ref_log 17 w) = Return true
              \/ (threshold <= 17
                  /\ exists e, allocation ref_log (self w) = Raise e
                               /\ IsPrime ref_log 17 w = (Raise e, w))).
Proof.
  apply (prime_never_reported_composite ref_log 17).
  apply trial_division_spec. vm_compute. reflexivity.
Defined.

(** * A prime of the randomized regime: [3 * 2^30 + 1] *)

Lemma forallb_false {A} (f : A -> bool) l :
  forallb f l = false -> exists x, In x l /\ f x = false.
Proof.
  induction l as [| a l IH]; cbn [forallb]; [discriminate |].
  destruct (f a) eqn:E; cbn [andb].
  - intros H. destruct (IH H) as (x & Hin & Hx). exists x. split; [now right | exact Hx].
  - intros _. exists a. split; [now left | exact E].
Qed.

(** A number that is not prime has a prime divisor at most its square root. *)
Lemma small_prime_factor n :
  0 <= n -> 1 < n -> exists p, Z.prime p /\ (p | n) /\ (p = n \/ p * p <= n).
Proof.
  intros Hn. pattern n. apply Z_lt_induction; [| exact Hn]. clear n Hn.
  intros n IH Hn1.
  destruct (trial_division n) eqn:E.
  - exists n. split; [now apply trial_division_spec |]. split; [apply Z.divide_refl | now left].
  - unfold trial_division in E. apply andb_false_iff in E.
    destruct E as [E | E]; [apply Z.ltb_ge in E; lia |].
    apply forallb_false in E. destruct E as (k & Hin & Hk).
    apply in_map_iff in Hin. destruct Hin as (i & <- & Hi). apply in_seq in Hi.
    apply negb_false_iff, Z.eqb_eq in Hk.
    pose proof (Z.sqrt_spec n ltac:(lia)) as Hs. cbv zeta in Hs.
    pose proof (Z.sqrt_nonneg n) as Hs0.
    assert (Hk2 : Z.of_nat i * Z.of_nat i <= n) by nia.
    assert (Hdiv : (Z.of_nat i | n)) by (apply Z.mod_divide; lia).
    destruct (IH (Z.of_nat i) ltac:(nia) ltac:(lia)) as (p & Hp & Hpk & Hle).
    exists p. split; [exact Hp |]. split; [now apply Z.divide_trans with (Z.of_nat i) |].
    right. assert (1 < p) by (destruct Hp; lia).
    assert (p <= Z.of_nat i) by (destruct Hle as [-> | Hle]; nia).
    nia.
Qed.

(** An odd power of [-1] is [-1]. *)
Lemma pow_minus_one_odd p d :
  2 < p -> 0 <= d -> Z.odd d = true -> (p - 1) ^ d mod p = p - 1.
Proof.
  intros Hp Hd Hodd. rewrite (Zodd_div2 d) by (now rewrite Zodd_bool_iff in Hodd || (apply Zodd_bool_iff; exact Hodd)).
  set (e := Z.div2 d). assert (He : 0 <= e).
  { subst e. rewrite Z.div2_div. apply Z.div_pos; lia. }
  clearbody e. rewrite Z.pow_add_r, Z.pow_1_r, Z.pow_mul_r by lia.
  rewrite <- Zmult_mod_idemp_l, <- Z.mod_pow_l.
  replace ((p - 1) ^ 2 mod p) with 1.
  - rewrite Z.pow_1_l by lia. rewrite Z.mod_1_l by lia. rewrite Z.mul_1_l.
    apply Z.mod_small. lia.
  - replace ((p - 1) ^ 2) with (1 + (p - 2) * p) by ring.
    rewrite Z.mod_add by lia. symmetry. apply Z.mod_1_l. lia.
Qed.

(** When [b^(2^j)] is [-1] modulo an odd prime [p], [2^(j+1)] divides [p - 1]. *)
Lemma order_power_of_two p b j :
  Z.prime p -> 2 < p -> 0 <= j -> b ^ (2 ^ j) mod p = p - 1 -> (2 ^ (j + 1) | p - 1).
Proof.
  intros Hp Hp2 Hj Hb.
  assert (H2j : 0 < 2 ^ j) by (apply Z.pow_pos_nonneg; lia).
  assert (Hnd : ~ (p | b)).
  { intros Hd. apply Z.mod_divide in Hd; [| lia].
    rewrite <- Z.mod_pow_l, Hd, Z.pow_0_l, Z.mod_0_l in Hb by lia. lia. }
  pose proof (fermat_little p b Hp Hnd) as Hf.
  destruct (halve_while_even_spec (p - 1) ltac:(lia)) as (Hdec & Hr & Hd & Hodd).
  set (r := snd (halve_while_even (p - 1) 0)) in *.
  set (d := fst (halve_while_even (p - 1) 0)) in *. clearbody r d.
  destruct (Z_lt_le_dec j r) as [Hlt | Hle].
  - exists (2 ^ (r - (j + 1)) * d). rewrite Hdec.
    replace r with ((r - (j + 1)) + (j + 1)) at 1 by lia.
    rewrite Z.pow_add_r by lia. ring.
  - exfalso.
    assert (E1 : (b ^ (p - 1)) ^ (2 ^ (j - r)) mod p = 1).
    { rewrite <- Z.mod_pow_l, Hf, Z.pow_1_l by (apply Z.pow_nonneg; lia).
      apply Z.mod_1_l. lia. }
    assert (E2 : (b ^ (p - 1)) ^ (2 ^ (j - r)) mod p = p - 1).
    { rewrite <- Z.pow_mul_r by (try apply Z.pow_nonneg; lia).
      replace ((p - 1) * 2 ^ (j - r)) with (2 ^ j * d).
      - rewrite Z.pow_mul_r by lia. rewrite <- Z.mod_pow_l, Hb.
        apply pow_minus_one_odd; lia || assumption.
      - rewrite Hdec. replace j with (r + (j - r)) at 1 by lia.
        rewrite Z.pow_add_r by lia. ring. }
    lia.
Qed.

(** Proth's test: [h * 2^k + 1] with [h <= 2^k] is prime when some [a] has
    [a^((N-1)/2) = -1] modulo [N]. *)
Lemma proth N a h k :
  1 <= k -> 0 < h <= 2 ^ k -> N = h * 2 ^ k + 1 ->
  pow a (h * 2 ^ (k - 1)) N = N - 1 -> Z.prime N.
Proof.
  intros Hk Hh HN Hpow.
  assert (H2k : 0 < 2 ^ (k - 1)) by (apply Z.pow_pos_nonneg; lia).
  assert (E2k : 2 ^ k = 2 * 2 ^ (k - 1)).
  { replace k with (1 + (k - 1)) at 1 by lia. rewrite Z.pow_add_r by lia. reflexivity. }
  rewrite pow_spec in Hpow by nia.
  destruct (small_prime_factor N ltac:(nia) ltac:(nia)) as (p & Hp & Hdiv & [-> | Hle]);
    [exact Hp | exfalso].
  assert (Hp1 : 1 < p) by (destruct Hp; lia).
  assert (Hp2 : p <> 2).
  { intros ->. destruct Hdiv as [q Hq]. lia. }
  assert (Hb : (a ^ h) ^ (2 ^ (k - 1)) mod p = p - 1).
  { rewrite <- Z.pow_mul_r by lia.
    rewrite <- (Z.mod_mod_divide _ N p Hdiv), Hpow.
    destruct Hdiv as [q Hq]. rewrite Hq.
    replace (q * p - 1) with (p - 1 + (q - 1) * p) by ring.
    rewrite Z.mod_add by lia. apply Z.mod_small. lia. }
  destruct (order_power_of_two p (a ^ h) (k - 1) Hp ltac:(lia) ltac:(lia) Hb) as [t Ht].
  replace (k - 1 + 1) with k in Ht by lia.
  assert (0 < t) by nia.
  assert (2 ^ k + 1 <= p) by nia.
  nia.
Qed.

Lemma prime_3221225473 : Z.prime 3221225473.
Proof.
  apply (proth 3221225473 5 3 30); [lia | vm_compute; split; congruence | reflexivity |].
  vm_compute. reflexivity.
Qed.

(** C3 as stated fails when the budget is exhausted: on a checker constructed
    with the ceiling [0.0] the allowance is [0.0], and [IsPrime(3221225473)],
    a prime, raises [ValueError] instead of returning [True]. *)
Lemma prime_3221225473_raises_on_exhausted_budget :
  Z.prime 3221225473
  /\ IsPrime ref_log 3221225473 (fresh 0 (fun _ => 1))
     = (Raise ValueError, fresh 0 (fun _ => 1)).
Proof. split; [exact prime_3221225473 | vm_compute; reflexivity]. Qed.

(** * Reporting *)

Section Reporting.

Variable libm_log : float -> float.

(** What [IsPrime n] does to the world, by cases. *)
Lemma IsPrime_cases n w :
  let (o, w') := IsPrime libm_log n w in
  (reaches_selection n = false /\ o = Return (n =? 2) /\ w' = w)
  \/ (reaches_selection n = true /\ n < threshold /\ exists v,
        o = Return v /\ self w' = self w /\ reporters w' = reporters w
        /\ calls w' = v :: calls w)
  \/ (reaches_selection n = true /\ threshold <= n /\ exists e,
        allocation libm_log (self w) = Raise e /\ o = Raise e /\ w' = w)
  \/ (reaches_selection n = true /\ threshold <= n /\ exists a k v,
        acceptable_error_probability (self w) = Return a
        /\ witness_count libm_log a = Return k
        /\ o = Return v
        /\ self w' = (if v then charged (self w) a else self w)
        /\ reporters w' = reporters w ++ [true]
        /\ calls w' = v :: calls w).
Proof.
  destruct (reaches_selection n) eqn:Hsel.
  2:{ rewrite IsPrime_early by assumption. left. auto. }
  destruct (Z_lt_ge_dec n threshold) as [Hlt | Hge].
  - rewrite IsPrime_deterministic by assumption.
    destruct (halve_while_even (n - 1) 0) as [d r]. cbn zeta.
    right. left. split; [reflexivity |]. split; [assumption |].
    eexists. repeat (split; [reflexivity |]). reflexivity.
  - rewrite IsPrime_randomized by (assumption || lia). unfold allocation.
    destruct (acceptable_error_probability (self w)) as [a | e] eqn:Ea.
    2:{ right. right. left. split; [reflexivity |]. split; [lia |]. exists e. auto. }
    destruct (witness_count libm_log a) as [k | e] eqn:Ek.
    2:{ right. right. left. split; [reflexivity |]. split; [lia |]. exists e. auto. }
    destruct (halve_while_even (n - 1) 0) as [d r]. cbn zeta.
    right. right. right. split; [reflexivity |]. split; [lia |].
    exists a, k. eexists. split; [reflexivity |]. split; [exact Ek |].
    repeat (split; [reflexivity |]). reflexivity.
Qed.

End Reporting.

(** C5, as the code has it. A call that gets past the three early returns
    and completes applies its reporter exactly once, to its verdict, and the
    [Reporter] object it created (randomized regime) ends with [_reported]
    set, so the assertion of [__del__] holds. A call that returns early
    ([n == 2], [n <= 1], [n] even) applies no reporter at all, and neither
    does a call in which lines 55-59 raise: no reporter exists yet. *)
Theorem reporter_called_once_past_early_returns (libm_log : float -> float) (n : Z) (w : world) :
  let (o, w') := IsPrime libm_log n w in
  calls w' = match o with
             | Return v => if reaches_selection n then [v] else []
             | Raise _ => []
             end ++ calls w
  /\ (forallb id (reporters w) = true -> forallb id (reporters w') = true)
  /\ (length (reporters w') <= S (length (reporters w)))%nat.
Proof.
  pose proof (IsPrime_cases libm_log n w) as H.
  destruct (IsPrime libm_log n w) as [o w'].
  destruct H as [(Hs & -> & ->) | [(Hs & _ & v & -> & _ & Hr & Hc)
                | [(Hs & _ & e & _ & -> & ->) | (Hs & _ & a & k & v & _ & _ & -> & _ & Hr & Hc)]]].
  - rewrite Hs. cbn. auto.
  - rewrite Hs, Hr, Hc. cbn. auto.
  - cbn. auto.
  - rewrite Hs, Hr, Hc. cbn. rewrite forallb_app, length_app. cbn.
    repeat split; [| lia]. intros ->. reflexivity.
Qed.

(** C5 as stated fails: [IsPrime(2)] returns [True] without applying any reporter. *)
Lemma IsPrime_2_reports_nothing :
  let w := fresh default_max_cumulative_error_probability (fun _ => 0) in
  fst (IsPrime ref_log 2 w) = Return true
  /\ calls (snd (IsPrime ref_log 2 w)) = []
  /\ reporters (snd (IsPrime ref_log 2 w)) = [].
Proof. vm_compute. auto. Qed.

(** C6. A call in the deterministic regime, and any call that returns
    [False], leaves the three fields of the checker as they were; the
    opportunity count changes only in a randomized call that returns [True],
    where it grows by one. *)
Theorem only_randomized_prime_verdicts_change_checker
  (libm_log : float -> float) (n : Z) (w : world) :
  (n < threshold \/ fst (IsPrime libm_log n w) = Return false ->
     self (snd (IsPrime libm_log n w)) = self w)
  /\ (_error_opportunity_count (self (snd (IsPrime libm_log n w)))
       <> _error_opportunity_count (self w) ->
     threshold <= n /\ fst (IsPrime libm_log n w) = Return true
     /\ _error_opportunity_count (self (snd (IsPrime libm_log n w)))
        = _error_opportunity_count (self w) + 1).
Proof.
  pose proof (IsPrime_cases libm_log n w) as H.
  destruct (IsPrime libm_log n w) as [o w']. cbn [fst snd].
  destruct H as [(Hs & -> & ->) | [(Hs & Hlt & v & -> & Hself & _)
                | [(Hs & _ & e & _ & -> & ->) | (Hs & Hge & a & k & v & _ & _ & -> & Hself & _)]]].
  - split; [reflexivity | congruence].
  - rewrite Hself. split; [reflexivity | congruence].
  - split; [reflexivity | congruence].
  - rewrite Hself. destruct v; cbn [charged _error_opportunity_count].
    + split; [intros [Hlt | Hf]; [lia | discriminate] | auto].
    + split; [reflexivity | congruence].
Qed.

(** * The boundary between the two regimes *)



(** * An exhausted budget *)

Lemma SFleb_zero_not_positive x :
  SFleb x (S754_zero false) = true ->
  SFltb (S754_zero false) x = false /\ SFeqb x x = true.
Proof.
  destruct x as [s | s | | s m e]; cbn; try discriminate; destruct s; try discriminate; auto.
  intros _. split; [reflexivity |].
  unfold SFeqb, SFcompare. now rewrite Z.compare_refl, Pos.compare_cont_refl.
Qed.

Lemma m_log_nonpositive libm_log a :
  (a <=? 0)%float = true -> m_log libm_log a = Raise ValueError.
Proof.
  intros H. rewrite leb_spec in H. change (Prim2SF 0) with (S754_zero false) in H.
  apply SFleb_zero_not_positive in H. destruct H as [Hlt Heq].
  unfold m_log, positive_float, is_nan. rewrite ltb_spec, eqb_spec.
  change (Prim2SF 0) with (S754_zero false). rewrite Hlt, Heq. cbn [negb].
  now destruct (is_finite a).
Qed.

(** C8. When the allowance computed at lines 55-57 is not positive, a
    randomized call raises [ValueError] (the domain error of [math.log])
    before any witness count exists, and leaves the checker, the heap and
    the random source untouched. *)
Theorem exhausted_budget_raises (libm_log : float -> float) (n : Z) (w : world) (a : float) :
  reaches_selection n = true -> threshold <= n ->
  acceptable_error_probability (self w) = Return a ->
  (a <=? 0)%float = true ->
  witness_count libm_log a = Raise ValueError
  /\ IsPrime libm_log n w = (Raise ValueError, w).
Proof.
  intros Hsel Hge Ha Hle.
  assert (Hk : witness_count libm_log a = Raise ValueError).
  { unfold witness_count, math_log. now rewrite m_log_nonpositive. }
  split; [exact Hk |].
  rewrite IsPrime_randomized by assumption. now rewrite Ha, Hk.
Qed.

Lemma exhausted_budget_raises_witness :
  witness_count ref_log 0 = Raise ValueError
  /\ IsPrime ref_log 3215031751 (fresh 0 (fun _ => 1))
     = (Raise ValueError, fresh 0 (fun _ => 1)).
Proof.
  apply (exhausted_budget_raises ref_log 3215031751 (fresh 0 (fun _ => 1)) 0);
    vm_compute; (reflexivity || discriminate).
Defined.

(** * Binary64 arithmetic rounds to nearest

    The operations of [SpecFloat], which the primitive floats are specified
    by, compute on non-negative finite doubles the rounding [rnd] of the
    exact result. Values are counted in units of [2^-1074]. *)

(** ** Digits *)

Lemma digits2_pos_spec p :
  2 ^ (Z.pos (digits2_pos p) - 1) <= Z.pos p < 2 ^ Z.pos (digits2_pos p).
Proof.
  induction p as [p IH | p IH |]; cbn [digits2_pos].
  - rewrite Pos2Z.inj_succ. replace (Z.succ (Z.pos (digits2_pos p)) - 1) with (Z.succ (Z.pos (digits2_pos p) - 1)) by lia.
    rewrite !Z.pow_succ_r by lia. lia.
  - rewrite Pos2Z.inj_succ. replace (Z.succ (Z.pos (digits2_pos p)) - 1) with (Z.succ (Z.pos (digits2_pos p) - 1)) by lia.
    rewrite !Z.pow_succ_r by lia. lia.
  - cbn. lia.
Qed.

Lemma Zdigits2_spec z : 0 < z -> 2 ^ (Zdigits2 z - 1) <= z < 2 ^ Zdigits2 z.
Proof. destruct z as [| p | p]; try lia. intros _. apply digits2_pos_spec. Qed.

Lemma Zdigits2_nonneg z : 0 <= Zdigits2 z.
Proof. destruct z; cbn; lia. Qed.

Lemma Zdigits2_pos z : 0 < z -> 0 < Zdigits2 z.
Proof. destruct z; cbn; lia. Qed.

Lemma pow2_lt_inv a b : 0 <= b -> 2 ^ a < 2 ^ b -> a < b.
Proof.
  intros Hb H. destruct (Z_lt_ge_dec a b) as [|Hge]; [assumption |].
  assert (2 ^ b <= 2 ^ a) by (apply Z.pow_le_mono_r; lia). lia.
Qed.

Lemma Zdigits2_unique z d : 0 < z -> 2 ^ (d - 1) <= z < 2 ^ d -> Zdigits2 z = d.
Proof.
  intros Hz [H1 H2]. pose proof (Zdigits2_spec z Hz) as [H3 H4].
  pose proof (Zdigits2_pos z Hz).
  assert (0 < d).
  { destruct (Z_lt_ge_dec 0 d); [assumption |]. exfalso.
    destruct (Z.eq_dec d 0) as [-> | ]; [cbn in H2; lia |].
    rewrite (Z.pow_neg_r 2 d) in H2 by lia. lia. }
  assert (d - 1 < Zdigits2 z) by (apply pow2_lt_inv; lia).
  assert (Zdigits2 z - 1 < d) by (apply pow2_lt_inv; lia).
  lia.
Qed.

Lemma Zdigits2_le z d : 0 <= z -> 0 <= d -> z < 2 ^ d -> Zdigits2 z <= d.
Proof.
  intros Hz Hd H. destruct (Z.eq_dec z 0) as [-> | Hnz]; [cbn; lia |].
  pose proof (Zdigits2_spec z ltac:(lia)) as [H1 _].
  assert (Zdigits2 z - 1 < d) by (apply pow2_lt_inv; lia). lia.
Qed.

Lemma Zdigits2_ge z d : 2 ^ (d - 1) <= z -> 0 < d -> d <= Zdigits2 z.
Proof.
  intros H Hd. assert (0 < 2 ^ (d - 1)) by (apply Z.pow_pos_nonneg; lia).
  pose proof (Zdigits2_spec z ltac:(lia)) as [_ H2].
  pose proof (Zdigits2_pos z ltac:(lia)).
  assert (d - 1 < Zdigits2 z) by (apply pow2_lt_inv; lia). lia.
Qed.

Lemma Zdigits2_mono a b : 0 <= a <= b -> Zdigits2 a <= Zdigits2 b.
Proof.
  intros [Ha Hab]. destruct (Z.eq_dec a 0) as [-> | Hnz]; [apply Zdigits2_nonneg |].
  apply Zdigits2_ge; [| apply Zdigits2_pos; lia].
  pose proof (Zdigits2_spec a ltac:(lia)). lia.
Qed.

Lemma Zdigits2_mul_pow2 z k : 0 < z -> 0 <= k -> Zdigits2 (z * 2 ^ k) = Zdigits2 z + k.
Proof.
  intros Hz Hk. pose proof (Zdigits2_spec z Hz) as [H1 H2].
  pose proof (Zdigits2_pos z Hz).
  assert (0 < 2 ^ k) by (apply Z.pow_pos_nonneg; lia).
  apply Zdigits2_unique; [nia |].
  replace (Zdigits2 z + k - 1) with (Zdigits2 z - 1 + k) by lia.
  rewrite !Z.pow_add_r by lia. nia.
Qed.

Lemma Zdigits2_div_pow2 z k : 0 <= z -> 0 <= k -> Zdigits2 (z / 2 ^ k) = Z.max (Zdigits2 z - k) 0.
Proof.
  intros Hz Hk. assert (Hp : 0 < 2 ^ k) by (apply Z.pow_pos_nonneg; lia).
  destruct (Z.eq_dec z 0) as [-> | Hnz].
  { rewrite Z.div_0_l by lia. cbn. lia. }
  pose proof (Zdigits2_spec z ltac:(lia)) as [H1 H2].
  pose proof (Zdigits2_pos z ltac:(lia)).
  destruct (Z_le_gt_dec (Zdigits2 z) k) as [Hle | Hgt].
  - rewrite Z.div_small; [cbn; lia |]. split; [lia |].
    assert (2 ^ Zdigits2 z <= 2 ^ k) by (apply Z.pow_le_mono_r; lia). lia.
  - rewrite Z.max_l by lia.
    replace (Zdigits2 z) with (Zdigits2 z - k + k) in H2 by lia.
    replace (Zdigits2 z - 1) with (Zdigits2 z - k - 1 + k) in H1 by lia.
    rewrite Z.pow_add_r in H1, H2 by lia.
    assert (Hq1 : 2 ^ (Zdigits2 z - k - 1) <= z / 2 ^ k) by (apply Z.div_le_lower_bound; lia).
    assert (Hq2 : z / 2 ^ k < 2 ^ (Zdigits2 z - k)) by (apply Z.div_lt_upper_bound; lia).
    assert (0 < 2 ^ (Zdigits2 z - k - 1)) by (apply Z.pow_pos_nonneg; lia).
    apply Zdigits2_unique; lia.
Qed.

(** ** Rounding to the nearest integer *)

Lemma RNE_bounds N D : 0 < D -> N / D <= RNE N D <= N / D + 1.
Proof.
  intros HD. unfold RNE. destruct (2 * (N mod D) ?= D); [destruct (Z.even (N / D)) | |]; lia.
Qed.

Lemma RNE_exact z D : 0 < D -> RNE (z * D) D = z.
Proof.
  intros HD. unfold RNE. rewrite Z.mod_mul, Z.div_mul by lia.
  destruct (Z.compare_spec (2 * 0) D); lia.
Qed.

Lemma RNE_mono N1 D1 N2 D2 :
  0 < D1 -> 0 < D2 -> N1 * D2 <= N2 * D1 -> RNE N1 D1 <= RNE N2 D2.
Proof.
  intros H1 H2 Hle.
  pose proof (Z.div_mod N1 D1 ltac:(lia)) as E1.
  pose proof (Z.div_mod N2 D2 ltac:(lia)) as E2.
  pose proof (Z.mod_pos_bound N1 D1 H1) as B1.
  pose proof (Z.mod_pos_bound N2 D2 H2) as B2.
  pose proof (RNE_bounds N1 D1 H1) as R1. pose proof (RNE_bounds N2 D2 H2) as R2.
  set (q1 := N1 / D1) in *. set (q2 := N2 / D2) in *.
  set (r1 := N1 mod D1) in *. set (r2 := N2 mod D2) in *.
  assert (Hq : q1 <= q2).
  { destruct (Z_le_gt_dec q1 q2); [assumption | exfalso].
    assert (q2 + 1 <= q1) by lia.
    assert (N2 * D1 < (q2 + 1) * D2 * D1) by nia.
    assert ((q2 + 1) * D2 * D1 <= q1 * D1 * D2) by nia.
    nia. }
  destruct (Z.eq_dec q1 q2) as [Heq | Hne]; [| lia].
  assert (Hr : r1 * D2 <= r2 * D1) by nia.
  unfold RNE. fold q1 q2 r1 r2. rewrite <- Heq.
  destruct (Z.compare_spec (2 * r1) D1) as [Ea | Ea | Ea];
    destruct (Z.compare_spec (2 * r2) D2) as [Eb | Eb | Eb];
    destruct (Z.even q1); try lia; exfalso; nia.
Qed.

Lemma RNE_ratio N1 D1 N2 D2 :
  0 < D1 -> 0 < D2 -> N1 * D2 = N2 * D1 -> RNE N1 D1 = RNE N2 D2.
Proof.
  intros H1 H2 E. apply Z.le_antisymm; apply RNE_mono; lia.
Qed.

Lemma RNE_nonneg N D : 0 <= N -> 0 < D -> 0 <= RNE N D.
Proof.
  intros HN HD. pose proof (RNE_bounds N D HD). pose proof (Z.div_pos N D HN HD). lia.
Qed.

Lemma RNE_twice N D : 0 <= N -> 0 < D -> RNE N D * D <= 2 * N.
Proof.
  intros HN HD.
  pose proof (Z.div_mod N D ltac:(lia)) as E.
  pose proof (Z.mod_pos_bound N D HD) as B.
  pose proof (Z.div_pos N D HN HD) as Q.
  unfold RNE. destruct (Z.compare_spec (2 * (N mod D)) D); [destruct (Z.even (N / D)) | |]; nia.
Qed.
(** ** Rounding to 53 bits *)

Lemma rnd_nonneg N D : 0 <= N -> 0 < D -> 0 <= rnd N D.
Proof.
  intros HN HD. unfold rnd. cbv zeta.
  set (sh := Z.max _ 0). assert (0 < 2 ^ sh) by (apply Z.pow_pos_nonneg; lia).
  pose proof (RNE_nonneg N (D * 2 ^ sh) HN ltac:(nia)). nia.
Qed.

Lemma rnd_twice N D : 0 <= N -> 0 < D -> rnd N D * D <= 2 * N.
Proof.
  intros HN HD. unfold rnd. cbv zeta.
  set (sh := Z.max _ 0). assert (0 < 2 ^ sh) by (apply Z.pow_pos_nonneg; lia).
  pose proof (RNE_twice N (D * 2 ^ sh) HN ltac:(nia)). nia.
Qed.

Lemma rnd_exact m k D : 0 <= m < 2 ^ 53 -> 0 <= k -> 0 < D -> rnd (m * 2 ^ k * D) D = m * 2 ^ k.
Proof.
  intros Hm Hk HD. unfold rnd. cbv zeta. rewrite Z.div_mul by lia.
  destruct (Z.eq_dec m 0) as [-> | Hnz].
  { cbn [Z.mul Zdigits2 Z.sub Z.max Z.compare]. cbn. unfold RNE. rewrite Z.mod_0_l, Z.div_0_l by lia.
    destruct (Z.compare_spec (2 * 0) (D * 1)); cbn; lia. }
  rewrite Zdigits2_mul_pow2 by lia.
  assert (Hd : Zdigits2 m <= 53) by (apply Zdigits2_le; lia).
  set (sh := Z.max (Zdigits2 m + k - 53) 0).
  assert (Hsh : 0 <= sh <= k) by lia.
  assert (0 < 2 ^ sh) by (apply Z.pow_pos_nonneg; lia).
  replace (m * 2 ^ k * D) with (m * 2 ^ (k - sh) * (D * 2 ^ sh)).
  - rewrite RNE_exact by nia. rewrite <- Z.mul_assoc, <- Z.pow_add_r by lia. f_equal. f_equal. lia.
  - replace k with (k - sh + sh) at 2 by lia. rewrite Z.pow_add_r by lia. ring.
Qed.

Lemma rnd_mono N1 D1 N2 D2 :
  0 <= N1 -> 0 < D1 -> 0 < D2 -> N1 * D2 <= N2 * D1 -> rnd N1 D1 <= rnd N2 D2.
Proof.
  intros HN1 HD1 HD2 Hle.
  assert (HN2 : 0 <= N2) by nia.
  assert (Hf : N1 / D1 <= N2 / D2).
  { apply Z.div_le_lower_bound; [lia |].
    pose proof (Z.mul_div_le N1 D1 HD1).
    assert (D1 * (D2 * (N1 / D1)) <= D1 * N2) by nia.
    nia. }
  pose proof (Z.div_pos N1 D1 HN1 HD1) as Hf1.
  pose proof (Zdigits2_mono _ _ (conj Hf1 Hf)) as Hdg.
  unfold rnd. cbv zeta.
  set (f1 := N1 / D1) in *. set (f2 := N2 / D2) in *.
  set (sh1 := Z.max (Zdigits2 f1 - 53) 0). set (sh2 := Z.max (Zdigits2 f2 - 53) 0).
  assert (Hs1 : 0 <= sh1) by lia. assert (Hs2 : 0 <= sh2) by lia.
  assert (Hp1 : 0 < 2 ^ sh1) by (apply Z.pow_pos_nonneg; lia).
  assert (Hp2 : 0 < 2 ^ sh2) by (apply Z.pow_pos_nonneg; lia).
  destruct (Z.eq_dec sh1 sh2) as [E | NE].
  - rewrite <- E. apply Z.mul_le_mono_nonneg_r; [lia |].
    apply RNE_mono; nia.
  - assert (Hlt : sh1 < sh2) by lia.
    assert (Hsh2 : sh2 = Zdigits2 f2 - 53) by lia.
    (* the smaller one stays below 2^(53+sh1) *)
    assert (Hq1 : RNE N1 (D1 * 2 ^ sh1) <= 2 ^ 53).
    { pose proof (RNE_bounds N1 (D1 * 2 ^ sh1) ltac:(nia)) as [_ Hb].
      rewrite <- Z.div_div in Hb by lia. fold f1 in Hb.
      assert (Zdigits2 (f1 / 2 ^ sh1) <= 53) by (rewrite Zdigits2_div_pow2 by lia; lia).
      assert (f1 / 2 ^ sh1 < 2 ^ 53).
      { destruct (Z.eq_dec (f1 / 2 ^ sh1) 0) as [-> | Hnz]; [lia |].
        pose proof (Z.div_pos f1 (2 ^ sh1) Hf1 Hp1).
        pose proof (Zdigits2_spec (f1 / 2 ^ sh1) ltac:(lia)) as [_ Hu].
        assert (2 ^ Zdigits2 (f1 / 2 ^ sh1) <= 2 ^ 53) by (apply Z.pow_le_mono_r; lia). lia. }
      lia. }
    assert (Hq2 : 2 ^ 52 <= RNE N2 (D2 * 2 ^ sh2)).
    { pose proof (RNE_bounds N2 (D2 * 2 ^ sh2) ltac:(nia)) as [Hb _].
      rewrite <- Z.div_div in Hb by lia. fold f2 in Hb.
      assert (0 < f2).
      { destruct (Z.eq_dec f2 0) as [E0 | ]; [| lia]. rewrite E0 in Hsh2. cbn in Hsh2. lia. }
      pose proof (Zdigits2_spec f2 ltac:(lia)) as [Hl _].
      replace (Zdigits2 f2 - 1) with (52 + sh2) in Hl by lia.
      rewrite Z.pow_add_r in Hl by lia.
      assert (2 ^ 52 <= f2 / 2 ^ sh2) by (apply Z.div_le_lower_bound; lia).
      lia. }
    assert (2 ^ (53 + sh1) <= 2 ^ (52 + sh2)) by (apply Z.pow_le_mono_r; lia).
    rewrite !Z.pow_add_r in H by lia.
    assert (RNE N1 (D1 * 2 ^ sh1) * 2 ^ sh1 <= 2 ^ 53 * 2 ^ sh1) by (apply Z.mul_le_mono_nonneg_r; lia).
    assert (2 ^ 52 * 2 ^ sh2 <= RNE N2 (D2 * 2 ^ sh2) * 2 ^ sh2) by (apply Z.mul_le_mono_nonneg_r; lia).
    lia.
Qed.

(** ** The shifts of [SpecFloat] *)

Lemma shr_1_parts h b r s :
  0 <= h ->
  shr_1 {| shr_m := 2 * h + Z.b2z b; shr_r := r; shr_s := s |}
  = {| shr_m := h; shr_r := b; shr_s := r || s |}.
Proof. intros Hh. destruct h as [| p | p]; [| | lia]; destruct b; reflexivity. Qed.

Lemma shr_1_rec_of N D : 0 <= N -> 0 < D -> shr_1 (rec_of N D) = rec_of N (D * 2).
Proof.
  intros HN HD. unfold rec_of.
  rewrite <- Z.div_div, Z.rem_mul_r by lia.
  pose proof (Z.div_pos N D HN HD) as Hm.
  pose proof (Z.mod_pos_bound N D HD) as Hr.
  set (m := N / D) in *. set (r := N mod D) in *.
  rewrite (Z.div_mod m 2) at 1 by lia. rewrite Zmod_odd.
  replace (if Z.odd m then 1 else 0) with (Z.b2z (Z.odd m)) by now destruct (Z.odd m).
  rewrite shr_1_parts by (apply Z.div_pos; lia).
  destruct (Z.odd m); cbn [Z.b2z]; f_equal;
    repeat match goal with
           | |- context [?a <=? ?b] => destruct (Z.leb_spec a b)
           | |- context [?a =? ?b] => destruct (Z.eqb_spec a b)
           end; cbn [negb andb orb]; try reflexivity; lia.
Qed.

Lemma iter_pos_shr_1 p : forall N D, 0 <= N -> 0 < D ->
  iter_pos shr_1 p (rec_of N D) = rec_of N (D * 2 ^ Z.pos p).
Proof.
  induction p as [p IH | p IH |]; intros N D HN HD; cbn [iter_pos].
  - assert (0 < 2 ^ Z.pos p) by (apply Z.pow_pos_nonneg; lia).
    rewrite shr_1_rec_of, IH, IH by nia. f_equal.
    rewrite (Pos2Z.inj_xI p). replace (2 * Z.pos p + 1) with (Z.pos p + Z.pos p + 1) by lia.
    rewrite !Z.pow_add_r, Z.pow_1_r by lia. ring.
  - assert (0 < 2 ^ Z.pos p) by (apply Z.pow_pos_nonneg; lia).
    rewrite IH, IH by nia. f_equal.
    rewrite (Pos2Z.inj_xO p). replace (2 * Z.pos p) with (Z.pos p + Z.pos p) by lia.
    rewrite Z.pow_add_r by lia. ring.
  - rewrite shr_1_rec_of by lia. reflexivity.
Qed.

Lemma shr_rec_of N D e n : 0 <= N -> 0 < D ->
  shr (rec_of N D) e n = (rec_of N (D * 2 ^ Z.max n 0), e + Z.max n 0).
Proof.
  intros HN HD. destruct n as [| p | p]; cbn [shr].
  - rewrite Z.max_r by lia. now rewrite Z.pow_0_r, Z.mul_1_r, Z.add_0_r.
  - rewrite Z.max_l by lia. now rewrite iter_pos_shr_1.
  - rewrite Z.max_r by lia. now rewrite Z.pow_0_r, Z.mul_1_r, Z.add_0_r.
Qed.

Lemma round_rec_of N D : 0 < D ->
  round_nearest_even (shr_m (rec_of N D)) (loc_of_shr_record (rec_of N D)) = RNE N D.
Proof.
  intros HD. unfold rec_of, RNE. cbn [shr_m loc_of_shr_record].
  pose proof (Z.mod_pos_bound N D HD).
  destruct (Z.leb_spec D (2 * (N mod D))); destruct (Z.eqb_spec (N mod D) 0);
    destruct (Z.eqb_spec (2 * (N mod D)) D); cbn [negb andb round_nearest_even];
    destruct (Z.compare_spec (2 * (N mod D)) D); try lia; reflexivity.
Qed.
(** ** [binary_round_aux] rounds to nearest, ties to even *)

Lemma fexp_eq e : fexp prec emax e = Z.max (e - 53) (-1074).
Proof. reflexivity. Qed.

Lemma shr_record_of_loc_rec_of N D :
  shr_record_of_loc (N / D) (loc_of N D) = rec_of N D.
Proof.
  unfold loc_of, rec_of. cbn [loc_of_shr_record].
  destruct (D <=? 2 * (N mod D)); destruct (negb (N mod D =? 0) && negb (2 * (N mod D) =? D));
    reflexivity.
Qed.

Lemma rec_of_exact q : shr_record_of_loc q loc_Exact = rec_of q 1.
Proof.
  unfold rec_of. rewrite Z.div_1_r, Z.mod_1_r. reflexivity.
Qed.

Lemma valid_finite_iff m e :
  valid_binary (S754_finite false m e) = true <->
  Z.max (Z.pos (digits2_pos m) + e - 53) (-1074) = e /\ e <= 971.
Proof.
  cbn [SpecFloat.valid_binary]. unfold bounded, canonical_mantissa.
  rewrite andb_true_iff, Z.eqb_eq, Z.leb_le, fexp_eq. reflexivity.
Qed.

Lemma pack_spec q E :
  0 <= q <= 2 ^ 53 -> -1074 <= E -> (E = -1074 \/ 2 ^ 52 <= q) ->
  rounds_to (q * 2 ^ (E + 1074)) (pack q E).
Proof.
  intros Hq HE Hn. unfold pack, shr_fexp. rewrite rec_of_exact, shr_rec_of by lia.
  rewrite fexp_eq. cbn [shr_m rec_of].
  assert (Hpw : 0 < 2 ^ (E + 1074)) by (apply Z.pow_pos_nonneg; lia).
  destruct (Z.eq_dec q 0) as [-> | Hnz].
  { rewrite Z.div_0_l. 
    - apply rt_zero. lia.
    - assert (0 < 2 ^ Z.max (Z.max (Zdigits2 0 + E - 53) (-1074) - E) 0) by (apply Z.pow_pos_nonneg; lia). lia. }
  destruct (Z.eq_dec q (2 ^ 53)) as [-> | Hne].
  - replace (Zdigits2 (2 ^ 53)) with 54 by reflexivity.
    replace (Z.max (Z.max (54 + E - 53) (-1074) - E) 0) with 1 by lia.
    replace (2 ^ 53 / (1 * 2 ^ 1)) with (Z.pos (2 ^ 52)) by reflexivity.
    destruct (Z.leb_spec (E + 1) (emax - prec)) as [Hle | Hgt].
    + change (emax - prec) with 971 in Hle. apply rt_finite.
      * unfold OVF. split; [lia |].
        replace 2098 with (53 + 2045) by lia. rewrite (Z.pow_add_r 2 53 2045) by lia.
        apply Z.mul_lt_mono_pos_l; [lia |]. apply Z.pow_lt_mono_r; lia.
      * apply valid_finite_iff. replace (digits2_pos (2 ^ 52)) with 53%positive by reflexivity. lia.
      * replace (E + 1 + 1074) with (1 + (E + 1074)) by lia. rewrite (Z.pow_add_r 2 1) by lia.
        change (2 ^ 53) with (Z.pos (2 ^ 52) * 2 ^ 1). ring.
    + change (emax - prec) with 971 in Hgt. apply rt_infinity. unfold OVF.
      replace 2098 with (53 + 2045) by lia. rewrite (Z.pow_add_r 2 53 2045) by lia.
      apply Z.mul_le_mono_nonneg_l; [lia |]. apply Z.pow_le_mono_r; lia.
  - assert (Hq' : 0 < q < 2 ^ 53) by lia.
    assert (Hd : Zdigits2 q <= 53) by (apply Zdigits2_le; lia).
    replace (Z.max (Z.max (Zdigits2 q + E - 53) (-1074) - E) 0) with 0 by lia.
    rewrite Z.pow_0_r, Z.mul_1_r, Z.div_1_r, Z.add_0_r.
    destruct q as [| m | m]; try lia.
    assert (Hcan : Z.max (Z.pos (digits2_pos m) + E - 53) (-1074) = E).
    { destruct Hn as [-> | H52]; [cbn [Zdigits2] in Hd; lia |].
      assert (53 <= Zdigits2 (Z.pos m)) by (apply Zdigits2_ge; [exact H52 | lia]).
      cbn [Zdigits2] in *. lia. }
    destruct (Z.leb_spec E (emax - prec)) as [Hle | Hgt].
    + change (emax - prec) with 971 in Hle. apply rt_finite.
      * unfold OVF. split; [lia |].
        assert (Z.pos m * 2 ^ (E + 1074) < 2 ^ 53 * 2 ^ (E + 1074)) by (apply Z.mul_lt_mono_pos_r; lia).
        assert (2 ^ 53 * 2 ^ (E + 1074) <= 2 ^ 53 * 2 ^ 2045).
        { apply Z.mul_le_mono_nonneg_l; [lia |]. apply Z.pow_le_mono_r; lia. }
        replace 2098 with (53 + 2045) by lia. rewrite (Z.pow_add_r 2 53 2045) by lia. lia.
      * apply valid_finite_iff. lia.
      * reflexivity.
    + change (emax - prec) with 971 in Hgt. apply rt_infinity. unfold OVF.
      destruct Hn as [-> | H52]; [lia |].
      assert (2 ^ 52 * 2 ^ 2046 <= Z.pos m * 2 ^ (E + 1074)).
      { apply Z.mul_le_mono_nonneg; try lia. apply Z.pow_le_mono_r; lia. }
      replace 2098 with (52 + 2046) by lia. rewrite (Z.pow_add_r 2 52 2046) by lia. lia.
Qed.

Lemma binary_round_aux_eq N D ex :
  0 <= N -> 0 < D ->
  binary_round_aux prec emax false (N / D) ex (loc_of N D)
  = let n := Z.max (fexp prec emax (Zdigits2 (N / D) + ex) - ex) 0 in
    pack (RNE N (D * 2 ^ n)) (ex + n).
Proof.
  intros HN HD. unfold binary_round_aux, pack. cbv zeta.
  unfold shr_fexp at 1. rewrite shr_record_of_loc_rec_of, shr_rec_of by assumption.
  rewrite round_rec_of.
  - reflexivity.
  - assert (0 < 2 ^ Z.max (fexp prec emax (Zdigits2 (N / D) + ex) - ex) 0) by (apply Z.pow_pos_nonneg; lia).
    nia.
Qed.
Lemma div_ratio a b c d : 0 < b -> 0 < d -> a * d = c * b -> a / b = c / d.
Proof.
  intros Hb Hd E.
  pose proof (Z.div_mod a b ltac:(lia)) as Ea. pose proof (Z.mod_pos_bound a b Hb) as Ba.
  pose proof (Z.div_mod c d ltac:(lia)) as Ec. pose proof (Z.mod_pos_bound c d Hd) as Bc.
  set (q1 := a / b) in *. set (q2 := c / d) in *.
  destruct (Z_lt_ge_dec q1 q2); [exfalso | destruct (Z_lt_ge_dec q2 q1); [exfalso | lia]].
  - assert (q1 + 1 <= q2) by lia. assert (a * d < (q1 + 1) * b * d) by nia.
    assert ((q1 + 1) * b * d <= q2 * d * b) by nia. nia.
  - assert (q2 + 1 <= q1) by lia. assert (c * b < (q2 + 1) * d * b) by nia.
    assert ((q2 + 1) * d * b <= q1 * b * d) by nia. nia.
Qed.

Lemma Zdigits2_scaled_div N D k :
  0 < D -> 1 <= N / D -> 0 <= k -> Zdigits2 (N * 2 ^ k / D) = Zdigits2 (N / D) + k.
Proof.
  intros HD Hf Hk.
  pose proof (Z.div_mod N D ltac:(lia)) as E. pose proof (Z.mod_pos_bound N D HD) as B.
  pose proof (Zdigits2_spec (N / D) ltac:(lia)) as [H1 H2].
  pose proof (Zdigits2_pos (N / D) ltac:(lia)) as Hdp.
  set (f := N / D) in *. set (dg := Zdigits2 f) in *.
  assert (Hp : 0 < 2 ^ k) by (apply Z.pow_pos_nonneg; lia).
  assert (Hlo : f * 2 ^ k <= N * 2 ^ k / D) by (apply Z.div_le_lower_bound; nia).
  assert (Hhi : N * 2 ^ k / D < (f + 1) * 2 ^ k) by (apply Z.div_lt_upper_bound; nia).
  apply Zdigits2_unique; [nia |].
  replace (dg + k - 1) with (dg - 1 + k) by lia. rewrite !Z.pow_add_r by lia.
  split; nia.
Qed.

Lemma rnd_ratio N1 D1 N2 D2 :
  0 <= N1 -> 0 < D1 -> 0 < D2 -> N1 * D2 = N2 * D1 -> rnd N1 D1 = rnd N2 D2.
Proof.
  intros H1 H2 H3 E. assert (0 <= N2) by nia.
  apply Z.le_antisymm; apply rnd_mono; lia.
Qed.

Lemma rnd_zero D : 0 < D -> rnd 0 D = 0.
Proof.
  intros HD. unfold rnd. rewrite Z.div_0_l by lia. cbn [Zdigits2 Z.sub Z.max]. cbn.
  unfold RNE. rewrite Z.mod_0_l, Z.div_0_l by lia.
  destruct (Z.compare_spec (2 * 0) (D * 1)); cbn; lia.
Qed.

(** [binary_round_aux] on [N / D * 2^ex] gives the rounding of that number,
    written [Ns / Ds] in units of [2^-1074]. *)
Theorem binary_round_aux_rnd N D ex Ns Ds :
  0 <= N -> 0 < D -> 0 < Ds ->
  ex <= fexp prec emax (Zdigits2 (N / D) + ex) ->
  Ns * D * 2 ^ Z.max (- (ex + 1074)) 0 = N * 2 ^ Z.max (ex + 1074) 0 * Ds ->
  rounds_to (rnd Ns Ds) (binary_round_aux prec emax false (N / D) ex (loc_of N D)).
Proof.
  intros HN HD HDs HP Hs. rewrite binary_round_aux_eq by assumption. cbv zeta.
  rewrite fexp_eq in *.
  pose proof (Z.div_pos N D HN HD) as Hf.
  pose proof (Zdigits2_nonneg (N / D)) as Hdg.
  set (f := N / D) in *. set (dg := Zdigits2 f) in *.
  set (E := Z.max (dg + ex - 53) (-1074)) in *.
  assert (HEdef : E = Z.max (dg + ex - 53) (-1074)) by reflexivity.
  rewrite (Z.max_l (E - ex) 0) by lia.
  set (n := E - ex). assert (Hn : 0 <= n) by (unfold n; lia).
  replace (ex + n) with E by (unfold n; lia).
  assert (Hpn : 0 < 2 ^ n) by (apply Z.pow_pos_nonneg; lia).
  assert (HNs : 0 <= Ns).
  { assert (0 < 2 ^ Z.max (- (ex + 1074)) 0) by (apply Z.pow_pos_nonneg; lia).
    assert (0 <= 2 ^ Z.max (ex + 1074) 0) by (apply Z.pow_nonneg; lia).
    assert (0 <= N * 2 ^ Z.max (ex + 1074) 0 * Ds) by nia. nia. }
  (* the shift of [rnd] is the one of the algorithm *)
  assert (Hsh : Z.max (Zdigits2 (Ns / Ds) - 53) 0 = E + 1074).
  { destruct (Z_le_gt_dec 0 (ex + 1074)) as [Hk | Hk].
    - rewrite (Z.max_r (- (ex + 1074)) 0), (Z.max_l (ex + 1074) 0) in Hs by lia.
      rewrite Z.pow_0_r, Z.mul_1_r in Hs.
      rewrite (div_ratio Ns Ds (N * 2 ^ (ex + 1074)) D) by lia.
      destruct (Z.eq_dec f 0) as [Hf0 | Hf0].
      + assert (Hdg0 : dg = 0) by (unfold dg; rewrite Hf0; reflexivity).
        assert (Hex : ex + 1074 = 0) by lia. rewrite Hex, Z.pow_0_r, Z.mul_1_r. fold f. rewrite Hf0.
        cbn [Zdigits2]. lia.
      + rewrite Zdigits2_scaled_div by (fold f; lia). fold f dg. unfold E. lia.
    - rewrite (Z.max_l (- (ex + 1074)) 0), (Z.max_r (ex + 1074) 0) in Hs by lia.
      rewrite Z.pow_0_r, Z.mul_1_r in Hs.
      assert (0 < 2 ^ (- (ex + 1074))) by (apply Z.pow_pos_nonneg; lia).
      rewrite (div_ratio Ns Ds N (D * 2 ^ (- (ex + 1074)))) by nia.
      rewrite <- Z.div_div by lia. fold f.
      rewrite Zdigits2_div_pow2 by lia. fold dg. unfold E. lia. }
  unfold rnd. cbv zeta. rewrite Hsh.
  assert (HE : -1074 <= E) by (unfold E; lia).
  assert (HpE : 0 < 2 ^ (E + 1074)) by (apply Z.pow_pos_nonneg; lia).
  assert (Hcross : Ns * (D * 2 ^ n) = N * (Ds * 2 ^ (E + 1074))).
  { destruct (Z_le_gt_dec 0 (ex + 1074)) as [Hk | Hk].
    - rewrite (Z.max_r (- (ex + 1074)) 0), (Z.max_l (ex + 1074) 0) in Hs by lia.
      rewrite Z.pow_0_r, Z.mul_1_r in Hs.
      replace (E + 1074) with (ex + 1074 + n) by (unfold n; lia).
      rewrite Z.pow_add_r by lia. nia.
    - rewrite (Z.max_l (- (ex + 1074)) 0), (Z.max_r (ex + 1074) 0) in Hs by lia.
      rewrite Z.pow_0_r, Z.mul_1_r in Hs.
      replace n with (- (ex + 1074) + (E + 1074)) by (unfold n; lia).
      rewrite Z.pow_add_r by lia. nia. }
  rewrite (RNE_ratio Ns (Ds * 2 ^ (E + 1074)) N (D * 2 ^ n)) by nia.
  apply pack_spec.
  - split; [apply RNE_nonneg; nia |].
    pose proof (RNE_bounds N (D * 2 ^ n) ltac:(nia)) as [_ Hb].
    rewrite <- Z.div_div in Hb by lia. fold f in Hb.
    assert (Zdigits2 (f / 2 ^ n) <= 53) by (rewrite Zdigits2_div_pow2 by lia; fold dg; unfold n, E; lia).
    assert (f / 2 ^ n < 2 ^ 53).
    { pose proof (Z.div_pos f (2 ^ n) Hf Hpn).
      destruct (Z.eq_dec (f / 2 ^ n) 0) as [-> | Hnz]; [lia |].
      pose proof (Zdigits2_spec (f / 2 ^ n) ltac:(lia)) as [_ Hu].
      assert (2 ^ Zdigits2 (f / 2 ^ n) <= 2 ^ 53) by (apply Z.pow_le_mono_r; lia). lia. }
    lia.
  - exact HE.
  - destruct (Z.eq_dec E (-1074)) as [HE0 | HE0]; [now left | right].
    assert (HEd : E = dg + ex - 53) by (unfold E in *; lia).
    pose proof (RNE_bounds N (D * 2 ^ n) ltac:(nia)) as [Hb _].
    rewrite <- Z.div_div in Hb by lia. fold f in Hb.
    assert (Hdn : dg = 53 + n) by (unfold n; lia).
    assert (0 < f).
    { destruct (Z.eq_dec f 0) as [Hf0 | ]; [| lia].
      assert (dg = 0) by (unfold dg; rewrite Hf0; reflexivity). lia. }
    pose proof (Zdigits2_spec f ltac:(lia)) as [Hl _]. fold dg in Hl.
    replace (dg - 1) with (52 + n) in Hl by lia. rewrite Z.pow_add_r in Hl by lia.
    assert (2 ^ 52 <= f / 2 ^ n) by (apply Z.div_le_lower_bound; lia).
    lia.
Qed.
(** ** The operations on non-negative finite floats *)

Lemma Pos_iter_xO m d : Z.pos (Pos.iter xO m d) = Z.pos m * 2 ^ Z.pos d.
Proof.
  induction d as [| d IH] using Pos.peano_ind.
  - cbn. lia.
  - rewrite Pos.iter_succ, Pos2Z.inj_xO, IH, Pos2Z.inj_succ, Z.pow_succ_r by lia. ring.
Qed.

Lemma shl_align_spec mx ex e' :
  snd (shl_align mx ex e') = Z.min ex e'
  /\ Z.pos (fst (shl_align mx ex e')) = Z.pos mx * 2 ^ (ex - Z.min ex e').
Proof.
  unfold shl_align. destruct (e' - ex) as [| d | d] eqn:E; cbn [fst snd].
  - rewrite Z.min_l by lia. rewrite Z.sub_diag. lia.
  - rewrite Z.min_l by lia. rewrite Z.sub_diag. lia.
  - rewrite Z.min_r by lia. split; [reflexivity |].
    rewrite Pos_iter_xO. f_equal. f_equal. lia.
Qed.

Lemma loc_of_1 N : loc_of N 1 = loc_Exact.
Proof. unfold loc_of, rec_of. rewrite Z.mod_1_r. reflexivity. Qed.

Lemma valid_finite_bounds s m e :
  valid_binary (S754_finite s m e) = true ->
  -1074 <= e <= 971 /\ Z.pos m < 2 ^ 53 /\ (e = -1074 \/ 2 ^ 52 <= Z.pos m).
Proof.
  intros H. assert (H' : valid_binary (S754_finite false m e) = true) by exact H.
  apply valid_finite_iff in H'. destruct H' as [Hc He].
  pose proof (digits2_pos_spec m) as [Hl Hu].
  split; [lia |]. split.
  - assert (2 ^ Z.pos (digits2_pos m) <= 2 ^ 53) by (apply Z.pow_le_mono_r; lia). lia.
  - destruct (Z.eq_dec e (-1074)); [now left | right].
    assert (Hd : Z.pos (digits2_pos m) = 53) by lia.
    rewrite Hd in Hl. exact Hl.
Qed.

Lemma valid_scaled_lt_OVF m e :
  valid_binary (S754_finite false m e) = true -> 0 < Z.pos m * 2 ^ (e + 1074) < OVF.
Proof.
  intros H. apply valid_finite_bounds in H. destruct H as (He & Hm & _).
  assert (0 < 2 ^ (e + 1074)) by (apply Z.pow_pos_nonneg; lia).
  split; [lia |]. unfold OVF.
  assert (Z.pos m * 2 ^ (e + 1074) < 2 ^ 53 * 2 ^ (e + 1074)) by (apply Z.mul_lt_mono_pos_r; lia).
  assert (2 ^ 53 * 2 ^ (e + 1074) <= 2 ^ 53 * 2 ^ 2045).
  { apply Z.mul_le_mono_nonneg_l; [lia |]. apply Z.pow_le_mono_r; lia. }
  replace 2098 with (53 + 2045) by lia. rewrite (Z.pow_add_r 2 53 2045) by lia. lia.
Qed.

Lemma rounds_to_self x :
  valid_binary x = true -> nonneg_finite x = true -> rounds_to (SFscaled x) x.
Proof.
  destruct x as [s | s | | s m e]; cbn [nonneg_finite]; try discriminate.
  - intros _ _. now apply rt_zero.
  - destruct s; [discriminate |]. intros Hv _. cbn [SFscaled cond_Zopp].
    apply rt_finite; [now apply valid_scaled_lt_OVF | exact Hv | reflexivity].
Qed.

Lemma rnd_self x :
  valid_binary x = true -> nonneg_finite x = true -> rnd (SFscaled x) 1 = SFscaled x.
Proof.
  destruct x as [s | s | | s m e]; cbn [nonneg_finite SFscaled]; try discriminate.
  - intros _ _. now apply rnd_zero.
  - destruct s; [discriminate |]. intros Hv _. cbn [cond_Zopp].
    apply valid_finite_bounds in Hv. destruct Hv as (He & Hm & _).
    rewrite <- (Z.mul_1_r (Z.pos m * 2 ^ (e + 1074))) at 1. apply rnd_exact; lia.
Qed.

Lemma SFscaled_nonneg x : nonneg_finite x = true -> 0 <= SFscaled x.
Proof.
  destruct x as [s | s | | s m e]; cbn [nonneg_finite SFscaled]; try discriminate; try lia.
  destruct s; [discriminate |]. intros _. cbn [cond_Zopp].
  assert (0 <= 2 ^ (e + 1074)) by (apply Z.pow_nonneg; lia). lia.
Qed.

Theorem binary_normalize_rnd z e :
  0 <= z -> -1074 <= e ->
  rounds_to (rnd (z * 2 ^ (e + 1074)) 1) (binary_normalize prec emax z e false).
Proof.
  intros Hz He. destruct z as [| m | m]; [| | lia]; cbn [binary_normalize].
  { rewrite Z.mul_0_l, rnd_zero by lia. now apply rt_zero. }
  unfold binary_round.
  pose proof (shl_align_spec m e (fexp prec emax (Z.pos (digits2_pos m) + e))) as [Hs Hm].
  destruct (shl_align m e (fexp prec emax (Z.pos (digits2_pos m) + e))) as [mz ez].
  cbn [fst snd] in Hs, Hm. rewrite fexp_eq in Hs, Hm. rewrite <- Hs in Hm.
  rewrite <- (loc_of_1 (Z.pos mz)). rewrite <- (Z.div_1_r (Z.pos mz)) at 1.
  assert (Hez : -1074 <= ez <= e) by lia.
  assert (Hp : 0 < 2 ^ (e - ez)) by (apply Z.pow_pos_nonneg; lia).
  apply binary_round_aux_rnd; try lia.
  - rewrite Z.div_1_r, fexp_eq. rewrite Hm.
    rewrite Zdigits2_mul_pow2 by lia. cbn [Zdigits2]. lia.
  - rewrite (Z.max_r (- (ez + 1074)) 0), (Z.max_l (ez + 1074) 0) by lia.
    rewrite Hm, Z.pow_0_r. replace (e + 1074) with (e - ez + (ez + 1074)) by lia.
    rewrite Z.pow_add_r by lia. ring.
Qed.

Theorem SFadd_rnd x y :
  valid_binary x = true -> valid_binary y = true ->
  nonneg_finite x = true -> nonneg_finite y = true ->
  rounds_to (rnd (SFscaled x + SFscaled y) 1) (SFadd prec emax x y).
Proof.
  intros Hvx Hvy Hx Hy.
  destruct x as [sx | sx | | sx mx ex]; try discriminate;
    destruct y as [sy | sy | | sy my ey]; try discriminate.
  - cbn [SFscaled Z.add]. rewrite rnd_zero by lia.
    cbn [SFadd]. destruct sx, sy; now apply rt_zero.
  - cbn [SFadd]. change (SFscaled (S754_zero sx)) with 0. rewrite Z.add_0_l.
    rewrite rnd_self by assumption. now apply rounds_to_self.
  - cbn [SFadd]. change (SFscaled (S754_zero sy)) with 0. rewrite Z.add_0_r.
    rewrite rnd_self by assumption. now apply rounds_to_self.
  - destruct sx; [discriminate |]. destruct sy; [discriminate |].
    cbn [SFadd cond_Zopp SFscaled].
    pose proof (valid_finite_bounds _ _ _ Hvx) as (Hex & _).
    pose proof (valid_finite_bounds _ _ _ Hvy) as (Hey & _).
    pose proof (shl_align_spec mx ex (Z.min ex ey)) as [_ Hmx].
    pose proof (shl_align_spec my ey (Z.min ex ey)) as [_ Hmy].
    rewrite Hmx, Hmy.
    rewrite (Z.min_r ex (Z.min ex ey)), (Z.min_r ey (Z.min ex ey)) by lia.
    set (ez := Z.min ex ey). assert (Hez : -1074 <= ez /\ ez <= ex /\ ez <= ey) by (unfold ez; lia).
    replace (Z.pos mx * 2 ^ (ex + 1074) + Z.pos my * 2 ^ (ey + 1074))
      with ((Z.pos mx * 2 ^ (ex - ez) + Z.pos my * 2 ^ (ey - ez)) * 2 ^ (ez + 1074)).
    + apply binary_normalize_rnd; [| lia].
      assert (0 <= 2 ^ (ex - ez)) by (apply Z.pow_nonneg; lia).
      assert (0 <= 2 ^ (ey - ez)) by (apply Z.pow_nonneg; lia). nia.
    + replace (ex + 1074) with (ex - ez + (ez + 1074)) by lia.
      replace (ey + 1074) with (ey - ez + (ez + 1074)) by lia.
      rewrite (Z.pow_add_r 2 (ex - ez) (ez + 1074)), (Z.pow_add_r 2 (ey - ez) (ez + 1074)) by lia.
      ring.
Qed.

Theorem SFsub_rnd x y :
  valid_binary x = true -> valid_binary y = true ->
  nonneg_finite x = true -> nonneg_finite y = true ->
  SFscaled y <= SFscaled x ->
  rounds_to (rnd (SFscaled x - SFscaled y) 1) (SFsub prec emax x y).
Proof.
  intros Hvx Hvy Hx Hy Hle.
  destruct x as [sx | sx | | sx mx ex]; try discriminate;
    destruct y as [sy | sy | | sy my ey]; try discriminate.
  - cbn [SFscaled Z.sub Z.add Z.opp]. rewrite rnd_zero by lia.
    cbn [SFsub]. destruct sx, sy; now apply rt_zero.
  - exfalso. destruct sy; [discriminate |].
    pose proof (valid_scaled_lt_OVF _ _ Hvy). cbn [SFscaled cond_Zopp] in Hle. lia.
  - cbn [SFsub]. change (SFscaled (S754_zero sy)) with 0. rewrite Z.sub_0_r.
    rewrite rnd_self by assumption. now apply rounds_to_self.
  - destruct sx; [discriminate |]. destruct sy; [discriminate |].
    cbn [SFsub cond_Zopp SFscaled] in *.
    pose proof (valid_finite_bounds _ _ _ Hvx) as (Hex & _).
    pose proof (valid_finite_bounds _ _ _ Hvy) as (Hey & _).
    pose proof (shl_align_spec mx ex (Z.min ex ey)) as [_ Hmx].
    pose proof (shl_align_spec my ey (Z.min ex ey)) as [_ Hmy].
    rewrite Hmx, Hmy.
    rewrite (Z.min_r ex (Z.min ex ey)), (Z.min_r ey (Z.min ex ey)) by lia.
    set (ez := Z.min ex ey) in *.
    assert (Hez : -1074 <= ez /\ ez <= ex /\ ez <= ey) by (unfold ez; lia).
    assert (Hp : 0 < 2 ^ (ez + 1074)) by (apply Z.pow_pos_nonneg; lia).
    assert (Heq : forall a b, a * 2 ^ (ex + 1074) - b * 2 ^ (ey + 1074)
                  = (a * 2 ^ (ex - ez) - b * 2 ^ (ey - ez)) * 2 ^ (ez + 1074)).
    { intros a b. replace (ex + 1074) with (ex - ez + (ez + 1074)) by lia.
      replace (ey + 1074) with (ey - ez + (ez + 1074)) by lia.
      rewrite (Z.pow_add_r 2 (ex - ez) (ez + 1074)), (Z.pow_add_r 2 (ey - ez) (ez + 1074)) by lia.
      ring. }
    rewrite Heq. apply binary_normalize_rnd; [| lia].
    rewrite <- Z.le_sub_0 in Hle |- *. 
    replace (Z.pos my * 2 ^ (ey + 1074) - Z.pos mx * 2 ^ (ex + 1074))
      with (- (Z.pos mx * 2 ^ (ex + 1074) - Z.pos my * 2 ^ (ey + 1074))) in Hle by ring.
    rewrite Heq in Hle. nia.
Qed.
Lemma new_location_loc_of N D : 0 < D -> new_location D (N mod D) = loc_of N D.
Proof.
  intros HD. pose proof (Z.mod_pos_bound N D HD) as Hr.
  unfold new_location, new_location_even, new_location_odd, loc_of, rec_of.
  cbn [loc_of_shr_record]. set (r := N mod D) in *. clearbody r.
  rewrite Zeven_mod.
  pose proof (Z.div_mod D 2 ltac:(lia)) as Hpar. pose proof (Z.mod_pos_bound D 2 ltac:(lia)) as Hpb.
  destruct (Z.eqb_spec (D mod 2) 0) as [He | Ho];
    destruct (Z.eqb_spec r 0) as [Hr0 | Hr0];
    destruct (Z.leb_spec D (2 * r)); destruct (Z.eqb_spec (2 * r) D);
    cbn [negb andb]; try reflexivity; try (exfalso; lia);
    try (destruct (Z.compare_spec (2 * r) D); try reflexivity; exfalso; lia);
    try (destruct (Z.compare_spec (2 * r + 1) D); try reflexivity; exfalso; lia).
Qed.

Lemma SFdiv_core_binary_eq mx ex my ey :
  let e' := Z.min (fexp prec emax (Zdigits2 (Z.pos mx) + ex - (Zdigits2 (Z.pos my) + ey))) (ex - ey) in
  let N := Z.pos mx * 2 ^ (ex - ey - e') in
  SFdiv_core_binary prec emax (Z.pos mx) ex (Z.pos my) ey = (N / Z.pos my, e', loc_of N (Z.pos my)).
Proof.
  cbv zeta. unfold SFdiv_core_binary.
  set (e' := Z.min (fexp prec emax (Zdigits2 (Z.pos mx) + ex - (Zdigits2 (Z.pos my) + ey))) (ex - ey)).
  assert (Hs : 0 <= ex - ey - e') by (unfold e'; lia).
  assert (Hm : match ex - ey - e' with
               | 0 => Z.pos mx
               | Z.pos _ => Z.shiftl (Z.pos mx) (ex - ey - e')
               | Z.neg _ => 0
               end = Z.pos mx * 2 ^ (ex - ey - e')).
  { destruct (ex - ey - e') as [| p | p] eqn:E; [| | lia].
    - rewrite Z.pow_0_r. lia.
    - now rewrite Z.shiftl_mul_pow2 by lia. }
  rewrite Hm. set (N := Z.pos mx * 2 ^ (ex - ey - e')).
  rewrite <- (new_location_loc_of N (Z.pos my)) by lia.
  unfold Z.div, Z.modulo. destruct (Z.div_eucl N (Z.pos my)) as [q r]. reflexivity.
Qed.

Theorem SFdiv_rnd x my ey :
  valid_binary x = true -> valid_binary (S754_finite false my ey) = true ->
  nonneg_finite x = true ->
  rounds_to (rnd (SFscaled x * 2 ^ 1074) (SFscaled (S754_finite false my ey)))
            (SFdiv prec emax x (S754_finite false my ey)).
Proof.
  intros Hvx Hvy Hx.
  pose proof (valid_scaled_lt_OVF _ _ Hvy) as [HY _].
  pose proof (valid_finite_bounds _ _ _ Hvy) as (Hey & _).
  cbn [SFscaled cond_Zopp].
  destruct x as [sx | sx | | sx mx ex]; try discriminate.
  - change (SFscaled (S754_zero sx)) with 0. rewrite Z.mul_0_l, rnd_zero by exact HY.
    cbn [SFdiv]. now apply rt_zero.
  - destruct sx; [discriminate |]. cbn [SFscaled cond_Zopp].
    pose proof (valid_finite_bounds _ _ _ Hvx) as (Hex & _).
    unfold SFdiv. rewrite SFdiv_core_binary_eq. cbn [xorb].
    set (d1 := Zdigits2 (Z.pos mx)). set (d2 := Zdigits2 (Z.pos my)).
    set (e' := Z.min (fexp prec emax (d1 + ex - (d2 + ey))) (ex - ey)).
    assert (He' : e' = Z.min (Z.max (d1 + ex - (d2 + ey) - 53) (-1074)) (ex - ey)) by reflexivity.
    set (s := ex - ey - e'). assert (Hs : 0 <= s) by (unfold s; lia).
    assert (Hps : 0 < 2 ^ s) by (apply Z.pow_pos_nonneg; lia).
    set (N := Z.pos mx * 2 ^ s).
    apply binary_round_aux_rnd; try lia.
    + (* enough digits in the quotient *)
      rewrite fexp_eq.
      assert (Hdig : d1 - d2 + s <= Zdigits2 (N / Z.pos my)).
      { destruct (Z_le_gt_dec (d1 - d2 + s) 0) as [Hle | Hgt].
        - pose proof (Zdigits2_nonneg (N / Z.pos my)). lia.
        - apply Zdigits2_ge; [| lia].
          pose proof (Zdigits2_spec (Z.pos mx) ltac:(lia)) as [Hl1 _].
          pose proof (Zdigits2_spec (Z.pos my) ltac:(lia)) as [_ Hu2].
          fold d1 in Hl1. fold d2 in Hu2.
          assert (0 < d1) by (apply Zdigits2_pos; lia).
          assert (0 < d2) by (apply Zdigits2_pos; lia).
          apply Z.div_le_lower_bound; [lia |].
          assert (Hpw : 2 ^ (d1 - 1) * 2 ^ s = 2 ^ d2 * 2 ^ (d1 - d2 + s - 1)).
          { rewrite <- !Z.pow_add_r by lia. f_equal. lia. }
          assert (0 < 2 ^ (d1 - d2 + s - 1)) by (apply Z.pow_pos_nonneg; lia).
          unfold N. nia. }
      lia.
    + (* the same rational in units of 2^-1074 *)
      destruct (Z_le_gt_dec 0 (e' + 1074)) as [Hk | Hk].
      * rewrite (Z.max_r (- (e' + 1074)) 0), (Z.max_l (e' + 1074) 0) by lia.
        rewrite Z.pow_0_r.
        assert (Hpow : 2 ^ (ex + 1074) * 2 ^ 1074 = 2 ^ s * 2 ^ (e' + 1074) * 2 ^ (ey + 1074)).
        { rewrite <- !Z.pow_add_r by lia. f_equal. unfold s. lia. }
        unfold N. transitivity (Z.pos mx * Z.pos my * (2 ^ (ex + 1074) * 2 ^ 1074)); [ring |].
        rewrite Hpow. ring.
      * rewrite (Z.max_l (- (e' + 1074)) 0), (Z.max_r (e' + 1074) 0) by lia.
        rewrite Z.pow_0_r.
        assert (Hpow : 2 ^ (ex + 1074) * 2 ^ 1074 * 2 ^ (- (e' + 1074)) = 2 ^ s * 2 ^ (ey + 1074)).
        { rewrite <- !Z.pow_add_r by lia. f_equal. unfold s. lia. }
        unfold N.
        transitivity (Z.pos mx * Z.pos my * (2 ^ (ex + 1074) * 2 ^ 1074 * 2 ^ (- (e' + 1074)))); [ring |].
        rewrite Hpow. ring.
Qed.

(** ** Comparisons *)

Lemma valid_lt_by_exponent m1 e1 m2 e2 :
  valid_binary (S754_finite false m1 e1) = true ->
  valid_binary (S754_finite false m2 e2) = true ->
  e1 < e2 -> Z.pos m1 * 2 ^ (e1 + 1074) < Z.pos m2 * 2 ^ (e2 + 1074).
Proof.
  intros H1 H2 Hlt.
  apply valid_finite_bounds in H1, H2.
  destruct H1 as (He1 & Hm1 & _). destruct H2 as (He2 & _ & Hn2).
  destruct Hn2 as [-> | Hn2]; [lia |].
  assert (0 < 2 ^ (e1 + 1074)) by (apply Z.pow_pos_nonneg; lia).
  assert (2 ^ (e1 + 1074 + 1) <= 2 ^ (e2 + 1074)) by (apply Z.pow_le_mono_r; lia).
  rewrite Z.pow_add_r, Z.pow_1_r in H0 by lia.
  assert (Z.pos m1 * 2 ^ (e1 + 1074) < 2 ^ 53 * 2 ^ (e1 + 1074)) by (apply Z.mul_lt_mono_pos_r; lia).
  assert (2 ^ 52 * 2 ^ (e2 + 1074) <= Z.pos m2 * 2 ^ (e2 + 1074)) by (apply Z.mul_le_mono_nonneg_r; lia).
  change (2 ^ 53) with (2 ^ 52 * 2) in H1. nia.
Qed.

Lemma SFcompare_scaled x y :
  valid_binary x = true -> valid_binary y = true ->
  nonneg_finite x = true -> nonneg_finite y = true ->
  SFcompare x y = Some (SFscaled x ?= SFscaled y).
Proof.
  intros Hvx Hvy Hx Hy.
  destruct x as [sx | sx | | sx mx ex]; try discriminate;
    destruct y as [sy | sy | | sy my ey]; try discriminate;
    try (destruct sx; [discriminate |]); try (destruct sy; [discriminate |]);
    cbn [SFcompare SFscaled cond_Zopp].
  - reflexivity.
  - pose proof (valid_scaled_lt_OVF _ _ Hvy) as [H _]. f_equal. symmetry. now apply Z.compare_lt_iff.
  - pose proof (valid_scaled_lt_OVF _ _ Hvx) as [H _]. f_equal. symmetry. now apply Z.compare_gt_iff.
  - f_equal. destruct (Z.compare_spec ex ey) as [E | E | E].
    + subst ey. pose proof (valid_finite_bounds _ _ _ Hvx) as (Hex & _).
      assert (0 < 2 ^ (ex + 1074)) by (apply Z.pow_pos_nonneg; lia).
      change (Pos.compare_cont Eq mx my) with (Z.pos mx ?= Z.pos my).
      destruct (Z.compare_spec (Z.pos mx) (Z.pos my)) as [E | E | E]; symmetry.
      * rewrite E. apply Z.compare_refl.
      * apply Z.compare_lt_iff. nia.
      * apply Z.compare_gt_iff. nia.
    + symmetry. apply Z.compare_lt_iff. now apply valid_lt_by_exponent.
    + symmetry. apply Z.compare_gt_iff. now apply valid_lt_by_exponent.
Qed.

Lemma rounds_to_valid v s : rounds_to v s -> valid_binary s = true.
Proof. destruct 1; auto. Qed.

Lemma rounds_to_finite v s :
  rounds_to v s -> v < OVF -> nonneg_finite s = true /\ SFscaled s = v.
Proof.
  destruct 1 as [sg Hv | m e Hv Hval E | Hv]; intros Hlt; cbn [nonneg_finite SFscaled cond_Zopp];
    auto; lia.
Qed.

Lemma rounds_to_overflow v s : rounds_to v s -> OVF <= v -> s = S754_infinity false.
Proof. destruct 1 as [sg Hv | m e Hv Hval E | Hv]; intros Hge; auto; unfold OVF in *; lia. Qed.

(** * Primitive floats

    The same facts for Rocq's primitive floats, through their specification. *)

Lemma leb_B2Z x y :
  finite_nonneg x = true -> finite_nonneg y = true ->
  (x <=? y)%float = (B2Z x <=? B2Z y).
Proof.
  intros Hx Hy. rewrite leb_spec. unfold SFleb, B2Z.
  rewrite (SFcompare_scaled _ _ (Prim2SF_valid x) (Prim2SF_valid y) Hx Hy).
  unfold Z.leb. now destruct (SFscaled (Prim2SF x) ?= SFscaled (Prim2SF y)).
Qed.

Lemma ltb_B2Z x y :
  finite_nonneg x = true -> finite_nonneg y = true ->
  (x <? y)%float = (B2Z x <? B2Z y).
Proof.
  intros Hx Hy. rewrite ltb_spec. unfold SFltb, B2Z.
  rewrite (SFcompare_scaled _ _ (Prim2SF_valid x) (Prim2SF_valid y) Hx Hy).
  unfold Z.ltb. now destruct (SFscaled (Prim2SF x) ?= SFscaled (Prim2SF y)).
Qed.

Lemma B2Z_nonneg x : finite_nonneg x = true -> 0 <= B2Z x.
Proof. apply SFscaled_nonneg. Qed.

Lemma B2Z_lt_OVF x : finite_nonneg x = true -> B2Z x < OVF.
Proof.
  unfold finite_nonneg, B2Z. pose proof (Prim2SF_valid x) as Hv.
  destruct (Prim2SF x) as [s | s | | s m e]; cbn [nonneg_finite SFscaled]; try discriminate.
  - intros _. unfold OVF. apply Z.pow_pos_nonneg; lia.
  - destruct s; [discriminate |]. intros _. now apply valid_scaled_lt_OVF.
Qed.

Lemma rnd_B2Z x : finite_nonneg x = true -> rnd (B2Z x) 1 = B2Z x.
Proof. intros Hx. apply rnd_self; [apply Prim2SF_valid | exact Hx]. Qed.

Lemma add_B2Z x y :
  finite_nonneg x = true -> finite_nonneg y = true ->
  rounds_to (rnd (B2Z x + B2Z y) 1) (Prim2SF (x + y)).
Proof. intros Hx Hy. rewrite add_spec. apply SFadd_rnd; auto using Prim2SF_valid. Qed.

Lemma sub_B2Z x y :
  finite_nonneg x = true -> finite_nonneg y = true -> B2Z y <= B2Z x ->
  rounds_to (rnd (B2Z x - B2Z y) 1) (Prim2SF (x - y)).
Proof. intros Hx Hy Hle. rewrite sub_spec. apply SFsub_rnd; auto using Prim2SF_valid. Qed.

Lemma positive_finite_shape y :
  finite_nonneg y = true -> 0 < B2Z y -> exists m e, Prim2SF y = S754_finite false m e.
Proof.
  unfold finite_nonneg, B2Z.
  destruct (Prim2SF y) as [s | s | | s m e]; cbn [nonneg_finite SFscaled]; try discriminate; try lia.
  destruct s; [discriminate |]. intros _ _. now exists m, e.
Qed.

Lemma div_B2Z x y :
  finite_nonneg x = true -> finite_nonneg y = true -> 0 < B2Z y ->
  rounds_to (rnd (B2Z x * 2 ^ 1074) (B2Z y)) (Prim2SF (x / y)).
Proof.
  intros Hx Hy Hpos. destruct (positive_finite_shape y Hy Hpos) as (m & e & E).
  rewrite div_spec. unfold B2Z. pose proof (Prim2SF_valid y) as Hvy. rewrite E in *.
  apply SFdiv_rnd; auto using Prim2SF_valid.
Qed.

Lemma float_of_Z_B2Z z :
  0 <= z -> rounds_to (rnd (z * 2 ^ 1074) 1) (Prim2SF (float_of_Z z)).
Proof.
  intros Hz. pose proof (binary_normalize_rnd z 0 Hz ltac:(lia)) as H.
  rewrite Z.add_0_l in H. unfold float_of_Z.
  rewrite Prim2SF_SF2Prim; [exact H | exact (rounds_to_valid _ _ H)].
Qed.

Lemma rounds_to_B2Z v x :
  rounds_to v (Prim2SF x) -> v < OVF -> finite_nonneg x = true /\ B2Z x = v.
Proof. apply rounds_to_finite. Qed.

Lemma SFcompare_refl x : x <> S754_nan -> SFcompare x x = Some Eq.
Proof.
  destruct x as [s | s | | s m e]; try congruence; intros _; cbn [SFcompare];
    destruct s; try reflexivity; now rewrite Z.compare_refl, Pos.compare_cont_refl.
Qed.

Lemma is_nan_spec a :
  is_nan a = match Prim2SF a with S754_nan => true | _ => false end.
Proof.
  unfold is_nan. rewrite eqb_spec. unfold SFeqb.
  destruct (Prim2SF a) as [s | s | | s m e] eqn:E; try (rewrite SFcompare_refl by discriminate);
    reflexivity.
Qed.

Lemma is_infinity_spec a :
  is_infinity a = match Prim2SF a with S754_infinity _ => true | _ => false end.
Proof.
  unfold is_infinity. rewrite eqb_spec, abs_spec.
  change (Prim2SF infinity) with (S754_infinity false).
  destruct (Prim2SF a) as [s | s | | s m e]; reflexivity.
Qed.

Lemma positive_float_spec a :
  positive_float a = match Prim2SF a with
                     | S754_finite false _ _ | S754_infinity false => true
                     | _ => false
                     end.
Proof.
  unfold positive_float. rewrite ltb_spec. change (Prim2SF 0) with (S754_zero false).
  destruct (Prim2SF a) as [s | s | | s m e]; try destruct s; reflexivity.
Qed.

Lemma finite_nonneg_not_infinity x : finite_nonneg x = true -> is_infinity x = false.
Proof.
  unfold finite_nonneg. rewrite is_infinity_spec.
  destruct (Prim2SF x) as [s | s | | s m e]; cbn; congruence.
Qed.

Section Budget.

Variable libm_log : float -> float.

(** What [m_log] returns, when it returns. *)
Lemma m_log_Return a l :
  m_log libm_log a = Return l ->
  (exists m e, Prim2SF a = S754_finite false m e /\ l = libm_log a)
  \/ (Prim2SF a = S754_nan /\ l = a)
  \/ (Prim2SF a = S754_infinity false /\ l = a).
Proof.
  unfold m_log, is_finite. rewrite is_nan_spec, is_infinity_spec, positive_float_spec.
  destruct (Prim2SF a) as [s | s | | s m e]; try destruct s; cbn [negb orb];
    intros H; inversion H; subst; eauto 6.
Qed.

Lemma m_log_4 : m_log libm_log 4 = Return (libm_log 4).
Proof. reflexivity. Qed.

Lemma SFdiv_nonfinite x y :
  x = S754_nan \/ x = S754_infinity false ->
  match SFdiv prec emax x y with
  | S754_nan | S754_infinity _ => True
  | _ => False
  end.
Proof.
  intros [-> | ->]; destruct y as [s | s | | s m e]; cbn; auto.
Qed.

Lemma math_ceil_Return x k :
  math_ceil x = Return k ->
  match Prim2SF x with S754_nan | S754_infinity _ => False | _ => True end.
Proof. unfold math_ceil. destruct (Prim2SF x); intros H; try discriminate; exact I. Qed.

(** A witness count exists only for a positive finite allowance. *)
Lemma witness_count_Return a k :
  witness_count libm_log a = Return k ->
  exists m e, Prim2SF a = S754_finite false m e.
Proof.
  unfold witness_count, math_log. rewrite m_log_4.
  destruct (m_log libm_log a) as [num | e] eqn:E; [| discriminate].
  destruct (libm_log 4 =? 0)%float; [discriminate |].
  intros H. apply math_ceil_Return in H. rewrite opp_spec, div_spec in H.
  unfold SF64div in H.
  apply m_log_Return in E. destruct E as [(m & e & E & _) | E]; [eauto | exfalso].
  assert (Hd : Prim2SF num = S754_nan \/ Prim2SF num = S754_infinity false).
  { destruct E as [[E ->] | [E ->]]; auto. }
  apply (SFdiv_nonfinite _ (Prim2SF (libm_log 4))) in Hd.
  destruct (SFdiv prec emax (Prim2SF num) (Prim2SF (libm_log 4))); cbn in H; contradiction.
Qed.

End Budget.

(** * The error budget *)

Lemma rnd_times_ge z c :
  0 <= c < 2 ^ 53 -> c <= z -> c * 2 ^ 1074 <= rnd (z * 2 ^ 1074) 1.
Proof.
  intros Hc Hz. rewrite <- (rnd_exact c 1074 1) at 1 by lia.
  assert (0 < 2 ^ 1074) by (apply Z.pow_pos_nonneg; lia).
  apply rnd_mono; nia.
Qed.

Lemma float_of_int_Return z mf :
  0 <= z -> float_of_int z = Return mf ->
  finite_nonneg mf = true /\ B2Z mf = rnd (z * 2 ^ 1074) 1.
Proof.
  intros Hz. unfold float_of_int. cbv zeta.
  destruct (is_infinity (float_of_Z z)) eqn:E; [discriminate |].
  intros H. inversion H; subst mf. clear H.
  pose proof (float_of_Z_B2Z z Hz) as Hr.
  rewrite is_infinity_spec in E. unfold finite_nonneg, B2Z.
  inversion Hr as [s Hv Hs | m e Hv Hval Hm Hs | Hv Hs]; rewrite <- Hs in *; cbn [nonneg_finite SFscaled cond_Zopp];
    try discriminate; auto.
Qed.

Section BudgetSteps.

Variable libm_log : float -> float.

(** Lines 55-57 on a checker with a finite ceiling. *)
Lemma acceptable_finite s a :
  finite_nonneg (_cumulative_error_sofar s) = true ->
  finite_nonneg (_max_cumulative_error s) = true ->
  B2Z (_cumulative_error_sofar s) <= B2Z (_max_cumulative_error s) ->
  acceptable_error_probability s = Return a ->
  finite_nonneg a = true
  /\ B2Z a = allowance_value (B2Z (_max_cumulative_error s)) (B2Z (_cumulative_error_sofar s))
                             (_error_opportunity_count s)
  /\ B2Z (_cumulative_error_sofar s) + B2Z a <= B2Z (_max_cumulative_error s).
Proof.
  intros Hc HM Hle. unfold acceptable_error_probability.
  destruct (float_of_int (Z.max 100 (_error_opportunity_count s))) as [mf | e] eqn:Emf; [| discriminate].
  intros H. inversion H; subst a. clear H.
  destruct (float_of_int_Return (Z.max 100 (_error_opportunity_count s)) mf ltac:(lia) Emf) as [Hmf Bmf].
  set (M := _max_cumulative_error s) in *. set (c := _cumulative_error_sofar s) in *.
  pose proof (B2Z_nonneg c Hc) as Hc0. pose proof (B2Z_lt_OVF M HM) as HMo.
  assert (Hp : 0 < 2 ^ 1074) by (apply Z.pow_pos_nonneg; lia).
  pose proof (rnd_times_ge (Z.max 100 (_error_opportunity_count s)) 100 ltac:(lia) ltac:(lia)) as Hmf100.
  rewrite <- Bmf in Hmf100.
  (* the difference *)
  pose proof (sub_B2Z M c HM Hc Hle) as Hx.
  assert (Hxle : rnd (B2Z M - B2Z c) 1 <= B2Z M).
  { rewrite <- (rnd_B2Z M HM) at 2. apply rnd_mono; lia. }
  destruct (rounds_to_B2Z _ _ Hx ltac:(lia)) as [Hxf Bx].
  pose proof (rnd_twice (B2Z M - B2Z c) 1 ltac:(lia) ltac:(lia)) as Hx2.
  rewrite <- Bx in Hx2.
  pose proof (B2Z_nonneg _ Hxf) as Hx0.
  (* the quotient *)
  pose proof (div_B2Z (M - c) mf Hxf Hmf ltac:(lia)) as Ha.
  pose proof (rnd_twice (B2Z (M - c) * 2 ^ 1074) (B2Z mf) ltac:(nia) ltac:(lia)) as Ha2.
  pose proof (rnd_nonneg (B2Z (M - c) * 2 ^ 1074) (B2Z mf) ltac:(nia) ltac:(lia)) as Ha0.
  set (va := rnd (B2Z (M - c) * 2 ^ 1074) (B2Z mf)) in *.
  assert (Hva : 50 * va <= B2Z (M - c)) by nia.
  pose proof (B2Z_lt_OVF _ Hxf).
  destruct (rounds_to_B2Z _ _ Ha ltac:(lia)) as [Haf Ba].
  split; [exact Haf |]. split.
  - rewrite Ba. unfold va, allowance_value. rewrite Bx, Bmf. reflexivity.
  - rewrite Ba. lia.
Qed.

(** [Report(True)] keeps the invariant and does not lower the sum. *)
Lemma charged_respects_budget s a k :
  budget_respected s ->
  acceptable_error_probability s = Return a ->
  witness_count libm_log a = Return k ->
  finite_nonneg (_max_cumulative_error s) = true
  /\ budget_respected (charged s a)
  /\ B2Z (_cumulative_error_sofar s) <= B2Z (_cumulative_error_sofar (charged s a)).
Proof.
  intros [Hc [[HM Hle] | Hinf]] Ha Hk.
  - destruct (acceptable_finite s a Hc HM Hle Ha) as (Haf & _ & Hsum).
    pose proof (add_B2Z _ _ Hc Haf) as Hadd.
    pose proof (B2Z_nonneg _ Hc). pose proof (B2Z_nonneg _ Haf). pose proof (B2Z_lt_OVF _ HM).
    assert (Hup : rnd (B2Z (_cumulative_error_sofar s) + B2Z a) 1 <= B2Z (_max_cumulative_error s)).
    { rewrite <- (rnd_B2Z _ HM). apply rnd_mono; lia. }
    assert (Hlo : B2Z (_cumulative_error_sofar s) <= rnd (B2Z (_cumulative_error_sofar s) + B2Z a) 1).
    { rewrite <- (rnd_B2Z _ Hc) at 1. apply rnd_mono; lia. }
    destruct (rounds_to_B2Z _ _ Hadd ltac:(lia)) as [Hf B].
    split; [exact HM |]. split.
    + unfold budget_respected, charged. cbn [_cumulative_error_sofar _max_cumulative_error].
      split; [exact Hf |]. left. split; [exact HM |]. rewrite B. lia.
    + unfold charged. cbn [_cumulative_error_sofar]. rewrite B. lia.
  - (* an infinite ceiling gives an infinite allowance, and no witness count *)
    exfalso. apply witness_count_Return in Hk. destruct Hk as (m & e & Hfin).
    unfold acceptable_error_probability in Ha.
    destruct (float_of_int (Z.max 100 (_error_opportunity_count s))) as [mf | e'] eqn:Emf; [| discriminate].
    inversion Ha; subst a. clear Ha.
    destruct (float_of_int_Return (Z.max 100 (_error_opportunity_count s)) mf ltac:(lia) Emf) as [Hmf Bmf].
    pose proof (rnd_times_ge (Z.max 100 (_error_opportunity_count s)) 100 ltac:(lia) ltac:(lia)) as Hmf100.
    rewrite <- Bmf in Hmf100.
    assert (Hp : 0 < 2 ^ 1074) by (apply Z.pow_pos_nonneg; lia).
    destruct (positive_finite_shape mf Hmf ltac:(lia)) as (m' & e'' & Emf').
    rewrite div_spec, sub_spec, Hinf, Emf' in Hfin.
    unfold finite_nonneg in Hc.
    destruct (Prim2SF (_cumulative_error_sofar s)) as [sc | sc | | sc mc ec]; cbn in Hc; try discriminate;
      cbn in Hfin; discriminate.
Qed.

End BudgetSteps.

Lemma nonneg_float_shape M :
  (0 <=? M)%float = true ->
  finite_nonneg M = true \/ Prim2SF M = S754_infinity false.
Proof.
  rewrite leb_spec. change (Prim2SF 0) with (S754_zero false). unfold finite_nonneg.
  destruct (Prim2SF M) as [s | s | | s m e]; try destruct s; cbn; auto; discriminate.
Qed.

Lemma budget_respected_init M : (0 <=? M)%float = true -> budget_respected (init M).
Proof.
  intros H. unfold budget_respected, init. cbn [_cumulative_error_sofar _max_cumulative_error].
  split; [reflexivity |].
  destruct (nonneg_float_shape M H) as [HM | HM]; [left | now right].
  split; [exact HM |]. change (B2Z 0) with 0. now apply B2Z_nonneg.
Qed.

Lemma budget_respected_leb s :
  budget_respected s ->
  (_cumulative_error_sofar s <=? _max_cumulative_error s)%float = true.
Proof.
  intros [Hc [[HM Hle] | Hinf]].
  - rewrite leb_B2Z by assumption. now apply Z.leb_le.
  - rewrite leb_spec, Hinf. unfold finite_nonneg in Hc.
    destruct (Prim2SF (_cumulative_error_sofar s)) as [sc | sc | | sc mc ec]; cbn in Hc; try discriminate;
      try destruct sc; try discriminate; reflexivity.
Qed.

Section BoundedError.

Variable libm_log : float -> float.

(** One call keeps the invariant, the ceiling, and never lowers the sum or
    the count. *)
Lemma IsPrime_respects_budget n w :
  budget_respected (self w) ->
  let w' := snd (IsPrime libm_log n w) in
  budget_respected (self w')
  /\ _max_cumulative_error (self w') = _max_cumulative_error (self w)
  /\ B2Z (_cumulative_error_sofar (self w)) <= B2Z (_cumulative_error_sofar (self w'))
  /\ _error_opportunity_count (self w) <= _error_opportunity_count (self w').
Proof.
  intros Hinv. cbv zeta.
  pose proof (IsPrime_cases libm_log n w) as H.
  destruct (IsPrime libm_log n w) as [o w']. cbn [snd].
  destruct H as [(_ & _ & ->) | [(_ & _ & v & _ & Hself & _)
                | [(_ & _ & e & _ & _ & ->) | (_ & _ & a & k & v & Ha & Hk & _ & Hself & _)]]].
  - split; [exact Hinv |]. split; [reflexivity |]. split; lia.
  - rewrite Hself. split; [exact Hinv |]. split; [reflexivity |]. split; lia.
  - split; [exact Hinv |]. split; [reflexivity |]. split; lia.
  - rewrite Hself. destruct v; [| split; [exact Hinv |]; split; [reflexivity |]; split; lia].
    destruct (charged_respects_budget libm_log _ _ _ Hinv Ha Hk) as (_ & Hinv' & Hle).
    split; [exact Hinv' |]. split; [reflexivity |]. split; [exact Hle |]. cbn. lia.
Qed.

Lemma run_calls_respects_budget ns : forall w,
  budget_respected (self w) ->
  let w' := run_calls libm_log ns w in
  budget_respected (self w')
  /\ _max_cumulative_error (self w') = _max_cumulative_error (self w)
  /\ B2Z (_cumulative_error_sofar (self w)) <= B2Z (_cumulative_error_sofar (self w'))
  /\ _error_opportunity_count (self w) <= _error_opportunity_count (self w').
Proof.
  induction ns as [| n ns IH]; intros w Hinv; cbn [run_calls]; cbv zeta.
  - split; [exact Hinv |]. split; [reflexivity |]. split; lia.
  - destruct (IsPrime_respects_budget n w Hinv) as (H1 & H2 & H3 & H4).
    destruct (IH _ H1) as (G1 & G2 & G3 & G4).
    split; [exact G1 |]. split; [congruence |]. split; lia.
Qed.

End BoundedError.

(** C1, as the code has it. For a checker constructed with a ceiling
    [max_cumulative_error_probability >= 0], after any sequence of calls
    (returned or raised) the next call leaves [_cumulative_error_sofar <=
    _max_cumulative_error], the ceiling itself unchanged, and neither the sum
    nor [_error_opportunity_count] smaller than before the call. *)
Theorem cumulative_error_bounded
  (libm_log : float -> float) (M : float) (e : nat -> Z) (ns : list Z) (n : Z) :
  (0 <=? M)%float = true ->
  let w := run_calls libm_log ns (fresh M e) in
  let w' := snd (IsPrime libm_log n w) in
  (_cumulative_error_sofar (self w') <=? _max_cumulative_error (self w'))%float = true
  /\ _max_cumulative_error (self w') = M
  /\ (_cumulative_error_sofar (self w) <=? _cumulative_error_sofar (self w'))%float = true
  /\ _error_opportunity_count (self w) <= _error_opportunity_count (self w').
Proof.
  intros HM. cbv zeta.
  destruct (run_calls_respects_budget libm_log ns (fresh M e) (budget_respected_init M HM))
    as (H1 & H2 & _ & _).
  destruct (IsPrime_respects_budget libm_log n _ H1) as (G1 & G2 & G3 & G4).
  split; [now apply budget_respected_leb |]. split; [now rewrite G2, H2 |]. split; [| exact G4].
  rewrite leb_B2Z; [now apply Z.leb_le | apply H1 | apply G1].
Qed.

Lemma cumulative_error_bounded_witness :
  let w := run_calls ref_log [3215031767; 17; 3215031751]
             (fresh default_max_cumulative_error_probability (fun _ => 10)) in
  let w' := snd (IsPrime ref_log 3215031767 w) in
  (_cumulative_error_sofar (self w') <=? _max_cumulative_error (self w'))%float = true
  /\ _max_cumulative_error (self w') = default_max_cumulative_error_probability
  /\ (_cumulative_error_sofar (self w) <=? _cumulative_error_sofar (self w'))%float = true
  /\ _error_opportunity_count (self w) <= _error_opportunity_count (self w').
Proof.
  apply (cumulative_error_bounded ref_log default_max_cumulative_error_probability
           (fun _ => 10) [3215031767; 17; 3215031751] 3215031767).
  reflexivity.
Defined.

(** C1 as stated fails for a negative ceiling: the call [IsPrime(3)] on a
    checker constructed with [-1.0] returns [True] and leaves the sum [0]
    above the ceiling. *)
Lemma negative_ceiling_exceeded :
  let w' := snd (IsPrime ref_log 3 (fresh (-1) (fun _ => 0))) in
  fst (IsPrime ref_log 3 (fresh (-1) (fun _ => 0))) = Return true
  /\ (_cumulative_error_sofar (self w') <=? _max_cumulative_error (self w'))%float = false.
Proof. vm_compute. auto. Qed.

(** * The allowance shrinks *)

Lemma allowance_value_mono BM Bc1 Bc2 n1 n2 :
  0 <= Bc1 <= Bc2 -> Bc2 <= BM -> n1 <= n2 ->
  allowance_value BM Bc2 n2 <= allowance_value BM Bc1 n1.
Proof.
  intros Hc HM Hn. unfold allowance_value.
  assert (Hp : 0 < 2 ^ 1074) by (apply Z.pow_pos_nonneg; lia).
  pose proof (rnd_times_ge (Z.max 100 n1) 100 ltac:(lia) ltac:(lia)) as Hm1.
  assert (Hm : rnd (Z.max 100 n1 * 2 ^ 1074) 1 <= rnd (Z.max 100 n2 * 2 ^ 1074) 1)
    by (apply rnd_mono; nia).
  assert (Hx : rnd (BM - Bc2) 1 <= rnd (BM - Bc1) 1) by (apply rnd_mono; lia).
  pose proof (rnd_nonneg (BM - Bc2) 1 ltac:(lia) ltac:(lia)) as Hx0.
  assert (rnd (BM - Bc2) 1 * rnd (Z.max 100 n1 * 2 ^ 1074) 1
          <= rnd (BM - Bc1) 1 * rnd (Z.max 100 n2 * 2 ^ 1074) 1) by (apply Z.mul_le_mono_nonneg; lia).
  apply rnd_mono; nia.
Qed.

Lemma leb_refl_not_nan a : Prim2SF a <> S754_nan -> (a <=? a)%float = true.
Proof. intros H. rewrite leb_spec. unfold SFleb. now rewrite SFcompare_refl. Qed.

(** With an infinite ceiling the allowance is infinite. *)
Lemma acceptable_infinite s a :
  finite_nonneg (_cumulative_error_sofar s) = true ->
  Prim2SF (_max_cumulative_error s) = S754_infinity false ->
  acceptable_error_probability s = Return a ->
  Prim2SF a = S754_infinity false.
Proof.
  intros Hc Hinf Ha. unfold acceptable_error_probability in Ha.
  destruct (float_of_int (Z.max 100 (_error_opportunity_count s))) as [mf | e'] eqn:Emf; [| discriminate].
  inversion Ha; subst a. clear Ha.
  destruct (float_of_int_Return (Z.max 100 (_error_opportunity_count s)) mf ltac:(lia) Emf) as [Hmf Bmf].
  pose proof (rnd_times_ge (Z.max 100 (_error_opportunity_count s)) 100 ltac:(lia) ltac:(lia)) as Hmf100.
  rewrite <- Bmf in Hmf100.
  assert (Hp : 0 < 2 ^ 1074) by (apply Z.pow_pos_nonneg; lia).
  destruct (positive_finite_shape mf Hmf ltac:(lia)) as (m' & e'' & Emf').
  rewrite div_spec, sub_spec, Hinf, Emf'.
  unfold finite_nonneg in Hc.
  destruct (Prim2SF (_cumulative_error_sofar s)) as [sc | sc | | sc mc ec]; cbn in Hc; try discriminate;
    reflexivity.
Qed.

(** The sign given to [binary_round_aux] only labels its result. *)
Lemma binary_round_aux_sign m e l :
  binary_round_aux prec emax true m e l
  = match binary_round_aux prec emax false m e l with
    | S754_zero _ => S754_zero true
    | S754_infinity _ => S754_infinity true
    | S754_finite _ m' e' => S754_finite true m' e'
    | S754_nan => S754_nan
    end.
Proof.
  unfold binary_round_aux.
  destruct (shr_fexp prec emax m e l) as [mrs1 e1].
  destruct (shr_fexp prec emax _ e1 loc_Exact) as [mrs2 e2].
  destruct (shr_m mrs2); try reflexivity. now destruct (e2 <=? emax - prec).
Qed.

Lemma acceptable_init M :
  acceptable_error_probability (init M) = Return ((M - 0) / 100)%float.
Proof. reflexivity. Qed.

(** The allowance of a fresh checker with a negative ceiling: negative, zero
    or minus infinity, never NaN. *)
Lemma negative_allowance_shape M :
  (0 <=? M)%float = false -> is_nan M = false ->
  match Prim2SF ((M - 0) / 100)%float with
  | S754_nan | S754_finite false _ _ => False
  | _ => True
  end.
Proof.
  intros Hneg Hnan. rewrite leb_spec in Hneg. rewrite is_nan_spec in Hnan.
  change (Prim2SF 0) with (S754_zero false) in Hneg.
  rewrite div_spec, sub_spec. change (Prim2SF 0) with (S754_zero false).
  pose proof (Prim2SF_valid M) as Hv.
  set (h := Prim2SF 100). assert (Hh : valid_binary h = true) by apply Prim2SF_valid.
  assert (Eh : h = S754_finite false 7036874417766400 (-46)) by reflexivity.
  rewrite Eh in *. clear h Eh.
  destruct (Prim2SF M) as [s | s | | s m e]; try destruct s; try discriminate; try exact I.
  cbn [SF64sub SFsub]. unfold SF64div, SFdiv.
  pose proof (SFdiv_rnd (S754_finite false m e) _ _ Hv Hh eq_refl) as Hr.
  unfold SFdiv in Hr.
  destruct (SFdiv_core_binary prec emax (Z.pos m) e 7036874417766400 (-46)) as [[mz ez] lz].
  cbn [xorb] in *. rewrite binary_round_aux_sign.
  inversion Hr; exact I.
Qed.

Section Shrink.

Variable libm_log : float -> float.

(** A checker with a negative ceiling never changes. *)
Lemma negative_ceiling_frozen M n w :
  (0 <=? M)%float = false -> is_nan M = false ->
  self w = init M -> self (snd (IsPrime libm_log n w)) = init M.
Proof.
  intros Hneg Hnan Hw.
  pose proof (IsPrime_cases libm_log n w) as H.
  destruct (IsPrime libm_log n w) as [o w']. cbn [snd].
  destruct H as [(_ & _ & ->) | [(_ & _ & v & _ & Hself & _)
                | [(_ & _ & e & _ & _ & ->) | (_ & _ & a & k & v & Ha & Hk & _ & Hself & _)]]];
    try congruence.
  exfalso. rewrite Hw, acceptable_init in Ha. inversion Ha; subst a.
  apply witness_count_Return in Hk. destruct Hk as (m & e & E).
  pose proof (negative_allowance_shape M Hneg Hnan) as Hs. now rewrite E in Hs.
Qed.

Lemma negative_ceiling_frozen_run M ns : forall w,
  (0 <=? M)%float = false -> is_nan M = false ->
  self w = init M -> self (run_calls libm_log ns w) = init M.
Proof.
  induction ns as [| n ns IH]; intros w Hneg Hnan Hw; cbn [run_calls]; [exact Hw |].
  apply IH; auto. now apply negative_ceiling_frozen.
Qed.

End Shrink.

(** C7, as the code has it. For a checker whose ceiling is a number (not
    NaN), the allowance lines 55-57 compute never grows: after any further
    calls it is at most what it was. *)
Theorem allowance_never_grows
  (libm_log : float -> float) (M : float) (e : nat -> Z) (ns1 ns2 : list Z) (a1 a2 : float) :
  is_nan M = false ->
  let w1 := run_calls libm_log ns1 (fresh M e) in
  let w2 := run_calls libm_log ns2 w1 in
  acceptable_error_probability (self w1) = Return a1 ->
  acceptable_error_probability (self w2) = Return a2 ->
  (a2 <=? a1)%float = true.
Proof.
  intros Hnan. cbv zeta. intros Ha1 Ha2.
  destruct (0 <=? M)%float eqn:HM.
  - destruct (run_calls_respects_budget libm_log ns1 (fresh M e) (budget_respected_init M HM))
      as (H1 & HM1 & _ & _).
    destruct (run_calls_respects_budget libm_log ns2 _ H1) as (H2 & HM2 & Hc & Hn).
    set (w1 := run_calls libm_log ns1 (fresh M e)) in *.
    set (w2 := run_calls libm_log ns2 w1) in *.
    destruct H1 as [Hc1 [[HM1f Hle1] | Hinf1]].
    + destruct H2 as [Hc2 [[HM2f Hle2] | Hinf2]].
      * destruct (acceptable_finite _ _ Hc1 HM1f Hle1 Ha1) as (Hf1 & B1 & _).
        destruct (acceptable_finite _ _ Hc2 HM2f Hle2 Ha2) as (Hf2 & B2 & _).
        rewrite leb_B2Z by assumption. apply Z.leb_le. rewrite B1, B2, HM2.
        pose proof (B2Z_nonneg _ Hc1).
        apply allowance_value_mono; try lia. rewrite <- HM2. exact Hle2.
      * exfalso. rewrite HM2 in Hinf2. unfold finite_nonneg in HM1f. now rewrite Hinf2 in HM1f.
    + destruct H2 as [Hc2 _].
      pose proof (acceptable_infinite _ _ Hc1 Hinf1 Ha1) as E1.
      assert (Hinf2 : Prim2SF (_max_cumulative_error (self w2)) = S754_infinity false) by now rewrite HM2.
      pose proof (acceptable_infinite _ _ Hc2 Hinf2 Ha2) as E2.
      rewrite leb_spec, E1, E2. reflexivity.
  - pose proof (negative_ceiling_frozen_run libm_log M ns1 (fresh M e) HM Hnan eq_refl) as F1.
    pose proof (negative_ceiling_frozen_run libm_log M ns2 _ HM Hnan F1) as F2.
    rewrite F1, acceptable_init in Ha1. rewrite F2, acceptable_init in Ha2.
    inversion Ha1; inversion Ha2; subst.
    apply leb_refl_not_nan. intros E.
    pose proof (negative_allowance_shape M HM Hnan) as Hs. now rewrite E in Hs.
Qed.

Lemma allowance_never_grows_witness :
  let w1 := run_calls ref_log [3215031767]
              (fresh default_max_cumulative_error_probability (fun _ => 10)) in
  let w2 := run_calls ref_log [17; 3215031767] w1 in
  acceptable_error_probability (self w1) = Return 0x1.64af621717a88p-47%float
  /\ acceptable_error_probability (self w2) = Return 0x1.611e44f305806p-47%float
  /\ (0x1.611e44f305806p-47 <=? 0x1.64af621717a88p-47)%float = true.
Proof.
  assert (H1 : acceptable_error_probability
                 (self (run_calls ref_log [3215031767]
                          (fresh default_max_cumulative_error_probability (fun _ => 10))))
               = Return 0x1.64af621717a88p-47%float) by (vm_compute; reflexivity).
  assert (H2 : acceptable_error_probability
                 (self (run_calls ref_log [17; 3215031767]
                    (run_calls ref_log [3215031767]
                          (fresh default_max_cumulative_error_probability (fun _ => 10)))))
               = Return 0x1.611e44f305806p-47%float) by (vm_compute; reflexivity).
  split; [exact H1 |]. split; [exact H2 |].
  exact (allowance_never_grows ref_log default_max_cumulative_error_probability (fun _ => 10)
           [3215031767] [17; 3215031767] _ _ eq_refl H1 H2).
Defined.

(** C7 as stated fails when the ceiling is NaN: every allowance is NaN, and
    NaN is not at most NaN. *)
Lemma nan_allowance_not_ordered :
  let w1 := fresh nan (fun _ => 1) in
  let w2 := run_calls ref_log [3215031751] w1 in
  acceptable_error_probability (self w1) = Return nan
  /\ acceptable_error_probability (self w2) = Return nan
  /\ (nan <=? nan)%float = false.
Proof. vm_compute. auto. Qed.

(** * A generous allowance *)

Lemma finite_nonneg_of_bounds x :
  (0 <=? x)%float = true -> (x <? infinity)%float = true -> finite_nonneg x = true.
Proof.
  rewrite leb_spec, ltb_spec. change (Prim2SF 0) with (S754_zero false).
  change (Prim2SF infinity) with (S754_infinity false). unfold finite_nonneg.
  destruct (Prim2SF x) as [s | s | | s m e]; try destruct s; cbn; congruence.
Qed.

Lemma B2Z_one : B2Z 1 = 2 ^ 1074.
Proof.
  unfold B2Z. change (Prim2SF 1) with (S754_finite false 4503599627370496 (-52)).
  cbn [SFscaled cond_Zopp]. change (-52 + 1074) with 1022.
  change 4503599627370496 with (2 ^ 52). rewrite <- Z.pow_add_r by lia. reflexivity.
Qed.

Lemma at_least_one_shape x :
  (1 <=? x)%float = true -> (x <? infinity)%float = true ->
  finite_nonneg x = true /\ 2 ^ 1074 <= B2Z x.
Proof.
  intros H1 H2.
  assert (Hf : finite_nonneg x = true).
  { rewrite leb_spec in H1. rewrite ltb_spec in H2.
    change (Prim2SF 1) with (S754_finite false 4503599627370496 (-52)) in H1.
    change (Prim2SF infinity) with (S754_infinity false) in H2. unfold finite_nonneg.
    destruct (Prim2SF x) as [s | s | | s m e]; try destruct s; cbn in *; congruence. }
  split; [exact Hf |]. rewrite leb_B2Z in H1 by (reflexivity || assumption).
  apply Z.leb_le in H1. now rewrite B2Z_one in H1.
Qed.

Lemma math_ceil_opp_nonneg q :
  finite_nonneg q = true -> exists k, math_ceil (- q) = Return k /\ k <= 0.
Proof.
  unfold finite_nonneg, math_ceil. rewrite opp_spec.
  destruct (Prim2SF q) as [s | s | | s m e]; cbn [nonneg_finite SFopp]; try discriminate.
  - intros _. exists 0. split; [reflexivity | lia].
  - destruct s; [discriminate |]. intros _. cbn [negb cond_Zopp]. eexists. split; [reflexivity |].
    destruct (0 <=? e) eqn:E.
    + apply Z.leb_le in E. assert (0 <= 2 ^ e) by (apply Z.pow_nonneg; lia).
      change (- Z.pos m) with (Z.neg m). nia.
    + apply Z.leb_gt in E. assert (0 < 2 ^ (- e)) by (apply Z.pow_pos_nonneg; lia).
      change (- - Z.pos m) with (Z.pos m).
      pose proof (Z.div_pos (Z.pos m) (2 ^ (- e)) ltac:(lia) ltac:(lia)). 
      replace (- Z.neg m) with (Z.pos m) by reflexivity. lia.
Qed.

(** C10, as the code has it. When the allowance of lines 55-57 is finite and
    at least 1, and the C library's [log] is finite and non-negative at it
    and finite and at least 1 at 4.0, the witness count is [<= 0], no base is
    drawn, and the call returns [True] after charging the allowance and
    counting one opportunity. *)
Theorem generous_allowance_skips_witnesses
  (libm_log : float -> float) (n : Z) (w : world) (a : float) :
  reaches_selection n = true -> threshold <= n ->
  acceptable_error_probability (self w) = Return a ->
  (1 <=? a)%float = true -> (a <? infinity)%float = true ->
  (0 <=? libm_log a)%float = true -> (libm_log a <? infinity)%float = true ->
  (1 <=? libm_log 4)%float = true -> (libm_log 4 <? infinity)%float = true ->
  exists k, witness_count libm_log a = Return k /\ k <= 0
    /\ _bases_gen k n = []
    /\ IsPrime libm_log n w
       = (Return true,
          mkWorld (charged (self w) a) (reporters w ++ [true]) (entropy w) (drawn w)
                  (true :: calls w)).
Proof.
  intros Hsel Hge Ha Ha1 Ha2 Hl1 Hl2 H41 H42.
  destruct (at_least_one_shape a Ha1 Ha2) as [Haf HaB].
  pose proof (finite_nonneg_of_bounds _ Hl1 Hl2) as Hlf.
  destruct (at_least_one_shape _ H41 H42) as [H4f H4B].
  assert (Hp : 0 < 2 ^ 1074) by (apply Z.pow_pos_nonneg; lia).
  (* the logarithm of the allowance is taken *)
  assert (Hm : m_log libm_log a = Return (libm_log a)).
  { destruct (positive_finite_shape a Haf ltac:(lia)) as (m & e & E).
    unfold m_log, is_finite. rewrite is_nan_spec, is_infinity_spec, positive_float_spec, E.
    reflexivity. }
  assert (Hden : (libm_log 4 =? 0)%float = false).
  { destruct (positive_finite_shape _ H4f ltac:(lia)) as (m & e & E).
    rewrite eqb_spec, E. reflexivity. }
  (* the quotient is finite and not negative *)
  pose proof (div_B2Z _ _ Hlf H4f ltac:(lia)) as Hq.
  pose proof (B2Z_nonneg _ Hlf) as Hl0. pose proof (B2Z_lt_OVF _ Hlf) as Hlo.
  assert (Hqle : rnd (B2Z (libm_log a) * 2 ^ 1074) (B2Z (libm_log 4%float)) <= B2Z (libm_log a)).
  { rewrite <- (rnd_B2Z _ Hlf) at 2. apply rnd_mono; nia. }
  destruct (rounds_to_B2Z _ _ Hq ltac:(lia)) as [Hqf _].
  destruct (math_ceil_opp_nonneg _ Hqf) as (k & Hk & Hk0).
  assert (Hwc : witness_count libm_log a = Return k).
  { unfold witness_count, math_log. rewrite Hm, m_log_4, Hden. exact Hk. }
  exists k. split; [exact Hwc |]. split; [exact Hk0 |].
  assert (Hnat : Z.to_nat k = O) by lia.
  split; [unfold _bases_gen; now rewrite Hnat |].
  rewrite IsPrime_randomized by assumption. rewrite Ha, Hwc.
  destruct (halve_while_even (n - 1) 0) as [d r]. cbv zeta.
  unfold drawn_bases. rewrite Hnat. cbn [seq map passes forallb consumed].
  now rewrite Nat.add_0_r.
Qed.

Lemma generous_allowance_skips_witnesses_witness :
  exists k, witness_count ref_log 1 = Return k /\ k <= 0
    /\ _bases_gen k 3215031751 = []
    /\ IsPrime ref_log 3215031751 (fresh 100 (fun _ => 1))
       = (Return true,
          mkWorld (charged (self (fresh 100 (fun _ => 1))) 1)
                  (reporters (fresh 100 (fun _ => 1)) ++ [true])
                  (entropy (fresh 100 (fun _ => 1))) (drawn (fresh 100 (fun _ => 1)))
                  (true :: calls (fresh 100 (fun _ => 1)))).
Proof.
  apply (generous_allowance_skips_witnesses ref_log 3215031751 (fresh 100 (fun _ => 1)) 1);
    vm_compute; (reflexivity || discriminate).
Defined.

(** C10 as stated fails for an infinite allowance: a checker constructed with
    [+infinity] computes the allowance [+infinity >= 1], and [IsPrime] raises
    [OverflowError] at [math.ceil] instead of returning [True]. *)
Lemma infinite_allowance_raises :
  acceptable_error_probability (init infinity) = Return infinity
  /\ (1 <=? infinity)%float = true
  /\ fst (IsPrime ref_log 3215031751 (fresh infinity (fun _ => 1))) = Raise OverflowError.
Proof. vm_compute. auto. Qed.

(** * The witness count and the charge *)

(** [math.ceil] gives the least integer not below its argument. *)
Lemma math_ceil_least x k :
  math_ceil x = Return k -> (k - 1) * 2 ^ 1074 < B2Z x <= k * 2 ^ 1074.
Proof.
  unfold math_ceil, B2Z. pose proof (Prim2SF_valid x) as Hv.
  assert (Hp : 0 < 2 ^ 1074) by (apply Z.pow_pos_nonneg; lia).
  destruct (Prim2SF x) as [s | s | | s m e]; try discriminate.
  - intros [= <-]. cbn [SFscaled]. lia.
  - intros [= <-]. cbn [SFscaled].
    destruct (valid_finite_bounds s m e Hv) as (He & _ & _).
    set (v := cond_Zopp s (Z.pos m)).
    assert (Hv' : cond_Zopp s (Z.pos m * 2 ^ (e + 1074)) = v * 2 ^ (e + 1074)).
    { unfold v. destruct s; cbn [cond_Zopp]; lia. }
    rewrite Hv'. clearbody v.
    destruct (0 <=? e) eqn:E.
    + apply Z.leb_le in E. rewrite (Z.pow_add_r 2 e 1074) by lia. nia.
    + apply Z.leb_gt in E.
      assert (Hq : 0 < 2 ^ (- e)) by (apply Z.pow_pos_nonneg; lia).
      assert (Hs : 0 < 2 ^ (e + 1074)) by (apply Z.pow_pos_nonneg; lia).
      assert (Hm : 2 ^ 1074 = 2 ^ (- e) * 2 ^ (e + 1074)).
      { rewrite <- Z.pow_add_r by lia. f_equal. lia. }
      pose proof (Z.div_mod (- v) (2 ^ (- e)) ltac:(lia)) as Hdm.
      pose proof (Z.mod_pos_bound (- v) (2 ^ (- e)) Hq) as Hb.
      set (q := (- v) / 2 ^ (- e)) in *. set (t := (- v) mod 2 ^ (- e)) in *.
      clearbody q t. rewrite Hm. set (A := 2 ^ (- e)) in *. set (B := 2 ^ (e + 1074)) in *.
      clearbody A B. assert (Ev : v = - (A * q + t)) by lia. subst v. nia.
Qed.

(** When a witness count exists, it is the ceiling of the negated quotient of
    the two logarithms the C library gives. *)
Lemma witness_count_quotient libm_log a k :
  witness_count libm_log a = Return k ->
  math_ceil (- (libm_log a / libm_log 4))%float = Return k.
Proof.
  intros H. destruct (witness_count_Return _ _ _ H) as (m & e & E).
  unfold witness_count, math_log in H. rewrite m_log_4 in H.
  assert (Hm : m_log libm_log a = Return (libm_log a)).
  { unfold m_log, is_finite.
    rewrite is_nan_spec, is_infinity_spec, positive_float_spec, E. reflexivity. }
  rewrite Hm in H. destruct (libm_log 4 =? 0)%float; [discriminate | exact H].
Qed.

Lemma consumed_le bases n d r : (consumed bases n d r <= length bases)%nat.
Proof.
  induction bases as [| b l IH]; cbn [consumed length]; [lia |].
  destruct (_IsDefinitelyComposite b n d r); lia.
Qed.

Lemma consumed_passes bases n d r :
  passes bases n d r = true -> consumed bases n d r = length bases.
Proof.
  unfold passes. induction bases as [| b l IH]; cbn [consumed length forallb]; [reflexivity |].
  destruct (_IsDefinitelyComposite b n d r); cbn [negb andb]; [discriminate |].
  intros H. now rewrite IH.
Qed.

Lemma consumed_fails bases n d r :
  passes bases n d r = false -> (0 < consumed bases n d r)%nat.
Proof.
  unfold passes. destruct bases as [| b l]; cbn [consumed forallb]; [discriminate |].
  destruct (_IsDefinitelyComposite b n d r); lia.
Qed.

Lemma length_drawn_bases w n k : length (drawn_bases w n k) = Z.to_nat k.
Proof. unfold drawn_bases. now rewrite length_map, length_seq. Qed.

(** What lines 55-59 and [Report] do. In a randomized call whose lines 55-59
    give the allowance [a] and the witness count [k]: [k] is the least integer not
    below the binary64 value [-(log a / log 4.0)], with the C library's
    [log] and binary64 division; the loop draws at most [k] bases, all [k]
    when none proves [n] composite; a [True] verdict adds that same [a] to
    the running sum (a binary64 addition) and one to the opportunity count,
    a [False] verdict leaves the checker as it was. *)
Theorem witness_count_and_charge
  (libm_log : float -> float) (n : Z) (w : world) (a : float) (k : Z) :
  reaches_selection n = true -> threshold <= n ->
  acceptable_error_probability (self w) = Return a ->
  witness_count libm_log a = Return k ->
  let w' := snd (IsPrime libm_log n w) in
  let bases := drawn_bases w n k in
  let d := fst (halve_while_even (n - 1) 0) in
  let r := snd (halve_while_even (n - 1) 0) in
  (k - 1) * 2 ^ 1074 < B2Z (- (libm_log a / libm_log 4))%float <= k * 2 ^ 1074
  /\ fst (IsPrime libm_log n w) = Return (passes bases n d r)
  /\ drawn w' = (drawn w + consumed bases n d r)%nat
  /\ (consumed bases n d r <= Z.to_nat k)%nat
  /\ (passes bases n d r = true ->
      consumed bases n d r = Z.to_nat k
      /\ self w' = mkChecker (_max_cumulative_error (self w))
                             (_cumulative_error_sofar (self w) + a)%float
                             (_error_opportunity_count (self w) + 1))
  /\ (passes bases n d r = false ->
      (0 < consumed bases n d r)%nat /\ self w' = self w).
Proof.
  intros Hsel Hge Ha Hk. cbv zeta.
  split; [apply math_ceil_least, witness_count_quotient, Hk |].
  rewrite IsPrime_randomized by assumption. rewrite Ha, Hk.
  destruct (halve_while_even (n - 1) 0) as [d r]. cbv zeta. cbn [fst snd self drawn].
  split; [reflexivity |]. split; [reflexivity |].
  split; [rewrite <- (length_drawn_bases w n k); apply consumed_le |].
  split.
  - intros Hp. rewrite Hp. split; [| reflexivity].
    rewrite <- (length_drawn_bases w n k). now apply consumed_passes.
  - intros Hp. rewrite Hp. split; [now apply consumed_fails | reflexivity].
Qed.

Lemma witness_count_and_charge_witness :
  let n := 3215031751 in
  let w := fresh default_max_cumulative_error_probability (fun _ => 1) in
  let a := 0x1.6849b86a12b9bp-47%float in
  let k := 24 in
  let w' := snd (IsPrime ref_log n w) in
  let bases := drawn_bases w n k in
  let d := fst (halve_while_even (n - 1) 0) in
  let r := snd (halve_while_even (n - 1) 0) in
  (k - 1) * 2 ^ 1074 < B2Z (- (ref_log a / ref_log 4))%float <= k * 2 ^ 1074
  /\ fst (IsPrime ref_log n w) = Return (passes bases n d r)
  /\ drawn w' = (drawn w + consumed bases n d r)%nat
  /\ (consumed bases n d r <= Z.to_nat k)%nat
  /\ (passes bases n d r = true ->
      consumed bases n d r = Z.to_nat k
      /\ self w' = mkChecker (_max_cumulative_error (self w))
                             (_cumulative_error_sofar (self w) + a)%float
                             (_error_opportunity_count (self w) + 1))
  /\ (passes bases n d r = false ->
      (0 < consumed bases n d r)%nat /\ self w' = self w).
Proof.
  apply (witness_count_and_charge ref_log 3215031751
           (fresh default_max_cumulative_error_probability (fun _ => 1))
           0x1.6849b86a12b9bp-47%float 24);
    vm_compute; (reflexivity || discriminate).
Defined.

(** The count is not always the smallest one. A checker constructed with the
    ceiling [100 * 4^-29] computes the allowance [4^-29] exactly, so 29 is the smallest [k] with
    [4^-k <= allowance]; with correctly rounded logarithms, [log 4^-29 / log 4]
    is [-29.000000000000004] in binary64, the witness count is 30 and the
    call draws 30 bases. *)
Lemma witness_count_30_for_allowance_4_pow_minus_29 :
  let w := fresh 0x1.9p-52%float (fun _ => 0) in
  acceptable_error_probability (self w) = Return 0x1p-58%float
  /\ B2Z 0x1p-58 * 4 ^ 29 = 2 ^ 1074
  /\ ref_log 4 = 0x1.62e42fefa39efp+0%float
  /\ ref_log 0x1p-58 = (-0x1.419ecb712c481p+5)%float
  /\ (0x1.419ecb712c481p+5 / 0x1.62e42fefa39efp+0 = 0x1.d000000000001p+4)%float
  /\ witness_count ref_log 0x1p-58 = Return 30
  /\ fst (IsPrime ref_log 3215031751 w) = Return true
  /\ drawn (snd (IsPrime ref_log 3215031751 w)) = 30%nat.
Proof. vm_compute. repeat split; reflexivity. Qed.

(** C4 fails on the code, against the comment of line 58. A checker
    constructed with the ceiling [0x1.8ffffffffffffp-14] computes for its
    first randomized call the allowance [0x1.fffffffffffffp-21], the double
    just below [4^-10], so 11 is the smallest [k] with [4^-k <= allowance].
    With the values the C library's [log] returns at this allowance and at
    [4.0], the binary64 quotient of line 59 is exactly [-10.0]: the witness
    count is 10, the verdict comes from 10 bases at most, and
    [4^-10 > allowance]. *)
Theorem witness_count_10_below_4_pow_minus_10
  (libm_log : float -> float) (n : Z) (e : nat -> Z) :
  libm_log 4%float = 0x1.62e42fefa39efp+0%float ->
  libm_log 0x1.fffffffffffffp-21%float = (-0x1.bb9d3beb8c86bp+3)%float ->
  reaches_selection n = true -> threshold <= n ->
  let w := fresh 0x1.8ffffffffffffp-14%float e in
  let a := 0x1.fffffffffffffp-21%float in
  let d := fst (halve_while_even (n - 1) 0) in
  let r := snd (halve_while_even (n - 1) 0) in
  acceptable_error_probability (self w) = Return a
  /\ B2Z a * 4 ^ 10 < 2 ^ 1074 <= B2Z a * 4 ^ 11
  /\ (libm_log a / libm_log 4 = -10)%float
  /\ witness_count libm_log a = Return 10
  /\ fst (IsPrime libm_log n w) = Return (passes (drawn_bases w n 10) n d r)
  /\ (drawn (snd (IsPrime libm_log n w)) <= 10)%nat
  /\ (fst (IsPrime libm_log n w) = Return true ->
      drawn (snd (IsPrime libm_log n w)) = 10%nat).
Proof.
  intros H4 Ha Hsel Hge. cbv zeta.
  assert (Hacc : acceptable_error_probability (self (fresh 0x1.8ffffffffffffp-14%float e))
                 = Return 0x1.fffffffffffffp-21%float) by (vm_compute; reflexivity).
  assert (Hq : (libm_log 0x1.fffffffffffffp-21 / libm_log 4 = -10)%float).
  { rewrite H4, Ha. vm_compute. reflexivity. }
  assert (Hk : witness_count libm_log 0x1.fffffffffffffp-21%float = Return 10).
  { unfold witness_count, math_log. rewrite m_log_4.
    replace (m_log libm_log 0x1.fffffffffffffp-21%float)
      with (Return (libm_log 0x1.fffffffffffffp-21%float)) by reflexivity.
    rewrite H4, Ha. vm_compute. reflexivity. }
  split; [exact Hacc |].
  split; [vm_compute; split; [reflexivity | discriminate] |].
  split; [exact Hq |]. split; [exact Hk |].
  rewrite IsPrime_randomized by assumption. rewrite Hacc, Hk.
  destruct (halve_while_even (n - 1) 0) as [d r]. cbv zeta. cbn [fst snd drawn fresh].
  split; [reflexivity |].
  pose proof (consumed_le (drawn_bases (fresh 0x1.8ffffffffffffp-14%float e) n 10) n d r) as Hle.
  rewrite length_drawn_bases in Hle. cbn [Nat.add].
  split; [exact Hle |].
  intros Hv.
  assert (Hp : passes (drawn_bases (fresh 0x1.8ffffffffffffp-14%float e) n 10) n d r = true)
    by congruence.
  rewrite (consumed_passes _ _ _ _ Hp). apply length_drawn_bases.
Qed.

Lemma witness_count_10_below_4_pow_minus_10_witness :
  let n := 3221225473 in
  let w := fresh 0x1.8ffffffffffffp-14%float (fun _ => 0) in
  let a := 0x1.fffffffffffffp-21%float in
  let d := fst (halve_while_even (n - 1) 0) in
  let r := snd (halve_while_even (n - 1) 0) in
  acceptable_error_probability (self w) = Return a
  /\ B2Z a * 4 ^ 10 < 2 ^ 1074 <= B2Z a * 4 ^ 11
  /\ (ref_log a / ref_log 4 = -10)%float
  /\ witness_count ref_log a = Return 10
  /\ fst (IsPrime ref_log n w) = Return (passes (drawn_bases w n 10) n d r)
  /\ (drawn (snd (IsPrime ref_log n w)) <= 10)%nat
  /\ (fst (IsPrime ref_log n w) = Return true ->
      drawn (snd (IsPrime ref_log n w)) = 10%nat).
Proof.
  apply (witness_count_10_below_4_pow_minus_10 ref_log 3221225473 (fun _ => 0));
    [vm_compute; reflexivity | vm_compute; reflexivity | reflexivity | unfold threshold; lia].
Defined.

(** * Further properties *)

(** The three early returns: [IsPrime(2)] is [True]; [IsPrime(n)] is [False]
    for [n <= 1] and for even [n] other than 2; none of them reads or changes
    the world. *)
Theorem IsPrime_trivial_cases (libm_log : float -> float) (n : Z) (w : world) :
  n = 2 \/ n <= 1 \/ n mod 2 = 0 ->
  IsPrime libm_log n w = (Return (n =? 2), w).
Proof.
  intros H. apply IsPrime_early. unfold reaches_selection.
  destruct H as [-> | [H | H]]; [reflexivity | |].
  - apply Z.leb_le in H. rewrite H. now rewrite andb_false_r.
  - apply Z.eqb_eq in H. rewrite H. now rewrite andb_false_r.
Qed.

Lemma IsPrime_trivial_cases_witness :
  IsPrime ref_log 10 (fresh default_max_cumulative_error_probability (fun _ => 0))
  = (Return (10 =? 2), fresh default_max_cumulative_error_probability (fun _ => 0)).
Proof.
  apply (IsPrime_trivial_cases ref_log 10). right. right. reflexivity.
Defined.

Lemma IsPrime_below_threshold libm_log n w :
  n < threshold -> fst (IsPrime libm_log n w) = Return (deterministic_verdict n).
Proof.
  intros Hlt. unfold deterministic_verdict. destruct (reaches_selection n) eqn:Hsel.
  - rewrite IsPrime_deterministic by assumption.
    now destruct (halve_while_even (n - 1) 0).
  - now rewrite IsPrime_early.
Qed.

Lemma agrees_below_spec bound n :
  agrees_below bound = true -> 1 <= n < Z.of_nat bound ->
  deterministic_verdict n = trial_division n.
Proof.
  unfold agrees_below. rewrite forallb_forall. intros H Hn.
  specialize (H (Z.to_nat n)). rewrite Z2Nat.id in H by lia.
  apply eqb_prop, H. apply in_seq. lia.
Qed.

Lemma agrees_below_512 : agrees_below 512 = true.
Proof. vm_compute. reflexivity. Qed.

(** On [1 .. 511] the verdict of [IsPrime] is exactly primality by trial
    division, in any world. *)
Theorem IsPrime_exact_below_512 (libm_log : float -> float) (n : Z) (w : world) :
  1 <= n < 512 ->
  fst (IsPrime libm_log n w) = Return (trial_division n)
  /\ (trial_division n = true <-> Z.prime n).
Proof.
  intros Hn. split; [| apply trial_division_spec].
  rewrite IsPrime_below_threshold by (unfold threshold; lia). f_equal.
  apply (agrees_below_spec 512 n agrees_below_512).
  change (Z.of_nat 512) with 512. exact Hn.
Qed.

Lemma IsPrime_exact_below_512_witness :
  fst (IsPrime ref_log 511 (fresh default_max_cumulative_error_probability (fun _ => 0)))
  = Return (trial_division 511)
  /\ (trial_division 511 = true <-> Z.prime 511).
Proof.
  apply (IsPrime_exact_below_512 ref_log 511). lia.
Defined.

(** A [False] verdict is always right: the number is not prime, whatever its
    size and whatever bases were drawn. *)
Theorem false_verdict_is_composite (libm_log : float -> float) (n : Z) (w : world) :
  fst (IsPrime libm_log n w) = Return false -> ~ Z.prime n.
Proof.
  intros H Hn. destruct (IsPrime_of_prime libm_log n w Hn) as [Ht | (_ & e & _ & He)].
  - congruence.
  - rewrite He in H. discriminate.
Qed.

Lemma false_verdict_is_composite_witness :
  fst (IsPrime ref_log 3215031751
         (fresh default_max_cumulative_error_probability (fun _ => 10))) = Return false
  /\ ~ Z.prime 3215031751.
Proof.
  split; [vm_compute; reflexivity |].
  apply (false_verdict_is_composite ref_log 3215031751
           (fresh default_max_cumulative_error_probability (fun _ => 10))).
  vm_compute. reflexivity.
Defined.

(** The loop of lines 26-31 writes [n - 1] as [2^r * d] with [d] odd, and
    [pow(base, d, n)] is [base^d mod n]. *)
Theorem decomposition_and_power (n base : Z) :
  2 <= n ->
  let d := fst (halve_while_even (n - 1) 0) in
  let r := snd (halve_while_even (n - 1) 0) in
  n - 1 = 2 ^ r * d /\ 0 <= r /\ Z.odd d = true
  /\ pow base d n = base ^ d mod n.
Proof.
  intros Hn. cbv zeta.
  destruct (halve_while_even_spec (n - 1) ltac:(lia)) as (Hdec & Hr & Hd & Hodd).
  split; [exact Hdec |]. split; [exact Hr |]. split; [exact Hodd |].
  apply pow_spec. lia.
Qed.

Lemma decomposition_and_power_witness :
  let d := fst (halve_while_even (3215031751 - 1) 0) in
  let r := snd (halve_while_even (3215031751 - 1) 0) in
  3215031751 - 1 = 2 ^ r * d /\ 0 <= r /\ Z.odd d = true
  /\ pow 11 d 3215031751 = 11 ^ d mod 3215031751.
Proof.
  apply (decomposition_and_power 3215031751 11). lia.
Defined.

(** A call raises only in the randomized regime, only from lines 55-59, and
    then leaves the checker, the heap, the random source and the trace as
    they were. *)
Theorem exception_leaves_world_unchanged
  (libm_log : float -> float) (n : Z) (w : world) (e : exn) :
  fst (IsPrime libm_log n w) = Raise e ->
  threshold <= n /\ allocation libm_log (self w) = Raise e
  /\ snd (IsPrime libm_log n w) = w.
Proof.
  pose proof (IsPrime_cases libm_log n w) as H.
  destruct (IsPrime libm_log n w) as [o w']. cbn [fst snd]. intros ->.
  destruct H as [(_ & Ho & _) | [(_ & _ & v & Ho & _)
                | [(_ & Hge & e' & Ha & Ho & ->) | (_ & _ & a & k & v & _ & _ & Ho & _)]]];
    try discriminate.
  injection Ho as ->. auto.
Qed.

Lemma exception_leaves_world_unchanged_witness :
  threshold <= 3215031751 /\ allocation ref_log (self (fresh 0 (fun _ => 1))) = Raise ValueError
  /\ snd (IsPrime ref_log 3215031751 (fresh 0 (fun _ => 1))) = fresh 0 (fun _ => 1).
Proof.
  apply (exception_leaves_world_unchanged ref_log 3215031751 (fresh 0 (fun _ => 1)) ValueError).
  vm_compute. reflexivity.
Defined.

(** * More on the witness test and the two regimes *)

(** ** Bases that decide nothing, bases that decide at once *)

Lemma odd_decomposition n :
  reaches_selection n = true ->
  let d := fst (halve_while_even (n - 1) 0) in
  let r := snd (halve_while_even (n - 1) 0) in
  n - 1 = 2 ^ r * d /\ 1 <= r /\ 0 < d /\ Z.odd d = true.
Proof.
  intros H. apply reaches_selection_spec in H. destruct H as [H3 Hodd]. cbv zeta.
  destruct (halve_while_even_spec (n - 1) ltac:(lia)) as (Hdec & Hr & Hd & Hdodd).
  split; [exact Hdec |]. split; [| split; assumption].
  destruct (Z.eq_dec (snd (halve_while_even (n - 1) 0)) 0) as [E | E]; [exfalso | lia].
  rewrite E, Z.pow_0_r, Z.mul_1_l in Hdec.
  rewrite <- Hdec in Hdodd. apply Z.odd_spec in Hdodd. destruct Hdodd as [k Hk].
  assert (En : n = (k + 1) * 2) by lia.
  rewrite En, Z.mod_mul in Hodd by lia. discriminate.
Qed.

Lemma squarings_hit n r : squarings (S r) (n - 1) n = false.
Proof. cbn [squarings]. now rewrite Z.eqb_refl. Qed.

Lemma passes_trivial n d r bases :
  _IsDefinitelyComposite 1 n d r = false -> _IsDefinitelyComposite (n - 1) n d r = false ->
  (forall b, In b bases -> b = 1 \/ b = n - 1) -> passes bases n d r = true.
Proof.
  intros H1 H2 Hb. unfold passes. apply forallb_forall. intros b Hin.
  destruct (Hb b Hin) as [-> | ->]; [now rewrite H1 | now rewrite H2].
Qed.

Lemma trivial_bases_pass n :
  reaches_selection n = true ->
  let d := fst (halve_while_even (n - 1) 0) in
  let r := snd (halve_while_even (n - 1) 0) in
  _IsDefinitelyComposite 1 n d r = false /\ _IsDefinitelyComposite (n - 1) n d r = false.
Proof.
  intros Hsel. cbv zeta.
  destruct (odd_decomposition n Hsel) as (Hdec & Hr & Hd & Hodd).
  pose proof (proj1 (reaches_selection_spec n) Hsel) as [H3 _].
  set (d := fst (halve_while_even (n - 1) 0)) in *.
  set (r := snd (halve_while_even (n - 1) 0)) in *.
  split.
  - unfold _IsDefinitelyComposite. rewrite pow_spec by lia.
    rewrite Z.pow_1_l, Z.mod_1_l by lia. reflexivity.
  - unfold _IsDefinitelyComposite. rewrite pow_spec by lia.
    rewrite pow_minus_one_odd by (lia || assumption).
    destruct (n - 1 =? 1) eqn:E; [reflexivity |].
    destruct (Z.to_nat r) as [| r'] eqn:Er; [lia |]. apply squarings_hit.
Qed.

(** The bases 1 and [n - 1], which [random.randint(1, n - 1)] can draw, never
    prove an odd [n] composite; so a randomized call whose draws are all 1 or
    [n - 1] returns [True], whether [n] is prime or not. *)
Theorem trivial_bases_never_witness (libm_log : float -> float) (n : Z) (w : world) (k : Z) :
  reaches_selection n = true -> threshold <= n ->
  allocation libm_log (self w) = Return k ->
  (forall i, (i < Z.to_nat k)%nat -> base_at w n i = 1 \/ base_at w n i = n - 1) ->
  let d := fst (halve_while_even (n - 1) 0) in
  let r := snd (halve_while_even (n - 1) 0) in
  _IsDefinitelyComposite 1 n d r = false
  /\ _IsDefinitelyComposite (n - 1) n d r = false
  /\ fst (IsPrime libm_log n w) = Return true.
Proof.
  intros Hsel Hge Hk Hdraws. cbv zeta.
  destruct (trivial_bases_pass n Hsel) as [E1 E2].
  split; [exact E1 |]. split; [exact E2 |].
  rewrite IsPrime_randomized by assumption.
  unfold allocation in Hk.
  destruct (acceptable_error_probability (self w)) as [a | e]; [| discriminate].
  rewrite Hk. destruct (halve_while_even (n - 1) 0) as [d r] eqn:Eh.
  cbn [fst snd] in *. f_equal.
  apply passes_trivial; [exact E1 | exact E2 |].
  intros b Hin. unfold drawn_bases in Hin. apply in_map_iff in Hin.
  destruct Hin as (i & <- & Hi). apply in_seq in Hi. apply Hdraws. lia.
Qed.

Lemma trivial_bases_never_witness_witness :
  let n := 3215031751 in
  let w := fresh default_max_cumulative_error_probability (fun i => if Nat.even i then 0 else n - 2) in
  let d := fst (halve_while_even (n - 1) 0) in
  let r := snd (halve_while_even (n - 1) 0) in
  _IsDefinitelyComposite 1 n d r = false
  /\ _IsDefinitelyComposite (n - 1) n d r = false
  /\ fst (IsPrime ref_log n w) = Return true.
Proof.
  apply (trivial_bases_never_witness ref_log 3215031751
           (fresh default_max_cumulative_error_probability
                  (fun i => if Nat.even i then 0 else 3215031751 - 2)) 24).
  - reflexivity.
  - unfold threshold. lia.
  - vm_compute. reflexivity.
  - intros i Hi.
    do 24 (destruct i as [| i]; [vm_compute; auto |]).
    exfalso. cbn in Hi. lia.
Defined.

Lemma divide_pow_mod g base d n :
  (g | base) -> (g | n) -> 1 <= d -> (g | base ^ d mod n).
Proof.
  intros Hb Hn Hd.
  assert (Hp : (g | base ^ d)).
  { replace d with (1 + (d - 1)) by lia. rewrite Z.pow_add_r, Z.pow_1_r by lia.
    now apply Z.divide_mul_l. }
  destruct (Z.eq_dec n 0) as [-> | Hn0].
  { now rewrite Z.mod_0_r. }
  rewrite Z.mod_eq by assumption. apply Z.divide_sub_r; [exact Hp |].
  now apply Z.divide_mul_l.
Qed.

Lemma squarings_shared_factor g n r : forall x,
  1 < g -> (g | n) -> (g | x) -> squarings r x n = true.
Proof.
  induction r as [| r IH]; intros x Hg Hn Hx; cbn [squarings]; [reflexivity |].
  destruct (x =? n - 1) eqn:E.
  - exfalso. apply Z.eqb_eq in E. subst x.
    assert (H1 : (g | 1)).
    { replace 1 with (n - (n - 1)) by ring. now apply Z.divide_sub_r. }
    apply Z.divide_1_r in H1. lia.
  - apply IH; [exact Hg | exact Hn |].
    destruct (Z.eq_dec n 0) as [-> | Hn0].
    { rewrite Z.mod_0_r. now apply Z.divide_mul_l. }
    rewrite Z.mod_eq by assumption. apply Z.divide_sub_r; [now apply Z.divide_mul_l |].
    now apply Z.divide_mul_l.
Qed.

Lemma shared_factor_composite g base n d r :
  1 < g -> (g | base) -> (g | n) -> 1 <= d -> _IsDefinitelyComposite base n d r = true.
Proof.
  intros Hg Hb Hn Hd. unfold _IsDefinitelyComposite. rewrite pow_spec by lia.
  pose proof (divide_pow_mod g base d n Hb Hn Hd) as Hx.
  destruct (base ^ d mod n =? 1) eqn:E.
  - exfalso. apply Z.eqb_eq in E. rewrite E in Hx. apply Z.divide_1_r in Hx. lia.
  - now apply (squarings_shared_factor g).
Qed.

(** A base that shares a factor with [n] proves [n] composite at once,
    whatever [r] is. The modulus is not 0 and the exponent is positive, where
    Python's [pow(base, d, n)] is the power modulo [n]. *)
Theorem shared_factor_proves_composite (base n d r : Z) :
  n <> 0 -> 1 < Z.gcd base n -> 1 <= d -> _IsDefinitelyComposite base n d r = true.
Proof.
  intros _ Hg Hd.
  apply (shared_factor_composite (Z.gcd base n)); auto using Z.gcd_divide_l, Z.gcd_divide_r.
Qed.

Lemma shared_factor_proves_composite_witness :
  _IsDefinitelyComposite 3215031750 3221225475 1610612737 1 = true.
Proof.
  apply (shared_factor_proves_composite 3215031750 3221225475 1610612737 1);
    [lia | vm_compute; reflexivity | lia].
Defined.

(** In the deterministic regime every odd [n > 7] divisible by 3, 5 or 7 is
    answered [False]: the base equal to that divisor is among the four tried. *)
Theorem multiples_of_3_5_7_rejected (libm_log : float -> float) (n : Z) (w : world) :
  7 < n < threshold -> n mod 2 = 1 ->
  n mod 3 = 0 \/ n mod 5 = 0 \/ n mod 7 = 0 ->
  fst (IsPrime libm_log n w) = Return false.
Proof.
  intros Hn Hodd Hdiv.
  assert (Hsel : reaches_selection n = true) by (apply reaches_selection_spec; lia).
  rewrite IsPrime_deterministic by (assumption || lia).
  destruct (odd_decomposition n Hsel) as (_ & _ & Hd & _).
  destruct (halve_while_even (n - 1) 0) as [d r]. cbn [fst snd] in Hd. cbv zeta. cbn [fst].
  f_equal.
  assert (Hf : filter (fun x => x <? n) [2; 3; 5; 7] = [2; 3; 5; 7]).
  { cbn [filter]. repeat (match goal with |- context [?a <? n] =>
      replace (a <? n) with true by (symmetry; apply Z.ltb_lt; lia) end). reflexivity. }
  rewrite Hf. unfold passes. cbn [forallb].
  assert (Hc : forall q, 1 < q -> n mod q = 0 -> _IsDefinitelyComposite q n d r = true).
  { intros q Hq Hm. apply (shared_factor_composite q); [lia | apply Z.divide_refl | | lia].
    apply Z.mod_divide; lia. }
  destruct Hdiv as [H | [H | H]].
  - rewrite (Hc 3 ltac:(lia) H). cbn [negb andb]. now rewrite ?andb_false_r.
  - rewrite (Hc 5 ltac:(lia) H). cbn [negb andb]. now rewrite ?andb_false_r.
  - rewrite (Hc 7 ltac:(lia) H). cbn [negb andb]. now rewrite ?andb_false_r.
Qed.

Lemma multiples_of_3_5_7_rejected_witness :
  fst (IsPrime ref_log 3215031745 (fresh default_max_cumulative_error_probability (fun _ => 0)))
  = Return false.
Proof.
  apply (multiples_of_3_5_7_rejected ref_log 3215031745); [unfold threshold; lia | reflexivity |].
  right. left. reflexivity.
Defined.

(** The opportunity count is the count it started with plus the number of
    randomized calls that returned [True]; at most one per call. *)
Theorem opportunity_count_counts_true_verdicts (libm_log : float -> float) (ns : list Z) :
  forall w : world,
  _error_opportunity_count (self (run_calls libm_log ns w))
  = _error_opportunity_count (self w) + true_randomized_verdicts libm_log ns w
  /\ 0 <= true_randomized_verdicts libm_log ns w <= Z.of_nat (length ns).
Proof.
  induction ns as [| n ns IH]; intros w; cbn [run_calls true_randomized_verdicts length].
  - lia.
  - destruct (IH (snd (IsPrime libm_log n w))) as [E B]. rewrite E.
    pose proof (IsPrime_cases libm_log n w) as H.
    destruct (IsPrime libm_log n w) as [o w']. cbn [fst snd] in *.
    destruct H as [(Hs & -> & ->) | [(Hs & Hlt & v & -> & Hself & _)
                  | [(Hs & _ & e & _ & -> & ->) | (Hs & Hge & a & k & v & _ & _ & -> & Hself & _)]]].
    + assert (Hn : (if n =? 2 then (if n <? threshold then 0 else 1) else 0) = 0).
      { destruct (n =? 2) eqn:E2; [| reflexivity]. apply Z.eqb_eq in E2. subst n. reflexivity. }
      destruct (n =? 2); rewrite ?Hn; lia.
    + rewrite Hself. apply Z.ltb_lt in Hlt. rewrite Hlt. destruct v; lia.
    + lia.
    + rewrite Hself. assert (Hnl : (n <? threshold) = false) by (apply Z.ltb_ge; lia).
      rewrite Hnl. destruct v; cbn [charged _error_opportunity_count]; lia.
Qed.

(** A call in the deterministic regime does not depend on the checker, the
    random source or the C library: it returns the same verdict in any two
    worlds, never raises, draws nothing and creates no [Reporter]. *)
Theorem deterministic_regime_ignores_state
  (log1 log2 : float -> float) (n : Z) (w1 w2 : world) :
  n < threshold ->
  fst (IsPrime log1 n w1) = fst (IsPrime log2 n w2)
  /\ (exists v, fst (IsPrime log1 n w1) = Return v)
  /\ self (snd (IsPrime log1 n w1)) = self w1
  /\ drawn (snd (IsPrime log1 n w1)) = drawn w1
  /\ reporters (snd (IsPrime log1 n w1)) = reporters w1.
Proof.
  intros Hlt. destruct (reaches_selection n) eqn:Hsel.
  - rewrite (IsPrime_deterministic log1), (IsPrime_deterministic log2) by assumption.
    destruct (halve_while_even (n - 1) 0) as [d r]. cbv zeta. cbn [fst snd self drawn reporters].
    repeat split; eauto.
  - rewrite (IsPrime_early log1), (IsPrime_early log2) by assumption.
    cbn [fst snd]. repeat split; eauto.
Qed.

Lemma deterministic_regime_ignores_state_witness :
  let w1 := fresh default_max_cumulative_error_probability (fun _ => 0) in
  let w2 := run_calls ref_log [3215031751; 3221225473] (fresh 0x1p-3 (fun _ => 5)) in
  fst (IsPrime ref_log 2147483647 w1) = fst (IsPrime (fun _ => nan) 2147483647 w2)
  /\ (exists v, fst (IsPrime ref_log 2147483647 w1) = Return v)
  /\ self (snd (IsPrime ref_log 2147483647 w1)) = self w1
  /\ drawn (snd (IsPrime ref_log 2147483647 w1)) = drawn w1
  /\ reporters (snd (IsPrime ref_log 2147483647 w1)) = reporters w1.
Proof.
  apply (deterministic_regime_ignores_state ref_log (fun _ => nan) 2147483647). reflexivity.
Defined.

(** * The budget is never used up *)

(** A double of at least [2^-900] and the double just below it. *)
Lemma float_pred_exists M :
  finite_nonneg M = true -> 2 ^ 174 <= B2Z M ->
  exists mp k, 2 ^ 52 <= mp < 2 ^ 53 /\ 121 <= k /\ B2Z M = mp * 2 ^ k + 2 ^ k.
Proof.
  unfold finite_nonneg, B2Z. pose proof (Prim2SF_valid M) as Hv.
  destruct (Prim2SF M) as [s | s | | s m e]; cbn [nonneg_finite SFscaled]; try discriminate.
  { intros _ H. assert (0 < 2 ^ 174) by (apply Z.pow_pos_nonneg; lia). lia. }
  destruct s; [discriminate |]. intros _ HM. cbn [cond_Zopp] in *.
  destruct (valid_finite_bounds _ _ _ Hv) as (He & Hm & Hn).
  assert (HpE : 0 < 2 ^ (e + 1074)) by (apply Z.pow_pos_nonneg; lia).
  assert (Hm52 : 2 ^ 52 <= Z.pos m).
  { destruct Hn as [-> | Hn]; [| exact Hn]. exfalso.
    change (-1074 + 1074) with 0 in HM. rewrite Z.pow_0_r in HM.
    assert (2 ^ 53 < 2 ^ 174) by (apply Z.pow_lt_mono_r; lia). lia. }
  assert (HE : 122 <= e + 1074).
  { destruct (Z_lt_ge_dec (e + 1074) 122) as [Hlt | Hge]; [exfalso | lia].
    assert (2 ^ (e + 1074) <= 2 ^ 121) by (apply Z.pow_le_mono_r; lia).
    assert (E174 : 2 ^ 174 = 2 ^ 53 * 2 ^ 121) by (rewrite <- Z.pow_add_r by lia; reflexivity).
    assert (0 < 2 ^ 53) by (apply Z.pow_pos_nonneg; lia). nia. }
  destruct (Z.eq_dec (Z.pos m) (2 ^ 52)) as [Em | Em].
  - exists (2 ^ 53 - 1), (e + 1074 - 1).
    assert (E53 : 2 ^ 53 = 2 * 2 ^ 52) by reflexivity.
    assert (EE : 2 ^ (e + 1074) = 2 * 2 ^ (e + 1074 - 1)).
    { replace (e + 1074) with (1 + (e + 1074 - 1)) at 1 by lia.
      rewrite Z.pow_add_r by lia. reflexivity. }
    assert (0 < 2 ^ 52) by (apply Z.pow_pos_nonneg; lia).
    split; [lia |]. split; [lia |]. rewrite Em, EE, E53. ring.
  - exists (Z.pos m - 1), (e + 1074). split; [lia |]. split; [lia |]. ring.
Qed.

(** No double lies strictly between a double and the next one. *)
Lemma float_below_pred c mp k :
  finite_nonneg c = true -> 2 ^ 52 <= mp -> 0 <= k ->
  B2Z c < mp * 2 ^ k + 2 ^ k -> B2Z c <= mp * 2 ^ k.
Proof.
  intros Hc Hmp Hk. revert Hc.
  unfold finite_nonneg, B2Z. pose proof (Prim2SF_valid c) as Hv.
  assert (Hpk : 0 < 2 ^ k) by (apply Z.pow_pos_nonneg; lia).
  assert (H52 : 0 < 2 ^ 52) by (apply Z.pow_pos_nonneg; lia).
  destruct (Prim2SF c) as [s | s | | s m e]; cbn [nonneg_finite SFscaled]; try discriminate.
  { intros _ _. nia. }
  destruct s; [discriminate |]. intros _ Hlt. cbn [cond_Zopp] in *.
  destruct (valid_finite_bounds _ _ _ Hv) as (He & Hm & _).
  destruct (Z_lt_ge_dec (e + 1074) k) as [Hlo | Hhi].
  - assert (Hp : 2 ^ (e + 1074) <= 2 ^ (k - 1)) by (apply Z.pow_le_mono_r; lia).
    assert (Ek : 2 ^ k = 2 * 2 ^ (k - 1)).
    { replace k with (1 + (k - 1)) at 1 by lia. rewrite Z.pow_add_r by lia. reflexivity. }
    assert (0 < 2 ^ (e + 1074)) by (apply Z.pow_pos_nonneg; lia).
    assert (E53 : 2 ^ 53 = 2 * 2 ^ 52) by reflexivity.
    assert (Z.pos m * 2 ^ (e + 1074) <= 2 ^ 53 * 2 ^ (k - 1)) by nia.
    nia.
  - assert (Ee : 2 ^ (e + 1074) = 2 ^ (e + 1074 - k) * 2 ^ k).
    { rewrite <- Z.pow_add_r by lia. f_equal. lia. }
    rewrite Ee, Z.mul_assoc in *. set (q := Z.pos m * 2 ^ (e + 1074 - k)) in *.
    clearbody q. clear Ee.
    assert (Hq : q < mp + 1).
    { apply (Z.mul_lt_mono_pos_r (2 ^ k)); [exact Hpk |]. lia. }
    apply Z.mul_le_mono_nonneg_r; lia.
Qed.

(** Rounding a number less than half a step above a double gives that double. *)
Lemma rnd_near_below mp k t :
  2 ^ 52 <= mp < 2 ^ 53 -> 0 <= k -> 0 <= t -> 2 * t < 2 ^ k ->
  rnd (mp * 2 ^ k + t) 1 = mp * 2 ^ k.
Proof.
  intros Hmp Hk Ht Hhalf. unfold rnd. cbv zeta.
  assert (Hpk : 0 < 2 ^ k) by (apply Z.pow_pos_nonneg; lia).
  rewrite Z.div_1_r.
  assert (Hd : Zdigits2 (mp * 2 ^ k + t) = 53 + k).
  { apply Zdigits2_unique; [nia |].
    replace (53 + k - 1) with (52 + k) by lia. rewrite !Z.pow_add_r by lia. nia. }
  rewrite Hd. replace (Z.max (53 + k - 53) 0) with k by lia.
  rewrite Z.mul_1_l. unfold RNE.
  assert (Hq : (mp * 2 ^ k + t) / 2 ^ k = mp).
  { rewrite Z.div_add_l by lia. rewrite Z.div_small by lia. lia. }
  assert (Hr : (mp * 2 ^ k + t) mod 2 ^ k = t).
  { rewrite Z.add_comm, Z.mod_add by lia. apply Z.mod_small. lia. }
  rewrite Hq, Hr.
  destruct (Z.compare_spec (2 * t) (2 ^ k)); lia.
Qed.

Lemma rnd_repr m k : 0 <= m < 2 ^ 53 -> 0 <= k -> rnd (m * 2 ^ k) 1 = m * 2 ^ k.
Proof.
  intros Hm Hk. pose proof (rnd_exact m k 1 Hm Hk ltac:(lia)) as H.
  now rewrite Z.mul_1_r in H.
Qed.

Lemma rnd_pow2 k : 0 <= k -> rnd (2 ^ k) 1 = 2 ^ k.
Proof.
  intros Hk. pose proof (rnd_repr 1 k ltac:(lia) Hk) as H. now rewrite Z.mul_1_l in H.
Qed.

Lemma budget_open_respected s : budget_open s -> budget_respected s.
Proof.
  intros (HM & _ & Hc & Hlt). split; [exact Hc |]. left. split; [exact HM | lia].
Qed.

(** The allowance of an open budget: at most a twenty-fifth of what is left,
    and positive while the count is at most [2^120]. *)
Lemma allowance_of_open_budget s a :
  budget_open s -> acceptable_error_probability s = Return a ->
  finite_nonneg a = true
  /\ 25 * B2Z a <= B2Z (_max_cumulative_error s) - B2Z (_cumulative_error_sofar s)
  /\ (_error_opportunity_count s <= 2 ^ 120 -> 1 <= B2Z a).
Proof.
  intros (HM & HM107 & Hc & Hlt) Ha.
  destruct (acceptable_finite s a Hc HM ltac:(lia) Ha) as (Haf & Ba & _).
  split; [exact Haf |]. rewrite Ba. unfold allowance_value.
  set (BM := B2Z (_max_cumulative_error s)) in *.
  set (Bc := B2Z (_cumulative_error_sofar s)) in *.
  set (d := Z.max 100 (_error_opportunity_count s)).
  assert (Hp : 0 < 2 ^ 1074) by (apply Z.pow_pos_nonneg; lia).
  pose proof (rnd_times_ge d 100 ltac:(lia) ltac:(lia)) as Hd100.
  pose proof (rnd_twice (BM - Bc) 1 ltac:(lia) ltac:(lia)) as HG2.
  pose proof (rnd_nonneg (BM - Bc) 1 ltac:(lia) ltac:(lia)) as HG0.
  set (G := rnd (BM - Bc) 1) in *. set (Bd := rnd (d * 2 ^ 1074) 1) in *.
  pose proof (rnd_twice (G * 2 ^ 1074) Bd ltac:(nia) ltac:(lia)) as HA2.
  pose proof (rnd_nonneg (G * 2 ^ 1074) Bd ltac:(nia) ltac:(lia)) as HA0.
  split.
  - set (A := rnd (G * 2 ^ 1074) Bd) in *. clearbody A G Bd. nia.
  - intros Hcount.
    destruct (float_pred_exists _ HM HM107) as (mp & k & Hmp & Hk & EM). fold BM in EM.
    pose proof (float_below_pred _ mp k Hc ltac:(lia) ltac:(lia) ltac:(fold Bc; lia)) as Hcp.
    fold Bc in Hcp.
    assert (Hpk : 0 < 2 ^ k) by (apply Z.pow_pos_nonneg; lia).
    assert (HGk : 2 ^ k <= G).
    { unfold G. rewrite <- (rnd_pow2 k) at 1 by lia. apply rnd_mono; lia. }
    pose proof (rnd_twice (d * 2 ^ 1074) 1 ltac:(nia) ltac:(lia)) as HBd2. fold Bd in HBd2.
    assert (H121 : 2 ^ 121 <= 2 ^ k) by (apply Z.pow_le_mono_r; lia).
    assert (E121 : 2 ^ 121 = 2 * 2 ^ 120) by reflexivity.
    assert (H120 : 100 <= 2 ^ 120) by (vm_compute; discriminate).
    replace 1 with (rnd (1 * 2 ^ 0 * Bd) Bd) at 1 by (apply rnd_exact; lia).
    apply rnd_mono; try lia. rewrite Z.pow_0_r.
    assert (Hd : d <= 2 ^ 120) by lia.
    assert (Bd <= G * 2 ^ 1074) by nia. nia.
Qed.

(** [Report(True)] leaves the sum strictly below the ceiling. *)
Lemma charged_keeps_open s a :
  budget_open s -> acceptable_error_probability s = Return a -> budget_open (charged s a).
Proof.
  intros Hopen Ha. pose proof Hopen as (HM & HM107 & Hc & Hlt).
  destruct (allowance_of_open_budget s a Hopen Ha) as (Haf & H25 & _).
  unfold budget_open, charged. cbn [_max_cumulative_error _cumulative_error_sofar].
  split; [exact HM |]. split; [exact HM107 |].
  set (BM := B2Z (_max_cumulative_error s)) in *.
  set (Bc := B2Z (_cumulative_error_sofar s)) in *.
  destruct (float_pred_exists _ HM HM107) as (mp & k & Hmp & Hk & EM). fold BM in EM.
  pose proof (float_below_pred _ mp k Hc ltac:(lia) ltac:(lia) ltac:(fold Bc; lia)) as Hcp.
  fold Bc in Hcp.
  assert (Hpk : 0 < 2 ^ k) by (apply Z.pow_pos_nonneg; lia).
  pose proof (B2Z_nonneg _ Hc) as Hc0. fold Bc in Hc0.
  pose proof (B2Z_nonneg _ Haf) as Ha0.
  pose proof (B2Z_lt_OVF _ HM) as HMo. fold BM in HMo.
  pose proof (add_B2Z _ _ Hc Haf) as Hadd. fold Bc in Hadd.
  assert (Hsum : rnd (Bc + B2Z a) 1 <= mp * 2 ^ k).
  { destruct (Z_le_gt_dec (Bc + B2Z a) (mp * 2 ^ k)) as [Hle | Hgt].
    - rewrite <- (rnd_repr mp k) by lia. apply rnd_mono; lia.
    - replace (Bc + B2Z a) with (mp * 2 ^ k + (Bc + B2Z a - mp * 2 ^ k)) by ring.
      rewrite rnd_near_below by lia. lia. }
  destruct (rounds_to_B2Z _ _ Hadd ltac:(lia)) as [Hf B].
  split; [exact Hf |]. rewrite B. lia.
Qed.

Section OpenBudget.

Variable libm_log : float -> float.

Lemma IsPrime_keeps_open n w :
  budget_open (self w) -> budget_open (self (snd (IsPrime libm_log n w))).
Proof.
  intros Hopen. pose proof (IsPrime_cases libm_log n w) as H.
  destruct (IsPrime libm_log n w) as [o w']. cbn [snd].
  destruct H as [(_ & _ & ->) | [(_ & _ & v & _ & Hself & _)
                | [(_ & _ & e & _ & _ & ->) | (_ & _ & a & k & v & Ha & _ & _ & Hself & _)]]];
    try assumption; rewrite Hself; [assumption |].
  destruct v; [now apply charged_keeps_open | assumption].
Qed.

Lemma run_calls_keeps_open ns : forall w,
  budget_open (self w) -> budget_open (self (run_calls libm_log ns w)).
Proof.
  induction ns as [| n ns IH]; intros w H; cbn [run_calls]; [exact H |].
  apply IH, IsPrime_keeps_open, H.
Qed.

Lemma run_calls_count ns : forall w,
  _error_opportunity_count (self (run_calls libm_log ns w))
  <= _error_opportunity_count (self w) + Z.of_nat (length ns).
Proof.
  induction ns as [| n ns IH]; intros w; cbn [run_calls length]; [lia |].
  specialize (IH (snd (IsPrime libm_log n w))).
  pose proof (IsPrime_cases libm_log n w) as H.
  destruct (IsPrime libm_log n w) as [o w']. cbn [snd] in *.
  destruct H as [(_ & _ & ->) | [(_ & _ & v & _ & Hself & _)
                | [(_ & _ & e & _ & _ & ->) | (_ & _ & a & k & v & _ & _ & _ & Hself & _)]]];
    try lia; rewrite Hself in IH; try lia.
  destruct v; cbn [charged _error_opportunity_count] in IH; lia.
Qed.

End OpenBudget.

Lemma acceptable_returns s :
  _error_opportunity_count s <= 2 ^ 120 ->
  exists a, acceptable_error_probability s = Return a.
Proof.
  intros Hcount. unfold acceptable_error_probability, float_of_int. cbv zeta.
  set (d := Z.max 100 (_error_opportunity_count s)).
  assert (H120 : 100 <= 2 ^ 120) by (vm_compute; discriminate).
  assert (Hd : 0 <= d <= 2 ^ 120) by lia.
  pose proof (float_of_Z_B2Z d ltac:(lia)) as Hr.
  assert (Hp : 0 < 2 ^ 1074) by (apply Z.pow_pos_nonneg; lia).
  pose proof (rnd_twice (d * 2 ^ 1074) 1 ltac:(nia) ltac:(lia)) as H2.
  assert (Hlt : rnd (d * 2 ^ 1074) 1 < OVF).
  { unfold OVF.
    assert (E2 : 2 ^ 2098 = 2 ^ 1024 * 2 ^ 1074) by (rewrite <- Z.pow_add_r by lia; reflexivity).
    assert (2 * 2 ^ 120 < 2 ^ 1024) by (vm_compute; reflexivity). nia. }
  destruct (rounds_to_B2Z _ _ Hr Hlt) as [Hf _].
  rewrite (finite_nonneg_not_infinity _ Hf). eauto.
Qed.

Lemma budget_open_init M :
  (0x1p-900 <=? M)%float = true -> (M <? infinity)%float = true -> budget_open (init M).
Proof.
  intros Hlo Hhi.
  assert (Hf : finite_nonneg M = true).
  { rewrite leb_spec in Hlo. rewrite ltb_spec in Hhi.
    change (Prim2SF infinity) with (S754_infinity false) in Hhi. unfold finite_nonneg.
    destruct (Prim2SF M) as [s | s | | s m e]; try destruct s; cbn in *; congruence. }
  unfold budget_open, init. cbn [_max_cumulative_error _cumulative_error_sofar].
  rewrite leb_B2Z in Hlo by (reflexivity || assumption). apply Z.leb_le in Hlo.
  assert (E : B2Z 0x1p-900 = 2 ^ 174) by (vm_compute; reflexivity).
  rewrite E in Hlo. change (B2Z 0) with 0.
  assert (0 < 2 ^ 174) by (apply Z.pow_pos_nonneg; lia).
  repeat split; try assumption; try reflexivity; lia.
Qed.

(** With a finite ceiling of at least [2^-900], the running sum stays
    strictly below the ceiling and the allowance of lines 55-57 stays positive
    and finite, throughout the first [2^120] calls: the budget is never used
    up, and [math.log] never gets a non-positive allowance. *)
Theorem budget_never_exhausted
  (libm_log : float -> float) (M : float) (e : nat -> Z) (ns : list Z) :
  (0x1p-900 <=? M)%float = true -> (M <? infinity)%float = true ->
  Z.of_nat (length ns) <= 2 ^ 120 ->
  let s := self (run_calls libm_log ns (fresh M e)) in
  (_cumulative_error_sofar s <? _max_cumulative_error s)%float = true
  /\ exists a, acceptable_error_probability s = Return a
               /\ (0 <? a)%float = true /\ (a <? infinity)%float = true.
Proof.
  intros Hlo Hhi Hlen. cbv zeta.
  pose proof (run_calls_keeps_open libm_log ns (fresh M e) (budget_open_init M Hlo Hhi)) as Hopen.
  pose proof (run_calls_count libm_log ns (fresh M e)) as Hcount.
  cbn [fresh self init _error_opportunity_count] in Hcount.
  set (s := self (run_calls libm_log ns (fresh M e))) in *.
  destruct (acceptable_returns s ltac:(lia)) as [a Ha].
  destruct (allowance_of_open_budget s a Hopen Ha) as (Haf & _ & Hpos).
  specialize (Hpos ltac:(lia)).
  destruct Hopen as (HM & _ & Hc & Hlt).
  split; [rewrite ltb_B2Z by assumption; now apply Z.ltb_lt |].
  exists a. split; [exact Ha |]. split.
  - rewrite ltb_B2Z by (reflexivity || assumption). change (B2Z 0) with 0. apply Z.ltb_lt. lia.
  - rewrite ltb_spec. change (Prim2SF infinity) with (S754_infinity false).
    unfold finite_nonneg in Haf.
    destruct (Prim2SF a) as [sg | sg | | sg m e']; try destruct sg; cbn in *; congruence.
Qed.

Lemma budget_never_exhausted_witness :
  let s := self (run_calls ref_log [3221225473; 3215031751; 3221225473]
                   (fresh default_max_cumulative_error_probability (fun _ => 1))) in
  (_cumulative_error_sofar s <? _max_cumulative_error s)%float = true
  /\ exists a, acceptable_error_probability s = Return a
               /\ (0 <? a)%float = true /\ (a <? infinity)%float = true.
Proof.
  apply (budget_never_exhausted ref_log default_max_cumulative_error_probability
           (fun _ => 1) [3221225473; 3215031751; 3221225473]);
    [reflexivity | reflexivity | cbn; lia].
Defined.

(** * No exception under a finite logarithm *)

Lemma is_finite_spec x : is_finite x = SF_finite (Prim2SF x).
Proof.
  unfold is_finite. rewrite is_nan_spec, is_infinity_spec.
  now destruct (Prim2SF x).
Qed.

Lemma SFdiv_by_at_least_one x my ey :
  valid_binary x = true -> SF_finite x = true ->
  valid_binary (S754_finite false my ey) = true ->
  2 ^ 1074 <= SFscaled (S754_finite false my ey) ->
  SF_finite (SFdiv prec emax x (S754_finite false my ey)) = true.
Proof.
  intros Hvx Hx Hvy Hy.
  assert (Hpos : forall mx ex, valid_binary (S754_finite false mx ex) = true ->
            SF_finite (SFdiv prec emax (S754_finite false mx ex) (S754_finite false my ey)) = true).
  { intros mx ex Hv.
    pose proof (SFdiv_rnd (S754_finite false mx ex) my ey Hv Hvy eq_refl) as Hr.
    pose proof (valid_scaled_lt_OVF _ _ Hv) as [Hx0 Hxo].
    assert (Hp : 0 < 2 ^ 1074) by (apply Z.pow_pos_nonneg; lia).
    set (Bx := SFscaled (S754_finite false mx ex)) in *.
    set (By := SFscaled (S754_finite false my ey)) in *.
    assert (EBx : Bx = Z.pos mx * 2 ^ (ex + 1074)) by reflexivity.
    assert (Hle : rnd (Bx * 2 ^ 1074) By <= Bx).
    { pose proof (rnd_self (S754_finite false mx ex) Hv eq_refl) as Hs. fold Bx in Hs.
      rewrite <- Hs at 2. apply rnd_mono; nia. }
    destruct (rounds_to_finite _ _ Hr ltac:(lia)) as [Hnf _].
    destruct (SFdiv prec emax (S754_finite false mx ex) (S754_finite false my ey));
      cbn in *; congruence. }
  destruct x as [sx | sx | | sx mx ex]; try discriminate.
  - reflexivity.
  - destruct sx; [| now apply Hpos].
    specialize (Hpos mx ex Hvx). unfold SFdiv in *.
    destruct (SFdiv_core_binary prec emax (Z.pos mx) ex (Z.pos my) ey) as [[m e] l].
    cbn [xorb] in *. rewrite binary_round_aux_sign.
    destruct (binary_round_aux prec emax false m e l); cbn in *; congruence.
Qed.

Section FiniteLog.

Variable libm_log : float -> float.
Hypothesis libm_log_finite : finite_log libm_log.

(** Lines 59 on a positive finite allowance: a witness count exists. *)
Lemma witness_count_returns a :
  (0 <? a)%float = true -> (a <? infinity)%float = true ->
  exists k, witness_count libm_log a = Return k.
Proof.
  intros Ha0 Hai. destruct libm_log_finite as [Hfin H4].
  pose proof (Hfin a Ha0 Hai) as Hl. rewrite is_finite_spec in Hl.
  assert (H4f : (libm_log 4 <? infinity)%float = true).
  { pose proof (Hfin 4%float eq_refl eq_refl) as H. rewrite is_finite_spec in H.
    rewrite leb_spec in H4. rewrite ltb_spec.
    change (Prim2SF 1) with (S754_finite false 4503599627370496 (-52)) in H4.
    change (Prim2SF infinity) with (S754_infinity false).
    destruct (Prim2SF (libm_log 4)) as [s | s | | s m e]; try destruct s; cbn in *; congruence. }
  destruct (at_least_one_shape _ H4 H4f) as [H4n H4B].
  assert (Hp : 0 < 2 ^ 1074) by (apply Z.pow_pos_nonneg; lia).
  destruct (positive_finite_shape _ H4n ltac:(lia)) as (m4 & e4 & E4).
  assert (Hm : m_log libm_log a = Return (libm_log a)).
  { unfold m_log, is_finite. rewrite is_nan_spec, is_infinity_spec, positive_float_spec.
    rewrite ltb_spec in Ha0, Hai. change (Prim2SF 0) with (S754_zero false) in Ha0.
    change (Prim2SF infinity) with (S754_infinity false) in Hai.
    destruct (Prim2SF a) as [s | s | | s m e]; try destruct s; cbn in *; congruence. }
  unfold witness_count, math_log. rewrite Hm, m_log_4.
  assert (Hden : (libm_log 4 =? 0)%float = false) by (rewrite eqb_spec, E4; reflexivity).
  rewrite Hden. unfold math_ceil. rewrite opp_spec, div_spec. unfold SF64div. rewrite E4.
  pose proof (Prim2SF_valid (libm_log 4)) as Hv4. rewrite E4 in Hv4.
  unfold B2Z in H4B. rewrite E4 in H4B.
  pose proof (SFdiv_by_at_least_one _ m4 e4 (Prim2SF_valid (libm_log a)) Hl Hv4 H4B) as Hq.
  destruct (SFdiv prec emax (Prim2SF (libm_log a)) (S754_finite false m4 e4)); cbn in *;
    try discriminate; eauto.
Qed.

End FiniteLog.

Lemma finite_ref_log_finite : finite_log finite_ref_log.
Proof.
  split; [| vm_compute; reflexivity].
  intros x _ _. unfold finite_ref_log. cbv zeta.
  destruct (is_finite (ref_log x)) eqn:E; [exact E | reflexivity].
Qed.

(** A call on an open budget returns, under a finite logarithm. *)
Lemma IsPrime_returns_open (libm_log : float -> float) (n : Z) (w : world) :
  finite_log libm_log -> budget_open (self w) ->
  _error_opportunity_count (self w) <= 2 ^ 120 ->
  exists v, fst (IsPrime libm_log n w) = Return v.
Proof.
  intros Hlog Hopen Hcount.
  pose proof (IsPrime_cases libm_log n w) as H.
  destruct (IsPrime libm_log n w) as [o w']. cbn [fst].
  destruct H as [(_ & -> & _) | [(_ & _ & v & -> & _)
                | [(_ & _ & ex & Hal & _ & _) | (_ & _ & a & k & v & _ & _ & -> & _)]]];
    eauto.
  exfalso. unfold allocation in Hal.
  destruct (acceptable_returns (self w) Hcount) as [a Ha]. rewrite Ha in Hal.
  destruct (allowance_of_open_budget (self w) a Hopen Ha) as (Haf & _ & Hpos).
  specialize (Hpos Hcount).
  assert (Ha0 : (0 <? a)%float = true).
  { rewrite ltb_B2Z by (reflexivity || assumption). change (B2Z 0) with 0. apply Z.ltb_lt. lia. }
  assert (Hai : (a <? infinity)%float = true).
  { rewrite ltb_spec. change (Prim2SF infinity) with (S754_infinity false).
    unfold finite_nonneg in Haf.
    destruct (Prim2SF a) as [sg | sg | | sg m e']; try destruct sg; cbn in *; congruence. }
  destruct (witness_count_returns libm_log Hlog a Ha0 Hai) as [k Hk]. congruence.
Qed.

(** With a finite ceiling of at least [2^-900] and a C library whose [log] is
    finite on finite positive doubles, with [log(4.0) >= 1], none of the
    first [2^120] calls on a checker raises. *)
Theorem IsPrime_never_raises
  (libm_log : float -> float) (M : float) (e : nat -> Z) (ns : list Z) (n : Z) :
  finite_log libm_log ->
  (0x1p-900 <=? M)%float = true -> (M <? infinity)%float = true ->
  Z.of_nat (length ns) <= 2 ^ 120 ->
  exists v, fst (IsPrime libm_log n (run_calls libm_log ns (fresh M e))) = Return v.
Proof.
  intros Hlog Hlo Hhi Hlen.
  pose proof (run_calls_keeps_open libm_log ns (fresh M e) (budget_open_init M Hlo Hhi)) as Hopen.
  pose proof (run_calls_count libm_log ns (fresh M e)) as Hcount.
  cbn [fresh self init _error_opportunity_count] in Hcount.
  apply IsPrime_returns_open; [exact Hlog | exact Hopen | lia].
Qed.

Lemma IsPrime_never_raises_witness :
  exists v, fst (IsPrime finite_ref_log 3221225473
                   (run_calls finite_ref_log [3221225473; 3215031751; 15]
                      (fresh default_max_cumulative_error_probability (fun _ => 1))))
            = Return v.
Proof.
  apply (IsPrime_never_raises finite_ref_log default_max_cumulative_error_probability
           (fun _ => 1) [3221225473; 3215031751; 15] 3221225473);
    [exact finite_ref_log_finite | reflexivity | reflexivity | cbn; lia].
Defined.

(** * The strings, sets and dictionary of [Doit] *)

(** ** Decimal strings *)

Lemma digit_chr_cases d :
  0 <= d < 10 ->
  digit_val (digit_chr d) = Some d /\ is_space (digit_chr d) = false
  /\ Ascii.eqb (digit_chr d) "-"%char = false /\ Ascii.eqb (digit_chr d) "+"%char = false.
Proof.
  intros H.
  assert (C : d = 0 \/ d = 1 \/ d = 2 \/ d = 3 \/ d = 4 \/ d = 5 \/ d = 6 \/ d = 7 \/ d = 8 \/ d = 9)
    by lia.
  repeat (destruct C as [-> | C]; [repeat split; reflexivity |]). subst d. repeat split; reflexivity.
Qed.

Lemma append_assoc s t u :
  String.append (String.append s t) u = String.append s (String.append t u).
Proof. induction s as [| c s IH]; cbn [String.append]; [reflexivity | now rewrite IH]. Qed.

Lemma append_nil_r s : String.append s String.EmptyString = s.
Proof. induction s as [| c s IH]; cbn [String.append]; [reflexivity | now rewrite IH]. Qed.

Lemma decimal_append f : forall n acc,
  decimal f n acc = String.append (decimal f n String.EmptyString) acc.
Proof.
  induction f as [| f IH]; intros n acc; cbn [decimal]; [reflexivity |].
  destruct (n <? 10); [reflexivity |].
  rewrite (IH _ (String.String _ acc)), (IH _ (String.String _ String.EmptyString)).
  rewrite append_assoc. reflexivity.
Qed.

Lemma decimal_S f n acc :
  decimal (S f) n acc
  = if n <? 10 then String.String (digit_chr (n mod 10)) acc
    else decimal f (n / 10) (String.String (digit_chr (n mod 10)) acc).
Proof. reflexivity. Qed.

(** Reading back the digits [decimal] writes. *)
Lemma parse_decimal f : forall p w acc a b,
  1 <= w -> 0 <= p < 2 ^ (Z.of_nat f + 1) -> (10 ^ (w - 1) <= p \/ w = 1) -> p < 10 ^ w ->
  parse_digits (decimal (S f) p acc) a b = parse_digits acc (a * 10 ^ w + p) true.
Proof.
  induction f as [| f IH]; intros p w acc a b Hw Hp Hlo Hhi.
  - assert (Hp2 : p < 2) by (cbn in Hp; lia).
    cbn [decimal]. replace (p <? 10) with true by (symmetry; apply Z.ltb_lt; lia).
    assert (w = 1).
    { destruct Hlo as [Hlo | ->]; [| reflexivity].
      destruct (Z.eq_dec w 1) as [-> | Hne]; [reflexivity | exfalso].
      assert (10 ^ 1 <= 10 ^ (w - 1)) by (apply Z.pow_le_mono_r; lia). lia. }
    subst w. cbn [parse_digits]. rewrite Z.mod_small by lia.
    destruct (digit_chr_cases p ltac:(lia)) as (-> & _). f_equal. lia.
  - rewrite decimal_S. destruct (p <? 10) eqn:E.
    + apply Z.ltb_lt in E.
      assert (w = 1).
      { destruct Hlo as [Hlo | ->]; [| reflexivity].
        destruct (Z.eq_dec w 1) as [-> | Hne]; [reflexivity | exfalso].
        assert (10 ^ 1 <= 10 ^ (w - 1)) by (apply Z.pow_le_mono_r; lia). lia. }
      subst w. cbn [parse_digits]. rewrite Z.mod_small by lia.
      destruct (digit_chr_cases p ltac:(lia)) as (-> & _). f_equal. lia.
    + apply Z.ltb_ge in E.
      assert (Hw2 : 2 <= w).
      { destruct (Z_lt_ge_dec w 2) as [Hlt | Hge]; [exfalso | lia].
        assert (w = 1) by lia. subst w. lia. }
      assert (E10 : 10 ^ w = 10 * 10 ^ (w - 1)).
      { replace w with (1 + (w - 1)) at 1 by lia. rewrite Z.pow_add_r by lia. reflexivity. }
      assert (E10' : 10 ^ (w - 1) = 10 * 10 ^ (w - 1 - 1)).
      { replace (w - 1) with (1 + (w - 1 - 1)) at 1 by lia. rewrite Z.pow_add_r by lia. reflexivity. }
      assert (E2 : 2 ^ (Z.of_nat (S f) + 1) = 2 * 2 ^ (Z.of_nat f + 1)).
      { replace (Z.of_nat (S f) + 1) with (1 + (Z.of_nat f + 1)) by lia.
        rewrite Z.pow_add_r by lia. reflexivity. }
      pose proof (Z.div_mod p 10 ltac:(lia)) as Hdm.
      pose proof (Z.mod_pos_bound p 10 ltac:(lia)) as Hm.
      assert (0 < 10 ^ (w - 1 - 1)) by (apply Z.pow_pos_nonneg; lia).
      rewrite (IH (p / 10) (w - 1)) by lia.
      cbn [parse_digits].
      destruct (digit_chr_cases (p mod 10) Hm) as (-> & _). f_equal. nia.
Qed.

Lemma log2_fuel p : 0 <= p -> p < 2 ^ (Z.of_nat (Z.to_nat (Z.log2 p)) + 1).
Proof.
  intros Hp. rewrite Z2Nat.id by apply Z.log2_nonneg.
  destruct (Z.eq_dec p 0) as [-> | Hne]; [reflexivity |].
  pose proof (Z.log2_spec p ltac:(lia)). lia.
Qed.

(** [str p], followed by anything, read as digits: [p] has [w] digits. *)
Lemma parse_str p w rest a b :
  1 <= w -> 0 <= p -> (10 ^ (w - 1) <= p \/ w = 1) -> p < 10 ^ w ->
  parse_digits (String.append (str p) rest) a b = parse_digits rest (a * 10 ^ w + p) true.
Proof.
  intros Hw Hp Hlo Hhi. unfold str.
  replace (p <? 0) with false by (symmetry; apply Z.ltb_ge; lia).
  rewrite <- decimal_append. apply parse_decimal; auto. split; [lia | now apply log2_fuel].
Qed.

(** The width of a non-negative integer exists. *)
Lemma decimal_width p : 0 <= p -> exists w, 1 <= w /\ (10 ^ (w - 1) <= p \/ w = 1) /\ p < 10 ^ w.
Proof.
  intros Hp. pattern p. apply Z_lt_induction; [| exact Hp]. clear p Hp. intros p IH.
  destruct (Z_lt_ge_dec p 0) as [Hneg | Hp].
  { exists 1. cbn. lia. }
  destruct (Z_lt_ge_dec p 10) as [Hlt | Hge].
  - exists 1. split; [lia |]. split; [now right | cbn; lia].
  - pose proof (Z.div_mod p 10 ltac:(lia)) as Hdm.
    pose proof (Z.mod_pos_bound p 10 ltac:(lia)) as Hm.
    destruct (IH (p / 10) ltac:(lia)) as (w & Hw & Hlo & Hhi).
    exists (w + 1). replace (w + 1 - 1) with w by lia.
    assert (E10 : 10 ^ (w + 1) = 10 * 10 ^ w) by (rewrite Z.pow_add_r by lia; lia).
    split; [lia |]. split; [left | lia].
    destruct Hlo as [Hlo | ->]; [| cbn; lia].
    assert (E10' : 10 ^ w = 10 * 10 ^ (w - 1)).
    { replace w with (1 + (w - 1)) at 1 by lia. rewrite Z.pow_add_r by lia. reflexivity. }
    lia.
Qed.

Lemma no_space_decimal f : forall n acc,
  0 <= n -> no_space acc = true -> no_space (decimal f n acc) = true.
Proof.
  induction f as [| f IH]; intros n acc Hn Hacc; cbn [decimal]; [exact Hacc |].
  pose proof (Z.mod_pos_bound n 10 ltac:(lia)) as Hm.
  assert (Hs : no_space (String.String (digit_chr (n mod 10)) acc) = true).
  { cbn [no_space]. destruct (digit_chr_cases _ Hm) as (_ & -> & _). exact Hacc. }
  destruct (n <? 10); [exact Hs |]. apply IH; [| exact Hs].
  apply Z.div_pos; lia.
Qed.

Lemma no_space_append s t : no_space (String.append s t) = no_space s && no_space t.
Proof.
  induction s as [| c s IH]; cbn [String.append no_space]; [reflexivity |].
  rewrite IH. now rewrite andb_assoc.
Qed.

Lemma lstrip_no_space s : no_space s = true -> lstrip s = s.
Proof.
  destruct s as [| c t]; cbn [no_space lstrip]; [reflexivity |].
  destruct (is_space c); [discriminate | reflexivity].
Qed.

Lemma rstrip_no_space s : no_space s = true -> rstrip s = s.
Proof.
  induction s as [| c t IH]; cbn [no_space rstrip]; [reflexivity |].
  intros H. apply andb_true_iff in H. destruct H as [Hc Ht]. rewrite (IH Ht).
  destruct t; [| reflexivity]. apply negb_true_iff in Hc. now rewrite Hc.
Qed.

(** The first character of the digits of a non-negative integer. *)
Lemma decimal_head f n acc :
  0 <= n -> exists d t, 0 <= d < 10 /\ decimal (S f) n acc = String.String (digit_chr d) t.
Proof.
  revert n acc. induction f as [| f IH]; intros n acc Hn; cbn [decimal].
  - pose proof (Z.mod_pos_bound n 10 ltac:(lia)).
    destruct (n <? 10); eauto.
  - pose proof (Z.mod_pos_bound n 10 ltac:(lia)).
    destruct (n <? 10); [eauto |].
    apply (IH (n / 10)). apply Z.div_pos; lia.
Qed.

Lemma no_space_str z : no_space (str z) = true.
Proof.
  unfold str. destruct (z <? 0) eqn:E.
  - apply Z.ltb_lt in E. cbn [no_space]. apply no_space_decimal; [lia | reflexivity].
  - apply Z.ltb_ge in E. apply no_space_decimal; [lia | reflexivity].
Qed.

(** [int] on the digits of [nd] followed by those of [p]. *)
Lemma int_of_digits nd p w :
  0 <= nd -> 1 <= w -> 0 <= p -> (10 ^ (w - 1) <= p \/ w = 1) -> p < 10 ^ w ->
  int_of_str (String.append (str nd) (str p)) = Return (nd * 10 ^ w + p).
Proof.
  intros Hnd Hw Hp Hlo Hhi. unfold int_of_str.
  assert (Hns : no_space (String.append (str nd) (str p)) = true).
  { now rewrite no_space_append, !no_space_str. }
  rewrite (lstrip_no_space _ Hns), (rstrip_no_space _ Hns).
  destruct (decimal_width nd Hnd) as (wn & Hwn & Hlon & Hhin).
  assert (Hhead : exists d t, 0 <= d < 10
            /\ String.append (str nd) (str p) = String.String (digit_chr d) t).
  { unfold str at 1. replace (nd <? 0) with false by (symmetry; apply Z.ltb_ge; lia).
    destruct (decimal_head (Z.to_nat (Z.log2 nd)) nd String.EmptyString Hnd) as (d & t & Hd & ->).
    exists d. eexists. split; [exact Hd | reflexivity]. }
  destruct Hhead as (d & t & Hd & Eh).
  destruct (digit_chr_cases d Hd) as (_ & _ & Hm & Hpl).
  assert (Eb : (let (negative, digits) :=
                  match String.append (str nd) (str p) with
                  | String.EmptyString => (false, String.append (str nd) (str p))
                  | String.String c t0 =>
                      if Ascii.eqb c "-"%char then (true, t0)
                      else if Ascii.eqb c "+"%char then (false, t0)
                      else (false, String.append (str nd) (str p))
                  end in
                match parse_digits digits 0 false with
                | Some v => Return (if negative then - v else v)
                | None => Raise ValueError
                end)
               = match parse_digits (String.append (str nd) (str p)) 0 false with
                 | Some v => Return v
                 | None => Raise ValueError
                 end).
  { rewrite Eh at 1. rewrite Hm, Hpl. reflexivity. }
  rewrite Eb. rewrite (parse_str nd wn _ 0 false Hwn Hnd Hlon Hhin).
  rewrite <- (append_nil_r (str p)).
  rewrite (parse_str p w _ _ true Hw Hp Hlo Hhi). cbn [parse_digits]. f_equal; lia.
Qed.

(** ** Sets, dictionaries and sorting *)

Lemma existsb_eqb_In x s : existsb (Z.eqb x) s = true <-> In x s.
Proof.
  rewrite existsb_exists. split.
  - intros (y & Hin & E). apply Z.eqb_eq in E. now subst.
  - intros Hin. exists x. split; [exact Hin | apply Z.eqb_refl].
Qed.

Lemma set_add_In x c s : In x (set_add c s) <-> x = c \/ In x s.
Proof.
  unfold set_add. destruct (existsb (Z.eqb c) s) eqn:E.
  - apply existsb_eqb_In in E. split; [auto | intros [-> | H]; auto].
  - rewrite in_app_iff. cbn. split; [intros [H | [H | []]]; auto | intros [-> | H]; auto].
Qed.

Lemma set_add_NoDup c s : NoDup s -> NoDup (set_add c s).
Proof.
  intros H. unfold set_add. destruct (existsb (Z.eqb c) s) eqn:E; [exact H |].
  apply NoDup_app; [exact H | repeat constructor; auto | ].
  intros x Hin [<- | []]. apply existsb_eqb_In in Hin. congruence.
Qed.

Lemma set_add_length c s : (length (set_add c s) <= S (length s))%nat.
Proof.
  unfold set_add. destruct (existsb (Z.eqb c) s); [lia |]. rewrite length_app. cbn. lia.
Qed.

Lemma set_of_list_spec l : forall acc,
  NoDup acc ->
  NoDup (fold_left (fun s x => set_add x s) l acc)
  /\ (forall x, In x (fold_left (fun s x => set_add x s) l acc) <-> In x acc \/ In x l)
  /\ (length (fold_left (fun s x => set_add x s) l acc) <= length acc + length l)%nat.
Proof.
  induction l as [| a l IH]; intros acc Hacc; cbn [fold_left length].
  - split; [exact Hacc |]. split; [intros x; cbn; tauto | lia].
  - destruct (IH (set_add a acc) (set_add_NoDup a acc Hacc)) as (H1 & H2 & H3).
    split; [exact H1 |]. split.
    + intros x. rewrite H2, set_add_In. cbn. split; intros; intuition auto.
    + pose proof (set_add_length a acc). lia.
Qed.

Lemma dict_get_set d k v k' :
  dict_get (dict_set d k v) k' = if k' =? k then Some v else dict_get d k'.
Proof.
  induction d as [| [k0 v0] d IH]; cbn [dict_set dict_get].
  - rewrite (Z.eqb_sym k k'). reflexivity.
  - destruct (k0 =? k) eqn:E0; cbn [dict_get].
    + apply Z.eqb_eq in E0. subst k0. rewrite (Z.eqb_sym k k').
      destruct (k' =? k); reflexivity.
    + rewrite IH. destruct (k0 =? k') eqn:E1; [| reflexivity].
      apply Z.eqb_eq in E1. subst k0. rewrite E0. reflexivity.
Qed.

Lemma insert_sorted_perm x l : Permutation (insert_sorted x l) (x :: l).
Proof.
  induction l as [| y t IH]; cbn [insert_sorted]; [reflexivity |].
  destruct (x <=? y); [reflexivity |].
  rewrite IH. apply perm_swap.
Qed.

Lemma sorted_perm l : Permutation (sorted l) l.
Proof.
  induction l as [| x l IH]; cbn [sorted fold_right]; [reflexivity |].
  fold (sorted l). rewrite insert_sorted_perm. now constructor.
Qed.

Lemma insert_sorted_Sorted x l :
  StronglySorted Z.le l -> StronglySorted Z.le (insert_sorted x l).
Proof.
  induction l as [| y t IH]; intros H; cbn [insert_sorted].
  - repeat constructor.
  - destruct (x <=? y) eqn:E.
    + apply Z.leb_le in E. constructor; [exact H |].
      inversion H as [| ? ? Ht Hall]; subst. constructor; [exact E |].
      eapply Forall_impl; [| exact Hall]. intros a Ha. lia.
    + apply Z.leb_gt in E. inversion H as [| ? ? Ht Hall]; subst.
      constructor; [now apply IH |].
      rewrite Forall_forall. intros a Ha.
      apply (Permutation_in _ (insert_sorted_perm x t)) in Ha. destruct Ha as [<- | Ha]; [lia |].
      rewrite Forall_forall in Hall. now apply Hall.
Qed.

Lemma sorted_Sorted l : StronglySorted Z.le (sorted l).
Proof.
  induction l as [| x l IH]; cbn [sorted fold_right]; [constructor |].
  now apply insert_sorted_Sorted.
Qed.

(** Writing a digit [nd] in front of a number [p] of [w] digits, as line 95
    does with [int(str(nd) + str(p))], gives [nd * 10^w + p]: a number of
    [w + 1] digits whose first digit is [nd] and which is [p] again once
    that digit is cut off. *)
Theorem prepended_digit_truncates_back (nd p w : Z) :
  1 <= nd <= 9 -> 1 <= w < 4300 -> 10 ^ (w - 1) <= p < 10 ^ w ->
  exists cand, int_of_str (String.append (str nd) (str p)) = Return cand
    /\ cand = nd * 10 ^ w + p
    /\ 10 ^ w <= cand < 10 ^ (w + 1)
    /\ cand / 10 ^ w = nd /\ cand mod 10 ^ w = p.
Proof.
  intros Hnd Hw Hp. exists (nd * 10 ^ w + p).
  assert (Hpos : 0 < 10 ^ w) by (apply Z.pow_pos_nonneg; lia).
  assert (Hlo : 0 < 10 ^ (w - 1)) by (apply Z.pow_pos_nonneg; lia).
  split; [apply int_of_digits; lia |]. split; [reflexivity |].
  split; [rewrite Z.pow_add_r by lia; nia |].
  split.
  - rewrite Z.add_comm, Z.div_add by lia. rewrite Z.div_small by lia. lia.
  - rewrite Z.add_comm, Z.mod_add by lia. apply Z.mod_small. lia.
Qed.

Lemma prepended_digit_truncates_back_witness :
  exists cand, int_of_str (String.append (str 8) (str 103)) = Return cand
    /\ cand = 8 * 10 ^ 3 + 103
    /\ 10 ^ 3 <= cand < 10 ^ (3 + 1)
    /\ cand / 10 ^ 3 = 8 /\ cand mod 10 ^ 3 = 103.
Proof. apply (prepended_digit_truncates_back 8 103 3); cbn; lia. Defined.

Lemma StronglySorted_firstn_skipn (n : nat) (l : list Z) :
  StronglySorted Z.le l ->
  StronglySorted Z.le (firstn n l)
  /\ forall x y, In x (firstn n l) -> In y (skipn n l) -> x <= y.
Proof.
  revert l. induction n as [| n IH]; intros l H.
  - cbn. split; [constructor | intros x y []].
  - destruct l as [| a l]; cbn [firstn skipn].
    + split; [constructor | intros x y []].
    + apply StronglySorted_inv in H. destruct H as [Hs Hall].
      destruct (IH l Hs) as [IH1 IH2]. rewrite Forall_forall in Hall. split.
      * constructor; [exact IH1 |]. apply Forall_forall. intros x Hx.
        apply Hall. rewrite <- (firstn_skipn n l). apply in_or_app. now left.
      * intros x y [<- | Hx] Hy.
        -- apply Hall. rewrite <- (firstn_skipn n l). apply in_or_app. now right.
        -- now apply IH2.
Qed.

(** The line printed for a width names the count and the width, then the
    members of the set in ascending order: all of them when they are fewer
    than ten, otherwise the ten smallest followed by [", ..."], which is
    there already when the set has exactly ten members and all are listed. *)
Theorem report_line_lists_ten_smallest (current_prime_set : list Z) (width : Z) :
  exists shown rest,
    report_line current_prime_set width
    = String.append (str (Z.of_nat (length current_prime_set)))
        (String.append " truncatable primes with "%string
           (String.append (str width)
              (String.append " digits: "%string
                 (String.append (join ", "%string (map str shown))
                    (if (length current_prime_set <? 10)%nat then String.EmptyString
                     else ", ..."%string)))))
    /\ Permutation current_prime_set (shown ++ rest)
    /\ length shown = Nat.min 10 (length current_prime_set)
    /\ StronglySorted Z.le shown
    /\ forall x y, In x shown -> In y rest -> x <= y.
Proof.
  exists (firstn 10 (sorted current_prime_set)), (skipn 10 (sorted current_prime_set)).
  pose proof (sorted_perm current_prime_set) as Hperm.
  pose proof (Permutation_length Hperm) as Hlen.
  destruct (StronglySorted_firstn_skipn 10 _ (sorted_Sorted current_prime_set)) as [Hs Hle].
  split; [| split; [| split; [| split]]].
  - unfold report_line. cbv zeta. do 4 f_equal.
    destruct (Nat.ltb_spec (length current_prime_set) 10) as [Hlt | Hge].
    + replace (Z.of_nat (length current_prime_set) <? 10) with true
        by (symmetry; apply Z.ltb_lt; lia).
      rewrite firstn_all2 by lia. now rewrite append_nil_r.
    + replace (Z.of_nat (length current_prime_set) <? 10) with false
        by (symmetry; apply Z.ltb_ge; lia).
      reflexivity.
  - rewrite firstn_skipn. now symmetry.
  - rewrite length_firstn, Hlen. reflexivity.
  - exact Hs.
  - exact Hle.
Qed.

(** * The search of [Doit] *)

Lemma run_calls_app libm_log ns1 : forall ns2 w,
  run_calls libm_log (ns1 ++ ns2) w = run_calls libm_log ns2 (run_calls libm_log ns1 w).
Proof. induction ns1 as [| n ns1 IH]; intros ns2 w; cbn [app run_calls]; [reflexivity | apply IH]. Qed.

Lemma prime_verdict libm_log n w v :
  Z.prime n -> fst (IsPrime libm_log n w) = Return v -> v = true.
Proof.
  intros Hn Hv. destruct (IsPrime_of_prime libm_log n w Hn) as [Ht | (_ & e & _ & He)].
  - congruence.
  - rewrite He in Hv. discriminate.
Qed.

Section Search.

Variable libm_log : float -> float.
Variable iteration_order : list Z -> list Z.
Hypothesis iteration_order_perm : forall l, Permutation (iteration_order l) l.

Lemma call_IsPrime_spec n pr :
  call_IsPrime libm_log n pr
  = (match fst (IsPrime libm_log n (heap pr)) with
     | Return v => Returned v
     | Raise e => Raised (Builtin e)
     end,
     mkProcess (snd (IsPrime libm_log n (heap pr))) (stdout pr)).
Proof. unfold call_IsPrime. now destruct (IsPrime libm_log n (heap pr)) as [[v | e] w']. Qed.

(** Lines 95-103 with the candidate computed: [nd] before the [w] digits of [p]. *)
Lemma try_digit_eq eight p nd next w pr :
  0 <= nd -> 1 <= w -> 10 ^ (w - 1) <= p < 10 ^ w ->
  try_digit libm_log eight p nd next pr
  = (okay <~ (if negb eight then call_IsPrime libm_log (nd * 10 ^ w + p)
              else
                b <~ call_IsPrime libm_log (nd * 10 ^ w + p) ;;
                if b then
                  if negb (nd =? 8) then retD true
                  else call_IsPrime libm_log (3 * 10 ^ w + p)
                else retD false) ;;
     retD (if okay then set_add (nd * 10 ^ w + p) next else next)) pr.
Proof.
  intros Hnd Hw Hp.
  assert (Hp0 : 0 <= p).
  { assert (0 < 10 ^ (w - 1)) by (apply Z.pow_pos_nonneg; lia). lia. }
  unfold try_digit, bindD, liftD.
  rewrite (int_of_digits nd p w) by (lia || auto).
  destruct eight; cbn [negb]; [| reflexivity].
  destruct (call_IsPrime libm_log (nd * 10 ^ w + p) pr) as [[b | e |] pr1]; try reflexivity.
  destruct b; [| reflexivity]. destruct (negb (nd =? 8)); [reflexivity |].
  rewrite (int_of_digits 3 p w) by (lia || auto). reflexivity.
Qed.

Lemma try_digit_Returned eight p nd next w pr s pr' :
  0 <= nd -> 1 <= w -> 10 ^ (w - 1) <= p < 10 ^ w ->
  try_digit libm_log eight p nd next pr = (Returned s, pr') ->
  stdout pr' = stdout pr
  /\ (s = next \/ s = set_add (nd * 10 ^ w + p) next)
  /\ (Z.prime (nd * 10 ^ w + p) ->
      (eight = true -> nd = 8 -> Z.prime (3 * 10 ^ w + p)) ->
      s = set_add (nd * 10 ^ w + p) next).
Proof.
  intros Hnd Hw Hp. rewrite (try_digit_eq eight p nd next w pr Hnd Hw Hp).
  unfold bindD, retD. destruct eight; cbn [negb].
  - rewrite call_IsPrime_spec.
    destruct (fst (IsPrime libm_log (nd * 10 ^ w + p) (heap pr))) as [b | e] eqn:E1;
      [| discriminate].
    destruct b.
    + destruct (negb (nd =? 8)) eqn:E8.
      * intros H. inversion H; subst. cbn [stdout]. auto.
      * rewrite call_IsPrime_spec. cbn [heap stdout].
        destruct (fst (IsPrime libm_log (3 * 10 ^ w + p) _)) as [b3 | e] eqn:E3; [| discriminate].
        intros H. inversion H; subst. cbn [stdout].
        split; [reflexivity |]. split; [destruct b3; auto |].
        intros _ H3. apply negb_false_iff, Z.eqb_eq in E8.
        now rewrite (prime_verdict _ _ _ _ (H3 eq_refl E8) E3).
    + intros H. inversion H; subst. cbn [stdout].
      split; [reflexivity |]. split; [auto |].
      intros Hc _. pose proof (prime_verdict _ _ _ _ Hc E1). discriminate.
  - rewrite call_IsPrime_spec.
    destruct (fst (IsPrime libm_log (nd * 10 ^ w + p) (heap pr))) as [b | e] eqn:E1;
      [| discriminate].
    intros H. inversion H; subst. cbn [stdout].
    split; [reflexivity |]. split; [destruct b; auto |].
    intros Hc _. now rewrite (prime_verdict _ _ _ _ Hc E1).
Qed.

(** What the loop over the digits adds to the next set. *)
Lemma for_nd_Returned eight p w nds : forall next pr s pr',
  (forall nd, In nd nds -> 0 <= nd) -> 1 <= w -> 10 ^ (w - 1) <= p < 10 ^ w ->
  for_nd libm_log eight p nds next pr = (Returned s, pr') ->
  stdout pr' = stdout pr
  /\ (forall x, In x s -> In x next \/ exists nd, In nd nds /\ x = nd * 10 ^ w + p)
  /\ (forall x, In x next -> In x s)
  /\ (NoDup next -> NoDup s)
  /\ (length s <= length next + length nds)%nat
  /\ (forall nd, In nd nds -> Z.prime (nd * 10 ^ w + p) ->
        (eight = true -> nd = 8 -> Z.prime (3 * 10 ^ w + p)) -> In (nd * 10 ^ w + p) s).
Proof.
  induction nds as [| nd rest IH]; intros next pr s pr' Hnds Hw Hp; cbn [for_nd].
  - unfold retD. intros H. inversion H; subst.
    repeat split; auto; try (cbn; lia); try (now intros ? []).
  - unfold bindD at 1.
    destruct (try_digit libm_log eight p nd next pr) as [[s1 | e |] pr1] eqn:E1; try discriminate.
    intros Hrest.
    destruct (try_digit_Returned _ _ _ _ _ _ _ _ (Hnds nd (or_introl eq_refl)) Hw Hp E1)
      as (Ho1 & Hs1 & Hc1).
    destruct (IH s1 pr1 s pr' (fun x Hx => Hnds x (or_intror Hx)) Hw Hp Hrest)
      as (Ho & Hin & Hsub & Hnd & Hlen & Hcov).
    assert (Hs1in : forall x, In x s1 -> In x next \/ x = nd * 10 ^ w + p).
    { intros x Hx. destruct Hs1 as [-> | ->]; [auto |]. apply set_add_In in Hx. tauto. }
    assert (Hs1sub : forall x, In x next -> In x s1).
    { intros x Hx. destruct Hs1 as [-> | ->]; [auto |]. apply set_add_In. auto. }
    split; [congruence |]. split; [| split; [| split; [| split]]].
    + intros x Hx. destruct (Hin x Hx) as [H1 | (nd' & Hnd' & ->)].
      * destruct (Hs1in x H1) as [H | ->]; [auto |]. right. exists nd. split; [now left | reflexivity].
      * right. exists nd'. split; [now right | reflexivity].
    + auto.
    + intros Hn. apply Hnd. destruct Hs1 as [-> | ->]; [exact Hn | now apply set_add_NoDup].
    + assert (length s1 <= S (length next))%nat.
      { destruct Hs1 as [-> | ->]; [lia | apply set_add_length]. }
      cbn [length]. lia.
    + intros nd' [<- | Hnd'] Hpr H8.
      * apply Hsub. rewrite (Hc1 Hpr H8). apply set_add_In. auto.
      * now apply Hcov.
Qed.

(** What the loop over the current set adds to the next set. *)
Lemma for_p_Returned eight w ps : forall next pr s pr',
  1 <= w -> (forall p, In p ps -> 10 ^ (w - 1) <= p < 10 ^ w) ->
  for_p libm_log eight ps next pr = (Returned s, pr') ->
  stdout pr' = stdout pr
  /\ (forall x, In x s -> In x next \/ exists nd p, 1 <= nd <= 9 /\ In p ps /\ x = nd * 10 ^ w + p)
  /\ (forall x, In x next -> In x s)
  /\ (NoDup next -> NoDup s)
  /\ (length s <= length next + 9 * length ps)%nat
  /\ (forall nd p, 1 <= nd <= 9 -> In p ps -> Z.prime (nd * 10 ^ w + p) ->
        (eight = true -> nd = 8 -> Z.prime (3 * 10 ^ w + p)) -> In (nd * 10 ^ w + p) s).
Proof.
  induction ps as [| p rest IH]; intros next pr s pr' Hw Hps; cbn [for_p].
  - unfold retD. intros H. inversion H; subst.
    repeat split; auto; try (cbn; lia); try (now intros ? ? _ []).
  - unfold bindD at 1.
    destruct (for_nd libm_log eight p [1; 2; 3; 4; 5; 6; 7; 8; 9] next pr) as [[s1 | e |] pr1] eqn:E1;
      try discriminate.
    intros Hrest.
    assert (Hdig : forall nd, In nd [1; 2; 3; 4; 5; 6; 7; 8; 9] <-> 1 <= nd <= 9).
    { intros nd. cbn. lia. }
    destruct (for_nd_Returned eight p w _ next pr s1 pr1
                (fun nd H => ltac:(apply Hdig in H; lia)) Hw (Hps p (or_introl eq_refl)) E1)
      as (Ho1 & Hin1 & Hsub1 & Hnd1 & Hlen1 & Hcov1).
    destruct (IH s1 pr1 s pr' Hw (fun x Hx => Hps x (or_intror Hx)) Hrest)
      as (Ho & Hin & Hsub & Hnd & Hlen & Hcov).
    split; [congruence |]. split; [| split; [| split; [| split]]].
    + intros x Hx. destruct (Hin x Hx) as [H1 | (nd & p' & Hnd' & Hp' & ->)].
      * destruct (Hin1 x H1) as [H | (nd & Hnd' & ->)]; [auto |].
        right. exists nd, p. split; [now apply Hdig |]. split; [now left | reflexivity].
      * right. exists nd, p'. split; [exact Hnd' |]. split; [now right | reflexivity].
    + auto.
    + auto.
    + cbn [length] in *. lia.
    + intros nd p' Hnd' [<- | Hp'] Hpr H8.
      * apply Hsub, Hcov1; auto. now apply Hdig.
      * now apply Hcov.
Qed.

End Search.

Section Levels.

Variable libm_log : float -> float.
Variable iteration_order : list Z -> list Z.
Hypothesis iteration_order_perm : forall l, Permutation (iteration_order l) l.

Lemma primes_among_Returned xs : forall pr l pr',
  primes_among libm_log xs pr = (Returned l, pr') ->
  stdout pr' = stdout pr
  /\ (forall x, In x l -> In x xs)
  /\ (forall x, In x xs -> Z.prime x -> In x l)
  /\ (length l <= length xs)%nat.
Proof.
  induction xs as [| x rest IH]; intros pr l pr'; cbn [primes_among].
  - unfold retD. intros H. inversion H; subst. repeat split; auto.
  - unfold bindD, retD. rewrite call_IsPrime_spec.
    destruct (fst (IsPrime libm_log x (heap pr))) as [b | e] eqn:E1; [| discriminate].
    destruct (primes_among libm_log rest _) as [[l1 | e |] pr1] eqn:E2; try discriminate.
    intros H. inversion H; subst. clear H.
    destruct (IH _ _ _ E2) as (Ho & Hin & Hcov & Hlen). cbn [stdout] in Ho.
    split; [exact Ho |]. split; [| split].
    + intros y Hy. destruct b; [destruct Hy as [<- | Hy] |]; [now left | right; auto | right; auto].
    + intros y [<- | Hy] Hp.
      * rewrite (prime_verdict _ _ _ _ Hp E1). now left.
      * destruct b; [right |]; auto.
    + destruct b; cbn [length]; lia.
Qed.

Lemma level_get w2ps j s : dict_get w2ps j = Some s -> level w2ps j = s.
Proof. unfold level. now intros ->. Qed.

(** One pass through the loop keeps [levels_ok] and prints one line. *)
Lemma loop_body_Returned eight width w2ps pr st pr' :
  0 <= width -> levels_ok eight width w2ps ->
  loop_body libm_log iteration_order eight width w2ps pr = (Returned st, pr') ->
  match st with
  | None => pr' = pr /\ level w2ps (width + 1) = []
  | Some (width', w2ps') =>
      width' = width + 1 /\ levels_ok eight width' w2ps'
      /\ stdout pr' = stdout pr ++ [report_line (level w2ps (width + 1)) (width + 1)]
      /\ (forall j, j <= width + 1 -> level w2ps' j = level w2ps j)
      /\ (length (level w2ps' (width + 2)) <= 9 * length (level w2ps (width + 1)))%nat
  end.
Proof.
  intros Hw [Hkeys Hlev]. unfold loop_body. cbv zeta.
  destruct (proj2 (Hkeys (width + 1)) ltac:(lia)) as [cur Hcur]. rewrite Hcur.
  destruct (Z.of_nat (length cur) =? 0) eqn:Elen.
  { unfold retD. intros H. inversion H; subst. split; [reflexivity |].
    rewrite (level_get _ _ _ Hcur). apply Z.eqb_eq in Elen.
    destruct cur; [reflexivity | cbn [length] in Elen; lia]. }
  unfold bindD, print, retD.
  destruct (for_p libm_log eight (iteration_order cur) [] _) as [[next | e |] pr1] eqn:E;
    try discriminate.
  intros H. inversion H; subst. clear H.
  destruct (Hlev _ _ Hcur) as (Hnd & Hdig & Hcov).
  assert (Hps : forall p, In p (iteration_order cur) -> 10 ^ (width + 1 - 1) <= p < 10 ^ (width + 1)).
  { intros p Hp. apply (Permutation_in _ (iteration_order_perm cur)) in Hp.
    now destruct (Hdig p Hp). }
  destruct (for_p_Returned libm_log eight (width + 1) _ [] _ next pr' ltac:(lia) Hps E)
    as (Ho & Hin & _ & Hnodup & Hlen & Hall).
  cbn [stdout] in Ho.
  assert (Hget : forall j, dict_get (dict_set w2ps (width + 1 + 1) next) j
                           = if j =? width + 1 + 1 then Some next else dict_get w2ps j).
  { intros j. apply dict_get_set. }
  assert (Hold : forall j, j <= width + 1 ->
            level (dict_set w2ps (width + 1 + 1) next) j = level w2ps j).
  { intros j Hj. unfold level. rewrite Hget.
    replace (j =? width + 1 + 1) with false by (symmetry; apply Z.eqb_neq; lia). reflexivity. }
  split; [reflexivity |].
  split; [| split; [rewrite (level_get _ _ _ Hcur); exact Ho | split; [exact Hold |]]].
  2:{ unfold level at 1. rewrite Hget. replace (width + 2 =? width + 1 + 1) with true
        by (symmetry; apply Z.eqb_eq; lia).
      rewrite (level_get _ _ _ Hcur).
      rewrite (Permutation_length (iteration_order_perm cur)) in Hlen. cbn [length] in Hlen. lia. }
  assert (Hp10 : 0 < 10 ^ (width + 1)) by (apply Z.pow_pos_nonneg; lia).
  assert (E10 : 10 ^ (width + 1 + 1) = 10 * 10 ^ (width + 1)).
  { rewrite (Z.pow_add_r 10 (width + 1) 1) by lia. lia. }
  split.
  - intros j. rewrite Hget. destruct (j =? width + 1 + 1) eqn:Ej.
    + apply Z.eqb_eq in Ej. split; [lia | eauto].
    + apply Z.eqb_neq in Ej. rewrite Hkeys. lia.
  - intros j s. rewrite Hget. destruct (j =? width + 1 + 1) eqn:Ej.
    + apply Z.eqb_eq in Ej. subst j. intros H. inversion H; subst s. clear H.
      replace (width + 1 + 1 - 1) with (width + 1) by lia.
      split; [apply Hnodup; constructor |]. split.
      * intros c Hc. destruct (Hin c Hc) as [[] | (nd & p & Hnd' & Hp & ->)].
        pose proof (Hps p Hp) as Hpb. replace (width + 1 - 1) with width in Hpb by lia.
        assert (0 < 10 ^ width) by (apply Z.pow_pos_nonneg; lia).
        split; [nia |]. split; [lia |]. intros _.
        rewrite Z.div_add_l, Z.div_small by lia.
        rewrite (Z.add_comm (nd * 10 ^ (width + 1)) p), Z.mod_add, Z.mod_small by lia.
        split; [lia |]. rewrite Hold by lia. rewrite (level_get _ _ _ Hcur).
        apply (Permutation_in _ (iteration_order_perm cur)). exact Hp.
      * intros c Ht.
        assert (En : Z.to_nat (width + 1) = S (Z.to_nat width)) by lia.
        rewrite En in Ht. cbn [truncatable] in Ht. cbv zeta in Ht.
        rewrite <- En in Ht. rewrite Z2Nat.id in Ht by lia.
        destruct Ht as (Hnd' & Hp & Hpr & H8).
        pose proof (Z.div_mod c (10 ^ (width + 1)) ltac:(lia)) as Hdm.
        assert (Hpin : In (c mod 10 ^ (width + 1)) (iteration_order cur)).
        { apply (Permutation_in _ (Permutation_sym (iteration_order_perm cur))).
          apply Hcov. replace (width + 1 - 1) with width by lia. exact Hp. }
        assert (Ec : c = c / 10 ^ (width + 1) * 10 ^ (width + 1) + c mod 10 ^ (width + 1)) by lia.
        rewrite Ec. apply Hall; auto; rewrite <- Ec; auto.
    + apply Z.eqb_neq in Ej. intros Hs.
      assert (Hj : 1 <= j <= width + 1).
      { apply Hkeys. eauto. }
      destruct (Hlev _ _ Hs) as (H1 & H2 & H3).
      split; [exact H1 |]. split; [| exact H3].
      intros c Hc. destruct (H2 c Hc) as (G1 & G2 & G3).
      split; [exact G1 |]. split; [exact G2 |].
      intros Hj1. destruct (G3 Hj1) as [G4 G5]. split; [exact G4 |].
      rewrite Hold by lia. exact G5.
Qed.

Lemma printed_succ w2ps w2ps' width :
  0 <= width -> (forall j, j <= width + 1 -> level w2ps' j = level w2ps j) ->
  printed w2ps' (width + 1) = printed w2ps width ++ [report_line (level w2ps (width + 1)) (width + 1)].
Proof.
  intros Hw Hold. unfold printed.
  replace (Z.to_nat (width + 1)) with (Z.to_nat width + 1)%nat by lia.
  rewrite seq_app, map_app. cbn [seq map]. f_equal.
  - apply map_ext_in. intros i Hi. apply in_seq in Hi. now rewrite Hold by lia.
  - replace (Z.of_nat (1 + Z.to_nat width)) with (width + 1) by lia.
    now rewrite Hold by lia.
Qed.

Lemma printed_frame w2ps w2ps' width :
  0 <= width -> (forall j, j <= width + 1 -> level w2ps' j = level w2ps j) ->
  printed w2ps' width = printed w2ps width.
Proof.
  intros Hw Hold. unfold printed. apply map_ext_in. intros i Hi. apply in_seq in Hi.
  now rewrite Hold by lia.
Qed.

(** [k] passes through the loop, or fewer up to the [break]. *)
Lemma passes_of_loop_Returned eight out0 k : forall width w2ps pr broke width' w2ps' pr',
  0 <= width -> levels_ok eight width w2ps ->
  stdout pr = out0 ++ printed w2ps width ->
  passes_of_loop libm_log iteration_order k eight width w2ps pr
  = (Returned (broke, width', w2ps'), pr') ->
  let passed := if broke then width' - 1 else width' in
  width <= passed
  /\ (if broke then passed < width + Z.of_nat k /\ level w2ps' width' = []
      else passed = width + Z.of_nat k)
  /\ levels_ok eight passed w2ps'
  /\ stdout pr' = out0 ++ printed w2ps' passed.
Proof.
  induction k as [| k IH]; intros width w2ps pr broke width' w2ps' pr' Hw Hok Hout;
    cbn [passes_of_loop].
  - unfold retD. intros H. inversion H; subst. cbv zeta. split; [lia |]. split; [lia | auto].
  - unfold bindD.
    destruct (loop_body libm_log iteration_order eight width w2ps pr) as [[st | e |] pr1] eqn:E;
      try discriminate.
    pose proof (loop_body_Returned eight width w2ps pr st pr1 Hw Hok E) as Hb.
    destruct st as [[w1 d1] |].
    + destruct Hb as (-> & Hok1 & Ho1 & Hold & _). intros Hrest.
      assert (Hout1 : stdout pr1 = out0 ++ printed d1 (width + 1)).
      { rewrite Ho1, Hout, <- app_assoc. f_equal. symmetry. now apply printed_succ. }
      pose proof (IH (width + 1) d1 pr1 broke width' w2ps' pr' ltac:(lia) Hok1 Hout1 Hrest)
        as Hk.
      cbv zeta in Hk |- *. destruct Hk as (Hr & Hb' & Hok' & Hout').
      split; [lia |]. split; [| auto].
      destruct broke; [destruct Hb' as [Hlt He]; split; [lia | exact He] | lia].
    + destruct Hb as [-> Hempty]. unfold retD. intros H. inversion H; subst. cbv zeta.
      replace (width + 1 - 1) with width by lia.
      split; [lia |]. split; [split; [lia | exact Hempty] | auto].
Qed.

Lemma levels_ok_initial eight first :
  (forall x, In x first -> In x [2; 3; 4; 5; 6; 7; 8; 9]) ->
  (forall x, In x [2; 3; 4; 5; 6; 7; 8; 9] -> Z.prime x -> In x first) ->
  levels_ok eight 0 [(1, set_of_list first)].
Proof.
  intros Hin Hcov.
  destruct (set_of_list_spec first [] (NoDup_nil Z)) as (Hnd & Hmem & _).
  fold (set_of_list first) in Hnd, Hmem.
  split.
  - intros j. cbn [dict_get]. destruct (1 =? j) eqn:E.
    + apply Z.eqb_eq in E. split; [lia | eauto].
    + apply Z.eqb_neq in E. split; [intros [s Hs]; discriminate | lia].
  - intros j s. cbn [dict_get]. destruct (1 =? j) eqn:E; [| discriminate].
    apply Z.eqb_eq in E. subst j. intros H. inversion H; subst s. clear H.
    split; [exact Hnd |]. split.
    + intros c Hc. apply Hmem in Hc. destruct Hc as [[] | Hc]. apply Hin in Hc. cbn in Hc.
      change (10 ^ (1 - 1)) with 1. change (10 ^ 1) with 10.
      split; [lia |]. split; [lia |]. lia.
    + intros c Ht. change (Z.to_nat (1 - 1)) with O in Ht. cbn [truncatable] in Ht.
      destruct Ht as [Hc Hp]. apply Hmem. right. apply Hcov; [cbn; lia | exact Hp].
Qed.

End Levels.

(** The loop and its first [fuel] passes leave the same state. *)
Lemma while_loop_state libm_log order eight fuel : forall width w2ps pr,
  snd (while_loop libm_log order fuel eight width w2ps pr)
  = snd (passes_of_loop libm_log order fuel eight width w2ps pr)
  /\ fst (while_loop libm_log order fuel eight width w2ps pr)
     = match fst (passes_of_loop libm_log order fuel eight width w2ps pr) with
       | Returned (true, _, d) => Returned d
       | Returned (false, _, _) => OutOfFuel
       | Raised e => Raised e
       | OutOfFuel => OutOfFuel
       end.
Proof.
  induction fuel as [| fuel IH]; intros width w2ps pr; cbn [while_loop passes_of_loop].
  - cbn. auto.
  - unfold bindD.
    destruct (loop_body libm_log order eight width w2ps pr) as [[st | e |] pr1];
      cbn [fst snd]; auto.
    destruct st as [[w1 d1] |]; [apply IH |]. cbn [fst snd retD]. auto.
Qed.

Lemma Doit_state libm_log order fuel eight pr :
  snd (Doit libm_log order fuel eight pr) = snd (Doit_after libm_log order fuel eight pr)
  /\ fst (Doit libm_log order fuel eight pr)
     = match fst (Doit_after libm_log order fuel eight pr) with
       | Returned (true, _, _) => Returned tt
       | Returned (false, _, _) => OutOfFuel
       | Raised e => Raised e
       | OutOfFuel => OutOfFuel
       end.
Proof.
  unfold Doit, Doit_w2ps, Doit_after, bindD.
  destruct (primes_among libm_log _ _) as [[first | e |] pr1]; cbn [fst snd]; auto.
  destruct (while_loop_state libm_log order eight fuel 0 [(1, set_of_list first)] pr1) as [H1 H2].
  destruct (while_loop libm_log order fuel eight 0 _ pr1) as [[d | e |] pr2];
    destruct (passes_of_loop libm_log order fuel eight 0 _ pr1) as [[[[[] wd] d'] | e' |] pr3];
    cbn [fst snd retD] in *; subst; try discriminate; auto.
  injection H2 as ->. auto.
Qed.

(** [Doit] builds the left-truncatable primes. After [k] whole passes through
    its loop [width] is [k]; at the [break], when it comes within [k] passes,
    [width] has been incremented once more, the set of that width is empty, no
    left-truncatable prime has that many digits, and [Doit] returns. In both
    cases, with [passed] the number of passes that went past the [break],
    [w2ps] has exactly the widths [1 .. passed + 1]; the numbers of a width
    have that many digits, the first not 0, and without their first digit
    belong to the width before; every left-truncatable prime of a width is
    there; and one line has been printed for each of the [passed] widths. *)
Theorem Doit_finds_every_truncatable_prime
  (libm_log : float -> float) (iteration_order : list Z -> list Z)
  (k : nat) (eight_becomes_three : bool) (pr : process)
  (broke : bool) (width : Z) (w2ps : list (Z * list Z)) :
  (forall l, Permutation (iteration_order l) l) -> (k < 4300)%nat ->
  fst (Doit_after libm_log iteration_order k eight_becomes_three pr)
  = Returned (broke, width, w2ps) ->
  let passed := if broke then width - 1 else width in
  (if broke
   then 1 <= width <= Z.of_nat k /\ level w2ps width = []
        /\ (forall c, ~ truncatable eight_becomes_three (Z.to_nat (width - 1)) c)
   else width = Z.of_nat k)
  /\ levels_ok eight_becomes_three passed w2ps
  /\ stdout (snd (Doit_after libm_log iteration_order k eight_becomes_three pr))
     = stdout pr ++ printed w2ps passed
  /\ snd (Doit libm_log iteration_order k eight_becomes_three pr)
     = snd (Doit_after libm_log iteration_order k eight_becomes_three pr)
  /\ fst (Doit libm_log iteration_order k eight_becomes_three pr)
     = (if broke then Returned tt else OutOfFuel).
Proof.
  intros Hperm _ Hret. cbv zeta.
  destruct (Doit_state libm_log iteration_order k eight_becomes_three pr) as [Hsnd Hfst].
  rewrite Hret in Hfst.
  assert (H : 0 <= (if broke then width - 1 else width)
              /\ (if broke
                  then (if broke then width - 1 else width) < 0 + Z.of_nat k
                       /\ level w2ps width = []
                  else (if broke then width - 1 else width) = 0 + Z.of_nat k)
              /\ levels_ok eight_becomes_three (if broke then width - 1 else width) w2ps
              /\ stdout (snd (Doit_after libm_log iteration_order k eight_becomes_three pr))
                 = stdout pr ++ printed w2ps (if broke then width - 1 else width)).
  { revert Hret. unfold Doit_after, bindD.
    destruct (primes_among libm_log _ _) as [[first | e |] pr1] eqn:E1; try discriminate.
    destruct (primes_among_Returned libm_log _ _ _ _ E1) as (Ho & Hin & Hcov & _).
    cbn [stdout] in Ho.
    pose proof (levels_ok_initial eight_becomes_three first Hin Hcov) as Hok.
    destruct (passes_of_loop libm_log iteration_order k eight_becomes_three 0 _ pr1)
      as [r pr2] eqn:E2. cbn [fst snd]. intros ->.
    assert (Hout0 : stdout pr1 = stdout pr ++ printed [(1, set_of_list first)] 0).
    { rewrite Ho. unfold printed. cbn [Z.to_nat seq map]. now rewrite app_nil_r. }
    exact (passes_of_loop_Returned libm_log iteration_order Hperm eight_becomes_three
             (stdout pr) k 0 _ pr1 broke width w2ps pr2 (Z.le_refl 0) Hok Hout0 E2). }
  destruct H as (H0 & Hb & Hok & Hout).
  split; [| split; [exact Hok | split; [exact Hout | split; [exact Hsnd |]]]].
  - destruct broke; [| lia]. destruct Hb as [Hlt Hempty].
    split; [lia |]. split; [exact Hempty |].
    intros c Ht. destruct Hok as [Hkeys Hlev].
    destruct (proj2 (Hkeys width) ltac:(lia)) as [s Hs].
    destruct (Hlev _ _ Hs) as (_ & _ & Hcov).
    pose proof (Hcov c Ht) as Hc. unfold level in Hempty. rewrite Hs in Hempty.
    subst s. exact Hc.
  - destruct broke; exact Hfst.
Qed.

Lemma Doit_finds_every_truncatable_prime_witness :
  let pr := start (fun _ => 0) in
  let w2ps := [(1, [2; 3; 5; 7]); (2, [13; 23; 43; 53; 73; 83; 17; 37; 47; 67; 97])] in
  1 = Z.of_nat 1
  /\ levels_ok false 1 w2ps
  /\ stdout (snd (Doit_after ref_log (fun l => l) 1 false pr)) = stdout pr ++ printed w2ps 1
  /\ snd (Doit ref_log (fun l => l) 1 false pr) = snd (Doit_after ref_log (fun l => l) 1 false pr)
  /\ fst (Doit ref_log (fun l => l) 1 false pr) = OutOfFuel.
Proof.
  apply (Doit_finds_every_truncatable_prime ref_log (fun l => l) 1 false (start (fun _ => 0))
           false);
    [intros l; apply Permutation_refl | lia | vm_compute; reflexivity].
Defined.

(** * No exception in [Doit] and [Main] *)

Lemma calm_mono c c' pr : calm c pr -> c <= c' -> calm c' pr.
Proof. intros [H1 H2] Hle. split; [exact H1 | lia]. Qed.

Section Safety.

Variable libm_log : float -> float.
Hypothesis libm_log_finite : finite_log libm_log.
Variable iteration_order : list Z -> list Z.
Hypothesis iteration_order_perm : forall l, Permutation (iteration_order l) l.

Lemma call_safe n c pr :
  calm c pr -> c <= 2 ^ 120 ->
  exists v pr', call_IsPrime libm_log n pr = (Returned v, pr')
                /\ calm (c + 1) pr' /\ stdout pr' = stdout pr.
Proof.
  intros [Hopen Hc] Hle. rewrite call_IsPrime_spec.
  destruct (IsPrime_returns_open libm_log n (heap pr) libm_log_finite Hopen ltac:(lia)) as [v Hv].
  rewrite Hv. exists v. eexists. split; [reflexivity |]. split; [| reflexivity].
  split; cbn [heap].
  - now apply IsPrime_keeps_open.
  - pose proof (run_calls_count libm_log [n] (heap pr)) as H. cbn [run_calls length] in H. lia.
Qed.

Lemma try_digit_safe eight p nd next w c pr :
  0 <= nd -> 1 <= w -> 10 ^ (w - 1) <= p < 10 ^ w ->
  calm c pr -> c + 2 <= 2 ^ 120 ->
  exists s pr', try_digit libm_log eight p nd next pr = (Returned s, pr') /\ calm (c + 2) pr'.
Proof.
  intros Hnd Hw Hp Hcalm Hc. rewrite (try_digit_eq libm_log eight p nd next w pr Hnd Hw Hp).
  unfold bindD, retD.
  destruct (call_safe (nd * 10 ^ w + p) c pr Hcalm ltac:(lia)) as (b & pr1 & E1 & Hcalm1 & _).
  destruct eight; cbn [negb]; rewrite E1.
  - destruct b.
    + destruct (negb (nd =? 8)).
      * eexists. eexists. split; [reflexivity |]. apply (calm_mono _ _ _ Hcalm1). lia.
      * destruct (call_safe (3 * 10 ^ w + p) (c + 1) pr1 Hcalm1 ltac:(lia))
          as (b3 & pr2 & E2 & Hcalm2 & _).
        rewrite E2. eexists. eexists. split; [reflexivity |].
        apply (calm_mono _ _ _ Hcalm2). lia.
    + eexists. eexists. split; [reflexivity |]. apply (calm_mono _ _ _ Hcalm1). lia.
  - eexists. eexists. split; [reflexivity |]. apply (calm_mono _ _ _ Hcalm1). lia.
Qed.

Lemma for_nd_safe eight p w nds : forall next c pr,
  (forall nd, In nd nds -> 0 <= nd) -> 1 <= w -> 10 ^ (w - 1) <= p < 10 ^ w ->
  calm c pr -> c + 2 * Z.of_nat (length nds) <= 2 ^ 120 ->
  exists s pr', for_nd libm_log eight p nds next pr = (Returned s, pr')
                /\ calm (c + 2 * Z.of_nat (length nds)) pr'.
Proof.
  induction nds as [| nd rest IH]; intros next c pr Hnds Hw Hp Hcalm Hc; cbn [for_nd].
  - exists next, pr. split; [reflexivity |]. apply (calm_mono _ _ _ Hcalm). cbn. lia.
  - cbn [length] in Hc. unfold bindD.
    destruct (try_digit_safe eight p nd next w c pr (Hnds nd (or_introl eq_refl)) Hw Hp Hcalm
                ltac:(lia)) as (s1 & pr1 & E1 & Hcalm1).
    rewrite E1.
    destruct (IH s1 (c + 2) pr1 (fun x Hx => Hnds x (or_intror Hx)) Hw Hp Hcalm1 ltac:(lia))
      as (s & pr' & E & Hcalm').
    exists s, pr'. split; [exact E |]. apply (calm_mono _ _ _ Hcalm'). cbn [length]. lia.
Qed.

Lemma for_p_safe eight w ps : forall next c pr,
  1 <= w -> (forall p, In p ps -> 10 ^ (w - 1) <= p < 10 ^ w) ->
  calm c pr -> c + 18 * Z.of_nat (length ps) <= 2 ^ 120 ->
  exists s pr', for_p libm_log eight ps next pr = (Returned s, pr')
                /\ calm (c + 18 * Z.of_nat (length ps)) pr'.
Proof.
  induction ps as [| p rest IH]; intros next c pr Hw Hps Hcalm Hc; cbn [for_p].
  - exists next, pr. split; [reflexivity |]. apply (calm_mono _ _ _ Hcalm). cbn. lia.
  - cbn [length] in Hc. unfold bindD.
    destruct (for_nd_safe eight p w [1; 2; 3; 4; 5; 6; 7; 8; 9] next c pr
                ltac:(cbn; intros nd H; lia) Hw (Hps p (or_introl eq_refl)) Hcalm
                ltac:(cbn [length]; lia)) as (s1 & pr1 & E1 & Hcalm1).
    rewrite E1. cbn [length] in Hcalm1.
    destruct (IH s1 (c + 18) pr1 Hw (fun x Hx => Hps x (or_intror Hx))
                ltac:(apply (calm_mono _ _ _ Hcalm1); lia) ltac:(lia))
      as (s & pr' & E & Hcalm').
    exists s, pr'. split; [exact E |]. apply (calm_mono _ _ _ Hcalm'). cbn [length]. lia.
Qed.

Lemma primes_among_safe xs : forall c pr,
  calm c pr -> c + Z.of_nat (length xs) <= 2 ^ 120 ->
  exists l pr', primes_among libm_log xs pr = (Returned l, pr')
                /\ calm (c + Z.of_nat (length xs)) pr'.
Proof.
  induction xs as [| x rest IH]; intros c pr Hcalm Hc; cbn [primes_among].
  - exists [], pr. split; [reflexivity |]. apply (calm_mono _ _ _ Hcalm). cbn. lia.
  - cbn [length] in Hc. unfold bindD, retD.
    destruct (call_safe x c pr Hcalm ltac:(lia)) as (b & pr1 & E1 & Hcalm1 & _). rewrite E1.
    destruct (IH (c + 1) pr1 Hcalm1 ltac:(lia)) as (l & pr' & E & Hcalm'). rewrite E.
    eexists. eexists. split; [reflexivity |]. apply (calm_mono _ _ _ Hcalm'). cbn [length]. lia.
Qed.

Lemma loop_body_safe eight width w2ps c pr :
  0 <= width -> levels_ok eight width w2ps -> calm c pr ->
  c + 18 * Z.of_nat (length (level w2ps (width + 1))) <= 2 ^ 120 ->
  exists st pr', loop_body libm_log iteration_order eight width w2ps pr = (Returned st, pr')
                 /\ calm (c + 18 * Z.of_nat (length (level w2ps (width + 1)))) pr'.
Proof.
  intros Hw [Hkeys Hlev] Hcalm Hc. unfold loop_body. cbv zeta.
  destruct (proj2 (Hkeys (width + 1)) ltac:(lia)) as [cur Hcur]. rewrite Hcur.
  rewrite (level_get _ _ _ Hcur) in *.
  destruct (Z.of_nat (length cur) =? 0).
  { exists None, pr. split; [reflexivity |]. apply (calm_mono _ _ _ Hcalm). lia. }
  unfold bindD, print, retD.
  destruct (Hlev _ _ Hcur) as (_ & Hdig & _).
  assert (Hps : forall p, In p (iteration_order cur) -> 10 ^ (width + 1 - 1) <= p < 10 ^ (width + 1)).
  { intros p Hp. apply (Permutation_in _ (iteration_order_perm cur)) in Hp.
    now destruct (Hdig p Hp). }
  pose proof (Permutation_length (iteration_order_perm cur)) as Hlen.
  destruct (for_p_safe eight (width + 1) (iteration_order cur) [] c
              (mkProcess (heap pr) (stdout pr ++ [report_line cur (width + 1)]))
              ltac:(lia) Hps Hcalm ltac:(rewrite Hlen; lia)) as (s & pr' & E & Hcalm').
  rewrite E. eexists. eexists. split; [reflexivity |]. now rewrite Hlen in Hcalm'.
Qed.

Lemma pow9_bound w : 0 <= w <= 36 -> 18 * 9 ^ w <= 2 ^ 120.
Proof.
  intros Hw. assert (9 ^ w <= 9 ^ 36) by (apply Z.pow_le_mono_r; lia).
  assert (18 * 9 ^ 36 <= 2 ^ 120) by (vm_compute; discriminate). lia.
Qed.

(** The loop does not raise in its first 36 passes. *)
Lemma while_loop_safe eight fuel : forall width w2ps pr,
  0 <= width -> width + Z.of_nat fuel <= 36 ->
  levels_ok eight width w2ps ->
  Z.of_nat (length (level w2ps (width + 1))) <= 8 * 9 ^ width ->
  calm (18 * 9 ^ width - 10) pr ->
  forall e, fst (while_loop libm_log iteration_order fuel eight width w2ps pr) <> Raised e.
Proof.
  induction fuel as [| fuel IH]; intros width w2ps pr Hw Hfuel Hok Hlen Hcalm e;
    cbn [while_loop]; [discriminate |].
  assert (E9 : 9 ^ (width + 1) = 9 * 9 ^ width) by (rewrite Z.pow_add_r by lia; lia).
  pose proof (pow9_bound (width + 1) ltac:(lia)) as Hb.
  destruct (loop_body_safe eight width w2ps _ pr Hw Hok Hcalm ltac:(lia))
    as (st & pr1 & E & Hcalm1).
  unfold bindD. rewrite E.
  pose proof (loop_body_Returned libm_log iteration_order iteration_order_perm
                eight width w2ps pr st pr1 Hw Hok E) as Hbody.
  destruct st as [[w1 d1] |]; [| discriminate].
  destruct Hbody as (-> & Hok1 & _ & _ & Hlen1).
  apply IH; try lia; try assumption.
  - replace (width + 1 + 1) with (width + 2) by lia. lia.
  - apply (calm_mono _ _ _ Hcalm1). lia.
Qed.

Lemma calm_new_checker pr :
  calm 0 (mkProcess (mkWorld (init default_max_cumulative_error_probability)
                             (reporters (heap pr)) (entropy (heap pr)) (drawn (heap pr))
                             (calls (heap pr)))
                    (stdout pr)).
Proof.
  split; cbn [heap self]; [| cbn; lia].
  apply budget_open_init; reflexivity.
Qed.

Lemma Doit_safe fuel eight pr :
  (fuel <= 36)%nat -> forall e, fst (Doit libm_log iteration_order fuel eight pr) <> Raised e.
Proof.
  intros Hfuel e. unfold Doit, Doit_w2ps. unfold bindD at 1. unfold bindD at 1.
  destruct (primes_among_safe [2; 3; 4; 5; 6; 7; 8; 9] 0 _ (calm_new_checker pr)
              ltac:(cbn; assert (8 <= 2 ^ 120) by (vm_compute; discriminate); lia))
    as (first & pr1 & E1 & Hcalm1).
  rewrite E1.
  destruct (primes_among_Returned libm_log _ _ _ _ E1) as (_ & Hin & Hcov & Hlen).
  pose proof (levels_ok_initial eight first Hin Hcov) as Hok.
  destruct (set_of_list_spec first [] (NoDup_nil Z)) as (_ & _ & Hlen').
  fold (set_of_list first) in Hlen'. cbn [length] in Hlen, Hlen', Hcalm1.
  pose proof (while_loop_safe eight fuel 0 [(1, set_of_list first)] pr1 ltac:(lia) ltac:(lia) Hok)
    as Hsafe.
  specialize (Hsafe ltac:(unfold level; cbn [dict_get Z.eqb Z.add]; cbn; lia)
                    ltac:(apply (calm_mono _ _ _ Hcalm1); cbn; lia)).
  destruct (while_loop libm_log iteration_order fuel eight 0 _ pr1) as [[d | e' |] pr2] eqn:E2;
    cbn [fst retD]; try discriminate.
  exfalso. apply (Hsafe e'). reflexivity.
Qed.

End Safety.

(** With a C library whose [log] is finite on finite positive doubles and
    [log(4.0) >= 1], [Doit] raises nothing in its first 36 passes through the
    loop, whatever the random source draws and in whatever order the sets
    are iterated: no [ValueError] from an exhausted budget or from [int], no
    [KeyError] from [w2ps]. Given that many passes it has returned or is
    still in the loop. *)
Theorem Doit_never_raises
  (libm_log : float -> float) (iteration_order : list Z -> list Z)
  (fuel : nat) (eight_becomes_three : bool) (pr : process) :
  finite_log libm_log -> (forall l, Permutation (iteration_order l) l) -> (fuel <= 36)%nat ->
  fst (Doit libm_log iteration_order fuel eight_becomes_three pr) = Returned tt
  \/ fst (Doit libm_log iteration_order fuel eight_becomes_three pr) = OutOfFuel.
Proof.
  intros Hlog Hperm Hfuel.
  pose proof (Doit_safe libm_log Hlog iteration_order Hperm fuel eight_becomes_three pr Hfuel)
    as Hsafe.
  destruct (fst (Doit libm_log iteration_order fuel eight_becomes_three pr)) as [[] | e |].
  - now left.
  - exfalso. now apply (Hsafe e).
  - now right.
Qed.

Lemma Doit_never_raises_witness :
  fst (Doit finite_ref_log (fun l => l) 1 true (start (fun _ => 0))) = Returned tt
  \/ fst (Doit finite_ref_log (fun l => l) 1 true (start (fun _ => 0))) = OutOfFuel.
Proof.
  apply (Doit_never_raises finite_ref_log (fun l => l) 1 true (start (fun _ => 0)));
    [exact finite_ref_log_finite | intros l; apply Permutation_refl | lia].
Defined.

Lemma Main_safe libm_log iteration_order fuel pr :
  finite_log libm_log -> (forall l, Permutation (iteration_order l) l) -> (fuel <= 36)%nat ->
  forall e, fst (Main libm_log iteration_order fuel pr) <> Raised e.
Proof.
  intros Hlog Hperm Hfuel e. unfold Main, bindD, print.
  pose proof (Doit_safe libm_log Hlog iteration_order Hperm fuel false) as H1.
  pose proof (Doit_safe libm_log Hlog iteration_order Hperm fuel true) as H2.
  match goal with |- context [Doit libm_log iteration_order fuel false ?p] =>
    specialize (H1 p Hfuel); destruct (Doit libm_log iteration_order fuel false p) as [[u | e1 |] pr1]
  end; cbn [fst] in *; [| exfalso; now apply (H1 e1) | discriminate].
  apply H2. exact Hfuel.
Qed.

(** [Main] raises nothing either, given up to 36 passes for each of its two
    runs of [Doit]: each run starts from a new checker, with the whole
    budget. *)
Theorem Main_never_raises
  (libm_log : float -> float) (iteration_order : list Z -> list Z)
  (fuel : nat) (pr : process) :
  finite_log libm_log -> (forall l, Permutation (iteration_order l) l) -> (fuel <= 36)%nat ->
  fst (Main libm_log iteration_order fuel pr) = Returned tt
  \/ fst (Main libm_log iteration_order fuel pr) = OutOfFuel.
Proof.
  intros Hlog Hperm Hfuel.
  pose proof (Main_safe libm_log iteration_order fuel pr Hlog Hperm Hfuel) as Hsafe.
  destruct (fst (Main libm_log iteration_order fuel pr)) as [[] | e |].
  - now left.
  - exfalso. now apply (Hsafe e).
  - now right.
Qed.

Lemma Main_never_raises_witness :
  fst (Main finite_ref_log (fun l => rev l) 1 (start (fun _ => 0))) = Returned tt
  \/ fst (Main finite_ref_log (fun l => rev l) 1 (start (fun _ => 0))) = OutOfFuel.
Proof.
  apply (Main_never_raises finite_ref_log (fun l => rev l) 1 (start (fun _ => 0)));
    [exact finite_ref_log_finite | intros l; apply Permutation_sym, Permutation_rev | lia].
Defined.
